(** * functime: time-series feature descriptors and the feature reducer

    A shallow embedding of [functime/feature_extraction/tsfresh.py] and of
    the class [features_dim_reduction] of
    [functime/feature_reduction/time_series_processor.py].

    Conventions of the embedding.
    - A polars Series is a list of cells; a cell is [Some v] or the missing
      marker [None].  Numeric values are rationals: real-number arithmetic
      is exact.  Where a descriptor turns integer counts into a Float64 by
      a division, the float operations are taken through the interface
      [FloatOps], which has an exact instance and a binary64 instance.
      Where a descriptor compares the values with their mean, the mean
      is the Float64 the library returns, [Float64Mean], of which nothing
      is assumed; [exact_mean] is the mean without rounding.
    - The collaborators of the class that are not among the sources, the
      FeatureCalculator and the DimensionReducer, are parameters of the
      class, and modelled from the specification in [Collaborators].
    - The polars operations are those of the 0.19 series the source is
      written against ([cumsum], [shift_and_fill], a ["counts"] column):
      [count] counts every row, comparisons with a missing cell are
      missing, [filter] keeps the rows whose mask is true.
    - Python exceptions are the [Raise] results of the type [result]. *)

From Stdlib Require Import String.
From Stdlib Require Import Reals Qreals Lra.
From Stdlib Require Import ZArith QArith Qabs Qround List Bool Lia Lqa.
From Stdlib Require Import Floats Uint63.
Import ListNotations.

Local Open Scope Q_scope.

(** ** Python results *)

Module Py.

Inductive exn : Set :=
| ValueError
| IndexError
| ZeroDivisionError
| TypeError
| KeyError
| AttributeError
| ComputeError
| ColumnNotFoundError
| InvalidDimensionError
| SchemaMismatchError
| SystemExit (code : Z).

Inductive result (A : Type) : Type :=
| Ok (a : A)
| Raise (e : exn).

Arguments Ok {A} a.
Arguments Raise {A} e.

Definition bind {A B : Type} (m : result A) (k : A -> result B) : result B :=
  match m with
  | Ok a => k a
  | Raise e => Raise e
  end.

Definition raises {A : Type} (m : result A) : bool :=
  match m with
  | Ok _ => false
  | Raise _ => true
  end.

(** [l[i]] with Python's negative indices. *)
Definition getitem {A : Type} (l : list A) (i : Z) : result A :=
  let n := Z.of_nat (length l) in
  let j := (if i <? 0 then n + i else i)%Z in
  if ((j <? 0) || (n <=? j))%Z then Raise IndexError
  else match nth_error l (Z.to_nat j) with
       | Some a => Ok a
       | None => Raise IndexError
       end.

(** A dict with string keys, as the literal that built it. *)
Definition dict (V : Type) : Type := list (string * V).

Fixpoint dict_get {V : Type} (d : dict V) (k : string) : result V :=
  match d with
  | [] => Raise KeyError
  | (k', v) :: d' => if String.eqb k k' then Ok v else dict_get d' k
  end.

End Py.

Notation "x <- m ;; k" := (Py.bind m (fun x => k))
  (at level 61, m at next level, right associativity).

(** ** Rational helpers *)

Definition Qlt_bool (a b : Q) : bool := negb (Qle_bool b a).

Definition Qsum (l : list Q) : Q := fold_right Qplus 0 l.

Definition Qnat (n : nat) : Q := inject_Z (Z.of_nat n).

(** Insertion sort, ascending. *)
Fixpoint Qinsert (v : Q) (l : list Q) : list Q :=
  match l with
  | [] => [v]
  | w :: l' => if Qle_bool v w then v :: l else w :: Qinsert v l'
  end.

Definition Qsort (l : list Q) : list Q := fold_right Qinsert [] l.

Fixpoint Qmaximum (l : list Q) : option Q :=
  match l with
  | [] => None
  | v :: l' => match Qmaximum l' with
               | None => Some v
               | Some m => Some (if Qle_bool m v then v else m)
               end
  end.

Fixpoint Qminimum (l : list Q) : option Q :=
  match l with
  | [] => None
  | v :: l' => match Qminimum l' with
               | None => Some v
               | Some m => Some (if Qle_bool v m then v else m)
               end
  end.

(** ** Float64 results of integer divisions *)

(** Extended reals: what a Float64 holds when rounding is left out. *)
Inductive xreal : Type :=
| Fin (q : Q)
| PInf
| NInf
| NaN.

Module XReal.

Definition neg (a : xreal) : xreal :=
  match a with
  | Fin q => Fin (- q)
  | PInf => NInf
  | NInf => PInf
  | NaN => NaN
  end.

Definition add (a b : xreal) : xreal :=
  match a, b with
  | NaN, _ | _, NaN => NaN
  | PInf, NInf | NInf, PInf => NaN
  | PInf, _ | _, PInf => PInf
  | NInf, _ | _, NInf => NInf
  | Fin p, Fin q => Fin (p + q)
  end.

Definition sub (a b : xreal) : xreal := add a (neg b).

(** The sign of a finite value: zero counts as positive (the model has
    no negative zero). *)
Definition inf_of_sign (positive : bool) : xreal :=
  if positive then PInf else NInf.

Definition mul_inf (positive : bool) (q : Q) : xreal :=
  if Qeq_bool q 0 then NaN
  else inf_of_sign (Bool.eqb positive (Qlt_bool 0 q)).

Definition mul (a b : xreal) : xreal :=
  match a, b with
  | NaN, _ | _, NaN => NaN
  | Fin p, Fin q => Fin (p * q)
  | PInf, Fin q | Fin q, PInf => mul_inf true q
  | NInf, Fin q | Fin q, NInf => mul_inf false q
  | PInf, PInf | NInf, NInf => PInf
  | PInf, NInf | NInf, PInf => NInf
  end.

Definition div (a b : xreal) : xreal :=
  match a, b with
  | NaN, _ | _, NaN => NaN
  | Fin p, Fin q =>
      if Qeq_bool q 0 then
        if Qeq_bool p 0 then NaN else inf_of_sign (Qlt_bool 0 p)
      else Fin (p / q)
  | Fin _, (PInf | NInf) => Fin 0
  | PInf, Fin q => inf_of_sign (Qle_bool 0 q)
  | NInf, Fin q => inf_of_sign (negb (Qle_bool 0 q))
  | (PInf | NInf), (PInf | NInf) => NaN
  end.

Definition ltb (a b : xreal) : bool :=
  match a, b with
  | NaN, _ | _, NaN => false
  | Fin p, Fin q => Qlt_bool p q
  | NInf, (Fin _ | PInf) => true
  | Fin _, PInf => true
  | _, _ => false
  end.

Definition eqb (a b : xreal) : bool :=
  match a, b with
  | Fin p, Fin q => Qeq_bool p q
  | PInf, PInf | NInf, NInf => true
  | _, _ => false
  end.

Definition red (a : xreal) : xreal :=
  match a with
  | Fin q => Fin (Qred q)
  | _ => a
  end.

End XReal.

(** The operations a descriptor applies to a Float64 scalar. *)
Class FloatOps (F : Type) : Type := {
  of_int : Z -> F;
  fadd : F -> F -> F;
  fmul : F -> F -> F;
  fdiv : F -> F -> F;
  fltb : F -> F -> bool;
  feqb : F -> F -> bool
}.

#[export] Instance exact_float : FloatOps xreal := {
  of_int z := Fin (inject_Z z);
  fadd := XReal.add;
  fmul := XReal.mul;
  fdiv := XReal.div;
  fltb := XReal.ltb;
  feqb := XReal.eqb
}.

#[export] Instance binary64 : FloatOps PrimFloat.float := {
  of_int z := PrimFloat.of_uint63 (Uint63.of_Z z);
  fadd := PrimFloat.add;
  fmul := PrimFloat.mul;
  fdiv := PrimFloat.div;
  fltb := PrimFloat.ltb;
  feqb := PrimFloat.eqb
}.

(** ** The polars operations the descriptors are built from *)

Module Polars.

Import Py.

Definition cell : Type := option Q.
Definition series : Type := list cell.
Definition mask : Type := list (option bool).

(** A Float64 scalar as an expression or a Series method returns it:
    [None] is the missing value. *)
Definition scalar : Type := option xreal.

(** A series without missing values. *)
Definition dense (xs : list Q) : series := map Some xs.

Fixpoint drop_nulls {A : Type} (x : list (option A)) : list A :=
  match x with
  | [] => []
  | Some v :: r => v :: drop_nulls r
  | None :: r => drop_nulls r
  end.

Definition len {A : Type} (x : list A) : nat := length x.

(** [count]: every row, the missing ones too. *)
Definition count {A : Type} (x : list (option A)) : nat := length x.

Definition lift2 {A B C : Type} (f : A -> B -> C)
           (a : option A) (b : option B) : option C :=
  match a, b with
  | Some u, Some v => Some (f u v)
  | _, _ => None
  end.

Fixpoint zip_with {A B C : Type} (f : A -> B -> C)
         (a : list A) (b : list B) : list C :=
  match a, b with
  | u :: a', v :: b' => f u v :: zip_with f a' b'
  | _, _ => []
  end.

(** Aggregations skip the missing cells; over no value at all [sum] is
    the empty sum and the others are missing. *)
Definition sum (x : series) : Q := Qsum (drop_nulls x).

Definition mean (x : series) : cell :=
  match drop_nulls x with
  | [] => None
  | v => Some (Qsum v / Qnat (length v))
  end.

Definition var (ddof : nat) (x : series) : cell :=
  let v := drop_nulls x in
  if (length v <=? ddof)%nat then None
  else match mean x with
       | None => None
       | Some m =>
           Some (Qsum (map (fun a => (a - m) * (a - m)) v)
                 / Qnat (length v - ddof))
       end.

Definition max (x : series) : cell := Qmaximum (drop_nulls x).
Definition min (x : series) : cell := Qminimum (drop_nulls x).

(** [pl.cov(a, b)]: the sample covariance, the sum of the products of
    the deviations over [n - 1]. *)
Definition cov (a b : series) : scalar :=
  match mean a, mean b with
  | Some ma, Some mb =>
      let prods :=
        zip_with (lift2 (fun u v => (u - ma) * (v - mb))) a b in
      Some (XReal.div (Fin (sum prods))
              (Fin (Qnat (length (drop_nulls prods)) - 1)))
  | _, _ => None
  end.

(** [shift_and_fill(fill, periods)]; [shift] fills with the missing
    value. *)
Definition shift_and_fill {A : Type} (fill : A) (periods : Z)
           (x : list A) : list A :=
  let n := length x in
  if (0 <=? periods)%Z
  then firstn n (repeat fill (Z.to_nat periods) ++ x)
  else skipn (Z.to_nat (- periods)) x
       ++ repeat fill (Nat.min (Z.to_nat (- periods)) n).

Definition shift {A : Type} (periods : Z) (x : list (option A))
  : list (option A) :=
  shift_and_fill None periods x.

(** [diff()]: [n = 1], [null_behavior = "ignore"]. *)
Definition diff (x : series) : series :=
  zip_with (lift2 Qminus) x (shift 1 x).

Definition abs (x : series) : series := map (option_map Qabs) x.

Definition sub (x : series) (m : cell) : series :=
  map (fun c => lift2 Qminus c m) x.

(** [int_range(lo, hi)] *)
Definition int_range (lo hi : Z) : series :=
  map (fun k => Some (inject_Z (lo + Z.of_nat k)))
      (seq 0 (Z.to_nat (hi - lo))).

(** [dot]: the sum of the products; the two series have one length. *)
Definition dot (a b : series) : result Q :=
  if (length a =? length b)%nat
  then Ok (sum (zip_with (lift2 Qmult) a b))
  else Raise ComputeError.

(** Sorted values and the quantile with linear interpolation: position
    [(m - 1) * q] among the [m] sorted values. *)
Definition quantile (x : series) (q : Q) : result cell :=
  if Qle_bool 0 q && Qle_bool q 1 then
    let v := Qsort (drop_nulls x) in
    match v with
    | [] => Ok None
    | _ =>
        let pos := Qnat (length v - 1) * q in
        let lo := Qfloor pos in
        let a := nth (Z.to_nat lo) v 0 in
        if (Qceiling pos =? lo)%Z then Ok (Some a)
        else
          let b := nth (S (Z.to_nat lo)) v 0 in
          Ok (Some (if Qeq_bool a b then a
                    else (pos - inject_Z lo) * (b - a) + a))
    end
  else Raise ComputeError.

Definition median (x : series) : cell :=
  match quantile x (1 # 2) with
  | Ok c => c
  | Raise _ => None
  end.

(** Comparisons against a scalar: missing when either side is. *)
Definition le (x : series) (t : cell) : mask :=
  map (fun c => lift2 Qle_bool c t) x.
Definition ge (x : series) (t : cell) : mask :=
  map (fun c => lift2 Qle_bool t c) x.
Definition lt (x : series) (t : cell) : mask :=
  map (fun c => lift2 Qlt_bool c t) x.
Definition gt (x : series) (t : cell) : mask :=
  map (fun c => lift2 Qlt_bool t c) x.

(** Three-valued conjunction: false wins over missing. *)
Definition and3 (a b : option bool) : option bool :=
  match a, b with
  | Some false, _ | _, Some false => Some false
  | Some true, Some true => Some true
  | _, _ => None
  end.

Definition and_ (a b : mask) : mask := zip_with and3 a b.

(** The mean of a Float64 column as the library returns it.  The sum is
    rounded, its additions are in an order of the library's choosing and
    it can overflow: [mean_of_values v] is the Float64 the library gives
    for the values [v], and nothing is assumed of it. *)
Class Float64Mean : Type := mean_of_values : list Q -> xreal.

(** [mean()] of a Float64 column: missing when the column has no value. *)
Definition mean_f64 `{Float64Mean} (x : series) : scalar :=
  match drop_nulls x with
  | [] => None
  | v => Some (mean_of_values v)
  end.

(** The mean without rounding, to run the descriptors on. *)
#[export] Instance exact_mean : Float64Mean :=
  fun v => Fin (Qsum v / Qnat (length v)).

(** Comparisons of a column against a Float64 scalar: missing when either
    side is, false against NaN. *)
Definition lt_f64 (x : series) (t : scalar) : mask :=
  map (fun c => lift2 XReal.ltb (option_map Fin c) t) x.
Definition gt_f64 (x : series) (t : scalar) : mask :=
  map (fun c => lift2 XReal.ltb t (option_map Fin c)) x.

(** [is_between(lo, hi)], both ends closed. *)
Definition is_between (x : series) (lo hi : cell) : mask :=
  and_ (ge x lo) (le x hi).

(** [filter]: the rows whose mask is true. *)
Fixpoint filter {A : Type} (x : list A) (m : mask) : list A :=
  match x, m with
  | c :: x', b :: m' =>
      match b with
      | Some true => c :: filter x' m'
      | _ => filter x' m'
      end
  | _, _ => []
  end.

(** *** Further operations *)

(** [diff(null_behavior="drop")]: the differences without the first
    cell. *)
Definition diff_drop (x : series) : series := tl (diff x).

(** [cast(pl.Int8)] of a Boolean series. *)
Definition cast_int8 (m : mask) : series :=
  map (option_map (fun b : bool => if b then 1 else 0)) m.

(** [eq(t)]: missing when either side is. *)
Definition eq_scalar (x : series) (t : cell) : mask :=
  map (fun c => lift2 Qeq_bool c t) x.

(** [sum] of a Boolean series: the number of its true cells. *)
Fixpoint sum_mask (m : mask) : nat :=
  match m with
  | [] => 0%nat
  | Some true :: m' => S (sum_mask m')
  | _ :: m' => sum_mask m'
  end.

(** [any()] *)
Definition any (m : mask) : bool :=
  existsb (fun c => match c with Some true => true | _ => false end) m.

(** Elementwise product and difference of two series. *)
Definition times (a b : series) : series := zip_with (lift2 Qmult) a b.
Definition minus (a b : series) : series := zip_with (lift2 Qminus) a b.

(** [head(n)]: the first [n] cells; for a negative [n], all but the last
    [-n]. *)
Definition head {A : Type} (n : Z) (x : list A) : list A :=
  if (n <? 0)%Z
  then firstn (Z.to_nat (Z.max 0 (Z.of_nat (length x) + n))) x
  else firstn (Z.to_nat n) x.

(** On series without missing values: the position of the first cell
    that holds the largest (smallest) value. *)
Fixpoint index_where (p : Q -> bool) (xs : list Q) : option nat :=
  match xs with
  | [] => None
  | v :: r => if p v then Some 0%nat else option_map S (index_where p r)
  end.

Definition arg_max (xs : list Q) : option nat :=
  match Qmaximum xs with
  | None => None
  | Some m => index_where (fun v => Qeq_bool v m) xs
  end.

Definition arg_min (xs : list Q) : option nat :=
  match Qminimum xs with
  | None => None
  | Some m => index_where (fun v => Qeq_bool v m) xs
  end.

(** [is_duplicated()]: true on the cells whose value occurs more than
    once. *)
Definition occurrences (v : Q) (xs : list Q) : nat :=
  length (List.filter (fun w => Qeq_bool w v) xs).

Definition is_duplicated (xs : list Q) : mask :=
  map (fun v => Some (1 <? occurrences v xs)%nat) xs.

(** [sort(descending=True)] *)
Fixpoint Qinsert_desc (v : Q) (l : list Q) : list Q :=
  match l with
  | [] => [v]
  | w :: l' => if Qle_bool w v then v :: l else w :: Qinsert_desc v l'
  end.

Definition sort_desc (l : list Q) : list Q := fold_right Qinsert_desc [] l.

End Polars.

(** ** Grouping and the small data frames of [value_counts] *)

Section Tally.

Context {K : Type} (eqb : K -> K -> bool).

(** One more occurrence of [k]: its count goes up, or it joins the end
    of the table, so that the keys keep the order of their first
    occurrence ([maintain_order = True]). *)
Fixpoint bump (k : K) (acc : list (K * nat)) : list (K * nat) :=
  match acc with
  | [] => [(k, 1%nat)]
  | (j, c) :: acc' =>
      if eqb j k then (j, S c) :: acc' else (j, c) :: bump k acc'
  end.

Definition tally (keys : list K) : list (K * nat) :=
  fold_left (fun acc k => bump k acc) keys [].

End Tally.

Module Frame.

Import Py.

Record frame : Type := {
  columns : list string;
  rows : list (list Q)
}.

Definition shape (f : frame) : nat * nat :=
  (length (rows f), length (columns f)).

Fixpoint index_of (name : string) (cols : list string) : option nat :=
  match cols with
  | [] => None
  | c :: cols' =>
      if String.eqb name c then Some 0%nat
      else option_map S (index_of name cols')
  end.

Definition column_at (i : nat) (f : frame) : list Q :=
  map (fun r => nth i r 0) (rows f).

Definition get_column (f : frame) (name : string) : result (list Q) :=
  match index_of name (columns f) with
  | Some i => Ok (column_at i f)
  | None => Raise ColumnNotFoundError
  end.

(** [filter(pl.col(name) > bound)] *)
Definition filter_gt (f : frame) (name : string) (bound : Q)
  : result frame :=
  match index_of name (columns f) with
  | Some i =>
      Ok {| columns := columns f;
            rows := List.filter (fun r => Qlt_bool bound (nth i r 0))
                                (rows f) |}
  | None => Raise ColumnNotFoundError
  end.

(** [DataFrame.sum()]: one row, the sum of every column. *)
Definition sum (f : frame) : frame :=
  {| columns := columns f;
     rows := [map (fun i => Qsum (column_at i f))
                  (seq 0 (length (columns f)))] |}.

(** [DataFrame.item()] with no argument: the frame has one cell. *)
Definition item (f : frame) : result Q :=
  match shape f with
  | (1%nat, 1%nat) => r <- getitem (rows f) 0 ;; getitem r 0
  | _ => Raise ValueError
  end.

(** [Series.value_counts()] of an unnamed series: the column of the
    distinct values, then the column ["counts"]. *)
Definition value_counts (x : list Q) : frame :=
  {| columns := [""%string; "counts"%string];
     rows := map (fun vc => [fst vc; Qnat (snd vc)]) (tally Qeq_bool x) |}.

Definition dot (a b : list Q) : Q := Qsum (Polars.zip_with Qmult a b).

(** [DataFrame.item(row, column)] *)
Definition item_at (f : frame) (row : Z) (name : string) : result Q :=
  c <- get_column f name ;; getitem c row.

(** [Series.n_unique()] *)
Definition n_unique (x : list Q) : nat := length (tally Qeq_bool x).

End Frame.

(** ** The descriptors of [tsfresh.py] *)

Module Tsfresh.

Import Py Polars.

Definition to_scalar (c : cell) : scalar := option_map Fin c.

(** *** linear_trend *)

Record trend : Type := {
  slope : scalar;
  intercept : scalar;
  rss : scalar
}.

Definition xsum (x : list scalar) : scalar :=
  Some (fold_right XReal.add (Fin 0) (drop_nulls x)).

Definition linear_trend (x : series) : trend :=
  let x_range := int_range 1 (Z.of_nat (len x) + 1) in
  let beta := lift2 XReal.div (cov x x_range) (to_scalar (var 1 x)) in
  let alpha :=
    lift2 XReal.sub (to_scalar (mean x))
          (lift2 XReal.mul beta (to_scalar (mean x_range))) in
  let resid :=
    zip_with
      (fun xi ri =>
         lift2 XReal.add
               (lift2 XReal.sub (to_scalar xi)
                      (lift2 XReal.mul beta (to_scalar ri)))
               alpha)
      x x_range in
  let rss := xsum (map (fun e => lift2 XReal.mul e e) resid) in
  {| slope := beta; intercept := alpha; rss := rss |}.

(** *** change_quantiles *)

Definition change_quantiles (x : series) (ql qh : Q) (is_abs : bool)
  : result series :=
  let x := diff x in
  let x := if is_abs then abs x else x in
  lo <- quantile x ql ;;
  hi <- quantile x qh ;;
  let inside := is_between x lo hi in
  Ok (filter x (and_ inside (shift_and_fill (Some false) 1 inside))).

(** *** var_greater_than_std *)

(** [a > sqrt b] over the rationals; the square root of a negative
    number is NaN and compares false. *)
Definition gt_sqrt (a b : Q) : bool :=
  if Qlt_bool b 0 then false
  else Qlt_bool 0 a && Qlt_bool b (a * a).

Definition var_greater_than_std (x : series) : option bool :=
  match var 0 x with
  | None => None
  | Some y => Some (gt_sqrt y y)
  end.

(** *** autocorr *)

Definition autocorr (x : series) (lag : Z) : result scalar :=
  if (lag <? 0)%Z then Ok None
  else if (lag =? 0)%Z then Ok (Some (Fin 1))
  else
    let a := sub (map Some (drop_nulls (shift (- lag) x))) (mean x) in
    let b := sub (map Some (drop_nulls (shift lag x))) (mean x) in
    num <- dot a b ;;
    let den :=
      lift2 XReal.mul
            (Some (Fin (inject_Z (Z.of_nat (count x) - lag))))
            (to_scalar (var 0 x)) in
    Ok (lift2 XReal.div (Some (Fin num)) den).

(** *** count_below, count_above *)

Definition count_below {F : Type} `{FloatOps F} (x : series) (t : Q) : F :=
  fmul (fdiv (of_int (Z.of_nat (count (filter x (le x (Some t))))))
             (of_int (Z.of_nat (count x))))
       (of_int 100).

Definition count_above {F : Type} `{FloatOps F} (x : series) (t : Q) : F :=
  fmul (fdiv (of_int (Z.of_nat (count (filter x (ge x (Some t))))))
             (of_int (Z.of_nat (count x))))
       (of_int 100).

(** *** _get_length_sequences_where and the longest strikes *)

Fixpoint cumsum_from (acc : Z) (l : list Z) : list Z :=
  match l with
  | [] => []
  | v :: l' => (acc + v)%Z :: cumsum_from (acc + v)%Z l'
  end.

Definition cumsum (l : list Z) : list Z := cumsum_from 0 l.

(** [ne]: missing when either side is missing. *)
Definition ne (a b : mask) : mask :=
  zip_with (lift2 (fun u v => negb (Bool.eqb u v))) a b.

(** [fill_null(0)] on a Boolean column, read as 0 and 1. *)
Definition fill_null_0 (m : mask) : list Z :=
  map (fun c => match c with Some true => 1%Z | _ => 0%Z end) m.

(** [pl.col("orig") == 1] *)
Definition eq_1 (m : mask) : mask :=
  map (option_map (fun b => Bool.eqb b true)) m.

Definition _get_length_sequences_where (x : mask) : list nat :=
  let orig := x in
  let shifted := shift 1 orig in
  let run_id := cumsum (fill_null_0 (ne orig shifted)) in
  let kept := filter run_id (eq_1 orig) in
  map snd (tally Z.eqb kept).

(** A Series compared with a Python scalar: [None] on the right raises
    TypeError. *)
Definition series_lt (x : series) (t : scalar) : result mask :=
  match t with
  | None => Raise TypeError
  | Some _ => Ok (lt_f64 x t)
  end.

Definition series_gt (x : series) (t : scalar) : result mask :=
  match t with
  | None => Raise TypeError
  | Some _ => Ok (gt_f64 x t)
  end.

Definition longest_strike_below_mean `{Float64Mean} (x : series)
  : result nat :=
  below <- series_lt x (mean_f64 x) ;;
  let lengths := _get_length_sequences_where below in
  Ok (if (0 <? len lengths)%nat then list_max lengths else 0%nat).

Definition longest_strike_above_mean `{Float64Mean} (x : series)
  : result nat :=
  above <- series_gt x (mean_f64 x) ;;
  let lengths := _get_length_sequences_where above in
  Ok (if (0 <? len lengths)%nat then list_max lengths else 0%nat).

(** *** sum_reocurring_points, sum_reocurring_values *)

Definition sum_reocurring_points (x : list Q) : result Q :=
  counts <- Frame.filter_gt (Frame.value_counts x) "counts" 1 ;;
  c0 <- getitem (Frame.columns counts) 0 ;;
  a <- Frame.get_column counts c0 ;;
  c0' <- getitem (Frame.columns counts) 0 ;;
  b <- Frame.get_column counts c0' ;;
  Ok (Frame.dot a b).

Definition sum_reocurring_values (x : list Q) : result Q :=
  counts <- Frame.filter_gt (Frame.value_counts x) "counts" 1 ;;
  let X := Frame.sum counts in
  Frame.item X.

(** *** mean_second_derivative_central *)

(** Python arithmetic on the cells a Series hands out: [None] is not a
    number. *)
Definition py_sub (a b : cell) : result Q :=
  match a, b with
  | Some u, Some v => Ok (u - v)
  | _, _ => Raise TypeError
  end.

Definition py_add (a b : cell) : result Q :=
  match a, b with
  | Some u, Some v => Ok (u + v)
  | _, _ => Raise TypeError
  end.

Definition py_truediv (u : Q) (d : Z) : result Q :=
  if (d =? 0)%Z then Raise ZeroDivisionError
  else Ok (u / inject_Z d).

Definition mean_second_derivative_central (x : series) : result Q :=
  a <- getitem x (-1) ;;
  b <- getitem x (-2) ;;
  s1 <- py_sub a b ;;
  c <- getitem x 1 ;;
  s2 <- py_sub (Some s1) c ;;
  d <- getitem x 0 ;;
  s3 <- py_add (Some s2) d ;;
  py_truediv s3 (2 * (Z.of_nat (len x) - 2)).

(** *** symmetry_looking *)

(** The argument [r] as Python passes it: a number, or a mapping. *)
Inductive pyarg : Type :=
| PyFloat (v : Q)
| PyDict (d : dict Q).

Definition subscript (r : pyarg) (k : string) : result Q :=
  match r with
  | PyFloat _ => Raise TypeError
  | PyDict d => dict_get d k
  end.

Definition symmetry_looking (x : series) (r : pyarg) : result bool :=
  d <- py_sub (mean x) (median x) ;;
  let mean_median_difference := Qabs d in
  max_min_difference <- py_sub (max x) (min x) ;;
  rr <- subscript r "r" ;;
  Ok (Qlt_bool mean_median_difference (rr * max_min_difference)).

(** *** absolute_energy, absolute_maximum, absolute_sum_of_changes *)

Definition absolute_energy (x : series) : result Q := dot x x.

Definition absolute_maximum (x : series) : cell := max (abs x).

Definition absolute_sum_of_changes (x : series) : Q :=
  sum (abs (diff_drop x)).

(** *** mean_abs_change, mean_change *)

Definition mean_abs_change (x : series) : cell := mean (abs (diff_drop x)).

Definition mean_change (x : series) : cell := mean (diff_drop x).

(** *** number_crossing_m *)

Definition number_crossing_m (x : series) (m : Q) : nat :=
  sum_mask (eq_scalar (abs (diff_drop (cast_int8 (gt x (Some m))))) (Some 1)).

(** *** first and last location of the maximum and the minimum *)

(** Python's [a / b] on what [arg_max] and [len] hand out. *)
Definition py_div_index (a : option Z) (b : Z) : result Q :=
  match a with
  | Some u => py_truediv (inject_Z u) b
  | None => Raise TypeError
  end.

(** Python's [a - b] with [b] an index or [None]. *)
Definition py_sub_index (a : Z) (b : option nat) : result Z :=
  match b with
  | Some k => Ok (a - Z.of_nat k)%Z
  | None => Raise TypeError
  end.

Definition first_location_of_maximum (x : list Q) : result Q :=
  py_div_index (option_map Z.of_nat (arg_max x)) (Z.of_nat (len x)).

Definition last_location_of_maximum (x : list Q) : result Q :=
  d <- py_sub_index (Z.of_nat (len x)) (arg_max (rev x)) ;;
  py_div_index (Some d) (Z.of_nat (len x)).

Definition first_location_of_minimum (x : list Q) : result Q :=
  py_div_index (option_map Z.of_nat (arg_min x)) (Z.of_nat (len x)).

Definition last_location_of_minimum (x : list Q) : result Q :=
  d <- py_sub_index (Z.of_nat (len x)) (arg_min (rev x)) ;;
  py_div_index (Some d) (Z.of_nat (len x)).

(** *** count_below_mean, count_above_mean *)

Definition count_below_mean `{Float64Mean} (x : series) : nat :=
  count (filter x (lt_f64 x (mean_f64 x))).

Definition count_above_mean `{Float64Mean} (x : series) : nat :=
  count (filter x (gt_f64 x (mean_f64 x))).

(** *** has_duplicate, has_duplicate_max, has_duplicate_min *)

Definition has_duplicate (x : list Q) : bool := any (is_duplicated x).

Definition _has_duplicate_of_value (x : list Q) (t : cell) : bool :=
  any (is_duplicated (filter x (eq_scalar (dense x) t))).

Definition has_duplicate_max (x : list Q) : bool :=
  _has_duplicate_of_value x (Qmaximum x).

Definition has_duplicate_min (x : list Q) : bool :=
  _has_duplicate_of_value x (Qminimum x).

(** *** mean_n_absolute_max *)

Definition mean_n_absolute_max (x : list Q) (n_maxima : Z) : result cell :=
  if (n_maxima <=? 0)%Z then Raise ValueError
  else
    Ok (if (n_maxima <? Z.of_nat (len x))%Z
        then mean (dense (firstn (Z.to_nat n_maxima)
                                 (sort_desc (map Qabs x))))
        else None).

(** *** percent_reocurring_points, percent_recoccuring_values *)

Definition percent_reocurring_points (x : list Q) : result Q :=
  filtered <- Frame.filter_gt (Frame.value_counts x) "counts" 1 ;;
  let counts := Frame.sum filtered in
  c <- Frame.item_at counts 0 "counts" ;;
  py_truediv c (Z.of_nat (len x)).

Definition percent_recoccuring_values (x : list Q) : result Q :=
  counts <- Frame.filter_gt (Frame.value_counts x) "counts" 1 ;;
  py_truediv (Qnat (fst (Frame.shape counts)))
             (Z.of_nat (Frame.n_unique x)).

(** *** time_reversal_asymmetry_statistic *)

Definition time_reversal_asymmetry_statistic (x : series) (lag : Z) : cell :=
  let n := Z.of_nat (len x) in
  let one_lag := shift (- lag) x in
  let two_lag := shift (- 2 * lag) x in
  let result :=
    mean (head (n - 2 * lag)
               (minus (times (times two_lag two_lag) one_lag)
                      (times (times one_lag x) x))) in
  result.

End Tsfresh.

(** ** The reducer of [time_series_processor.py] *)

Module Table.

(** A data frame as the reducer sees it: named columns, in order. *)
Definition table (C : Type) : Type := list (string * C).

Definition columns {C : Type} (t : table C) : list string := map fst t.

(** [select(pl.exclude(id))] *)
Definition exclude {C : Type} (id : string) (t : table C) : table C :=
  List.filter (fun nc => negb (String.eqb (fst nc) id)) t.

End Table.

Module Reducer.

Import Py Table.

Section Reducer.

(** The collaborators of the class live in [_feat_calculator] and
    [_dim_reducer], which are not part of the sources at hand: their
    objects, attributes and methods are parameters here.
    - [FC]: a FeatureCalculator, its attribute [X_features] and its method
      [calculate_features], which returns the feature table and the
      calculator it leaves behind;
    - [DR]: a DimensionReducer, its attribute [state_model] and its method
      [fit_pca];
    - [model_transform]: the method [transform] of a fitted model. *)
Context {C FC DR PCA E K : Type}.
Variable X_features_attr : FC -> option (table C).
Variable fc_calculate_features : FC -> table C -> result (table C * FC).
Variable state_model_attr : DR -> option PCA.
Variable dr_fit_pca : DR -> table C -> Z -> K -> result DR.
Variable model_transform : PCA -> table C -> result E.

Record features_dim_reduction : Type := {
  feature_calculator : FC;
  dimension_reducer : DR;
  model : string
}.

(** Reading an attribute, or calling a method, of [None]. *)
Definition attr {A : Type} (o : option A) : result A :=
  match o with
  | Some a => Ok a
  | None => Raise AttributeError
  end.

Definition calculate_features (self : features_dim_reduction) (X : table C)
  : result (table C * features_dim_reduction) :=
  r <- fc_calculate_features (feature_calculator self) X ;;
  Ok (fst r,
      {| feature_calculator := snd r;
         dimension_reducer := dimension_reducer self;
         model := model self |}).

Definition X_features (self : features_dim_reduction) : option (table C) :=
  X_features_attr (feature_calculator self).

Definition X_reduced (self : features_dim_reduction) : result E :=
  Xf <- attr (X_features_attr (feature_calculator self)) ;;
  id <- getitem (columns Xf) 0 ;;
  m <- attr (state_model_attr (dimension_reducer self)) ;;
  model_transform m (exclude id Xf).

Definition fit (self : features_dim_reduction) (X : table C) (dim : Z)
           (kwargs : K)
  : result (option PCA * features_dim_reduction) :=
  id <- getitem (columns X) 0 ;;
  r <- calculate_features self X ;;
  let X_features := exclude id (fst r) in
  let self := snd r in
  if String.eqb (model self) "PCA" then
    dr <- dr_fit_pca (dimension_reducer self) X_features dim kwargs ;;
    Ok (state_model_attr dr,
        {| feature_calculator := feature_calculator self;
           dimension_reducer := dr;
           model := model self |})
  else if String.eqb (model self) "TSNE" then Ok (None, self)
  else Raise (SystemExit 1).

Definition fit_transform (self : features_dim_reduction) (X : table C)
           (dim : Z) (kwargs : K)
  : result (option E * features_dim_reduction) :=
  id <- getitem (columns X) 0 ;;
  r <- calculate_features self X ;;
  let X_features := exclude id (fst r) in
  let self := snd r in
  if String.eqb (model self) "PCA" then
    dr <- dr_fit_pca (dimension_reducer self) X_features dim kwargs ;;
    m <- attr (state_model_attr dr) ;;
    e <- model_transform m X_features ;;
    Ok (Some e,
        {| feature_calculator := feature_calculator self;
           dimension_reducer := dr;
           model := model self |})
  else if String.eqb (model self) "TSNE" then Ok (None, self)
  else Raise (SystemExit 1).

(** [fit(X, dim)] and then [X_reduced()] on the object [fit] leaves. *)
Definition fit_then_X_reduced (self : features_dim_reduction) (X : table C)
           (dim : Z) (kwargs : K)
  : result (E * features_dim_reduction) :=
  r <- fit self X dim kwargs ;;
  e <- X_reduced (snd r) ;;
  Ok (e, snd r).

End Reducer.

(** A small instance to run the class on: columns of rationals, a
    calculator that keeps the table it last computed (here the panel
    itself, entity column first), and a projection on the first [dim]
    feature columns, refused when [dim] exceeds the rows or the columns. *)
Definition toy_col : Type := list Q.

Definition toy_calculate (fc : option (table toy_col)) (X : table toy_col)
  : result (table toy_col * option (table toy_col)) :=
  Ok (X, Some X).

Definition toy_rows (X : table toy_col) : nat :=
  match X with
  | [] => 0%nat
  | (_, c) :: _ => length c
  end.

Definition toy_fit_pca (dr : option nat) (X : table toy_col) (dim : Z)
           (kwargs : unit) : result (option nat) :=
  if ((0 <=? dim) && (dim <=? Z.of_nat (Nat.min (toy_rows X) (length X))))%Z
  then Ok (Some (Z.to_nat dim))
  else Raise ValueError.

Definition toy_transform (m : nat) (X : table toy_col)
  : result (list toy_col) :=
  Ok (map snd (firstn m X)).

Definition toy_panel : table toy_col :=
  [("id"%string, [1; 2]); ("f1"%string, [3; 4]); ("f2"%string, [5; 6])].

Definition toy_reducer (m : string)
  : @features_dim_reduction (option (table toy_col)) (option nat) :=
  {| feature_calculator := None; dimension_reducer := None; model := m |}.

End Reducer.

(** ** The collaborators of the reducer, as the specification has them *)

Module Collaborators.

Import Py Table.

Section Collaborators.

(** What the specification leaves open is a parameter: the entities of
    an entity column, the columns the registered descriptors give for a
    panel, the number of cells of a column, the projection fitted on a
    feature matrix and its application to one. *)
Context {C P E K : Type}.
Variable entities : C -> C.
Variable registered_features : table C -> table C.
Variable height : C -> nat.
Variable components : table C -> Z -> K -> P.
Variable project : P -> table C -> E.

(** Modelled from the spec: the FeatureCalculator of [_feat_calculator],
    a module that is not among the sources.  Its attribute [X_features],
    which the class reads as the table of the features, holds the feature
    matrix last computed. *)
Record FeatureCalculator : Type := {
  X_features : option (table C)
}.

(** Modelled from the spec: [FeatureCalculator.calculate_features], not
    among the sources: the feature matrix is "a table with one
    entity-identifier column followed by one column per registered
    feature", the entity column being the first column of the panel; a
    panel without columns has no entity and gives the empty table. *)
Definition calculate_features (fc : FeatureCalculator) (X : table C)
  : result (table C * FeatureCalculator) :=
  let F := match X with
           | (id, c) :: _ => (id, entities c) :: registered_features X
           | [] => []
           end in
  Ok (F, {| X_features := Some F |}).

(** Modelled from the spec: the Reducer State of [_dim_reducer], a module
    that is not among the sources: "fitted projection parameters bound to
    a specific feature matrix's column space". *)
Record state : Type := {
  projection : P;
  fitted_columns : list string
}.

(** Modelled from the spec: the DimensionReducer of [_dim_reducer], not
    among the sources; its attribute [state_model] is the state "created
    by fit, consumed by transform". *)
Record DimensionReducer : Type := {
  state_model : option state
}.

Definition rows (F : table C) : nat :=
  match F with
  | [] => 0%nat
  | (_, c) :: _ => height c
  end.

(** Modelled from the spec: [DimensionReducer.fit_pca], not among the
    sources: it "fits a linear projection retaining target_dim
    components; fails with InvalidDimensionError if target_dim exceeds
    the number of input columns or rows". *)
Definition fit_pca (dr : DimensionReducer) (F : table C) (dim : Z)
           (kwargs : K) : result DimensionReducer :=
  if (Z.of_nat (Nat.min (rows F) (length F)) <? dim)%Z
  then Raise InvalidDimensionError
  else Ok {| state_model :=
               Some {| projection := components F dim kwargs;
                       fitted_columns := columns F |} |}.

(** The same set of column names. *)
Definition same_columns (a b : list string) : bool :=
  forallb (fun n => existsb (String.eqb n) b) a
  && forallb (fun n => existsb (String.eqb n) a) b.

(** Modelled from the spec: [transform] of a fitted state, not among the
    sources: it "projects rows into the fitted component space; fails
    with SchemaMismatchError if the column set differs from the one used
    at fit time". *)
Definition transform (m : state) (F : table C) : result E :=
  if same_columns (columns F) (fitted_columns m)
  then Ok (project (projection m) F)
  else Raise SchemaMismatchError.

End Collaborators.




End Collaborators.

(** ** Reference definitions, as the descriptions word them *)

Module Spec.

Import Py Polars.

(** The index sequence 1..n. *)
Definition index (n : nat) : list Q :=
  map (fun k => inject_Z (Z.of_nat k)) (seq 1 n).

Definition mean (l : list Q) : Q := Qsum l / Qnat (length l).

Definition cov (a b : list Q) : Q :=
  Qsum (zip_with (fun u v => (u - mean a) * (v - mean b)) a b)
  / (Qnat (length a) - 1).

Definition variance (a : list Q) : Q := cov a a.

(** Ordinary least squares of [x] against the index. *)
Definition ols_slope (x : list Q) : Q :=
  cov (index (length x)) x / variance (index (length x)).

Definition ols_intercept (x : list Q) : Q :=
  mean x - ols_slope x * mean (index (length x)).

Definition ols_rss (x : list Q) : Q :=
  Qsum (zip_with
          (fun xi i =>
             let e := xi - (ols_slope x * i + ols_intercept x) in e * e)
          x (index (length x))).

(** Successive differences [x[i+1] - x[i]]. *)
Definition changes (xs : list Q) : list Q := zip_with Qminus (tl xs) xs.

(** The changes whose predecessor and themselves satisfy [inside], in
    order; [prev] is the change before the head of [c]. *)
Fixpoint corridor_pairs (inside : Q -> bool) (prev : Q) (c : list Q)
  : list Q :=
  match c with
  | [] => []
  | d :: c' =>
      if inside prev && inside d
      then d :: corridor_pairs inside d c'
      else corridor_pairs inside d c'
  end.

Definition corridor_changes (xs : list Q) (ql qh : Q) (is_abs : bool)
  : list Q :=
  let c := changes xs in
  let c := if is_abs then map Qabs c else c in
  match quantile (dense c) ql, quantile (dense c) qh, c with
  | Ok (Some lo), Ok (Some hi), d0 :: c' =>
      corridor_pairs (fun v => Qle_bool lo v && Qle_bool v hi) d0 c'
  | _, _, _ => []
  end.

(** The number of true cells of a mask. *)
Fixpoint count_true (m : mask) : nat :=
  match m with
  | [] => 0%nat
  | Some true :: m' => S (count_true m')
  | _ :: m' => count_true m'
  end.

(** The lengths of the maximal runs of [true], in order; [cur] is the
    length of the run under way. *)
Fixpoint run_lengths_from (cur : nat) (m : list bool) : list nat :=
  match m with
  | [] => match cur with O => [] | S _ => [cur] end
  | true :: r => run_lengths_from (S cur) r
  | false :: r =>
      match cur with
      | O => run_lengths_from 0 r
      | S _ => cur :: run_lengths_from 0 r
      end
  end.

Definition run_lengths (m : list bool) : list nat := run_lengths_from 0 m.


(** The pairs of neighbours of which exactly one is above [m]. *)
Fixpoint crossings (m : Q) (xs : list Q) : nat :=
  match xs with
  | u :: (v :: _) as r =>
      ((if Bool.eqb (Qlt_bool m u) (Qlt_bool m v) then 0 else 1)
       + crossings m r)%nat
  | _ => 0%nat
  end.

End Spec.

(** * Properties *)

Import Py Polars Tsfresh.

Create HintDb series discriminated.

(** ** sum_reocurring_points, sum_reocurring_values *)

(** [sum_reocurring_values] calls [item()] on the one-row frame of the
    column sums, which has two columns: it raises on every input. *)
Lemma sum_reocurring_values_raises (x : list Q) :
  sum_reocurring_values x = Raise ValueError.
Proof. reflexivity. Qed.

(** C1: on [2,2,2,2,1] the code of [sum_reocurring_points] multiplies the
    column of repeated values by itself and returns 4 (the documented and
    claimed result is 8), and [sum_reocurring_values] raises ValueError
    (the documented and claimed result is 2). *)
Theorem sum_reocurring_scenario :
  sum_reocurring_points [2; 2; 2; 2; 1] = Ok 4
  /\ sum_reocurring_values [2; 2; 2; 2; 1] = Raise ValueError.
Proof. split; vm_compute; reflexivity. Qed.

(** ** linear_trend *)

(** C2: on [0,2,4] the least-squares line has slope 2, intercept -2 and
    no residual, while the code divides the covariance by the variance of
    [x] and adds the intercept to the residuals: slope 1/2, intercept 1,
    rss 33/2.  On [2,3,4] the slope is right and the residuals still are
    not: rss 12 for a perfect fit. *)
Theorem linear_trend_not_ols :
  option_map XReal.red (slope (linear_trend (dense [0; 2; 4])))
    = Some (Fin (1 # 2))
  /\ Qred (Spec.ols_slope [0; 2; 4]) = 2
  /\ option_map XReal.red (intercept (linear_trend (dense [0; 2; 4])))
    = Some (Fin 1)
  /\ Qred (Spec.ols_intercept [0; 2; 4]) = - (2)
  /\ option_map XReal.red (rss (linear_trend (dense [0; 2; 4])))
    = Some (Fin (33 # 2))
  /\ Qred (Spec.ols_rss [0; 2; 4]) = 0
  /\ option_map XReal.red (slope (linear_trend (dense [2; 3; 4])))
    = Some (Fin 1)
  /\ option_map XReal.red (rss (linear_trend (dense [2; 3; 4])))
    = Some (Fin 12)
  /\ Qred (Spec.ols_rss [2; 3; 4]) = 0.
Proof. repeat split; vm_compute; reflexivity. Qed.

(** ** mean_second_derivative_central *)

Lemma getitem_nonneg {A : Type} (l : list A) (i : Z) (j : nat) (a : A) :
  i = Z.of_nat j ->
  nth_error l j = Some a -> getitem l i = Ok a.
Proof.
  intros -> Hj. unfold getitem.
  assert (Hlt : (j < length l)%nat) by (apply nth_error_Some; congruence).
  assert (Hneg : (Z.of_nat j <? 0)%Z = false) by (apply Z.ltb_ge; lia).
  assert (Hge : (Z.of_nat (length l) <=? Z.of_nat j)%Z = false)
    by (apply Z.leb_gt; lia).
  cbv zeta. rewrite !Hneg, Hge. cbn [orb].
  now rewrite Nat2Z.id, Hj.
Qed.

Lemma getitem_negative {A : Type} (l : list A) (i : Z) (k : nat) (a : A) :
  i = (- Z.of_nat k)%Z ->
  (0 < k <= length l)%nat ->
  nth_error l (length l - k) = Some a ->
  getitem l i = Ok a.
Proof.
  intros -> Hk Hj. unfold getitem.
  assert (Hneg : (- Z.of_nat k <? 0)%Z = true) by (apply Z.ltb_lt; lia).
  assert (Hlo : (Z.of_nat (length l) + - Z.of_nat k <? 0)%Z = false)
    by (apply Z.ltb_ge; lia).
  assert (Hhi : (Z.of_nat (length l)
                 <=? Z.of_nat (length l) + - Z.of_nat k)%Z = false)
    by (apply Z.leb_gt; lia).
  cbv zeta. rewrite !Hneg, Hlo, Hhi. cbn [orb].
  replace (Z.to_nat (Z.of_nat (length l) + - Z.of_nat k))
    with (length l - k)%nat by lia.
  now rewrite Hj.
Qed.

Lemma nth_error_dense (xs : list Q) (j : nat) :
  (j < length xs)%nat -> nth_error (dense xs) j = Some (Some (nth j xs 0)).
Proof.
  intros Hj. unfold dense.
  rewrite nth_error_map, (nth_error_nth' xs 0 Hj). reflexivity.
Qed.

Lemma length_dense (xs : list Q) : length (dense xs) = length xs.
Proof. apply length_map. Qed.

(** The formula, for more than two values. *)
Lemma mean_second_derivative_central_long (xs : list Q) :
  (2 < length xs)%nat ->
  mean_second_derivative_central (dense xs)
  = Ok ((nth (length xs - 1) xs 0 - nth (length xs - 2) xs 0
         - nth 1 xs 0 + nth 0 xs 0)
        / inject_Z (2 * (Z.of_nat (length xs) - 2))).
Proof.
  intros Hn. unfold mean_second_derivative_central, len.
  rewrite (getitem_negative (dense xs) (-1) 1
             (Some (nth (length xs - 1) xs 0)) eq_refl);
    rewrite ?length_dense; try lia; [| apply nth_error_dense; lia].
  cbn [bind].
  rewrite (getitem_negative (dense xs) (-2) 2
             (Some (nth (length xs - 2) xs 0)) eq_refl);
    rewrite ?length_dense; try lia; [| apply nth_error_dense; lia].
  cbn [bind py_sub].
  rewrite (getitem_nonneg (dense xs) 1 1 (Some (nth 1 xs 0)) eq_refl);
    [| apply nth_error_dense; lia].
  cbn [bind py_sub].
  rewrite (getitem_nonneg (dense xs) 0 0 (Some (nth 0 xs 0)) eq_refl);
    [| apply nth_error_dense; lia].
  cbn [bind py_add]. unfold py_truediv.
  destruct (2 * (Z.of_nat (length xs) - 2) =? 0)%Z eqn:Hz;
    [apply Z.eqb_eq in Hz; lia | reflexivity].
Qed.

(** Two values: the numerator is [x1 - x0 - x1 + x0] and the divisor is
    zero. *)
Lemma mean_second_derivative_central_two (a b : Q) :
  mean_second_derivative_central (dense [a; b]) = Raise ZeroDivisionError.
Proof. reflexivity. Qed.

(** Fewer than two values: an index is out of range. *)
Lemma mean_second_derivative_central_short (xs : list Q) :
  (length xs < 2)%nat ->
  mean_second_derivative_central (dense xs) = Raise IndexError.
Proof.
  destruct xs as [| a [| b xs]]; simpl; intros H; try lia; reflexivity.
Qed.

(** C4, as the code has it: for more than two values the descriptor
    returns [(x[n-1] - x[n-2] - x[1] + x[0]) / (2 (n - 2))]; nothing
    guards the shorter series, where it raises: ZeroDivisionError for two
    values, IndexError for fewer. *)
Theorem mean_second_derivative_central_spec (xs : list Q) :
  ((2 < length xs)%nat ->
   mean_second_derivative_central (dense xs)
   = Ok ((nth (length xs - 1) xs 0 - nth (length xs - 2) xs 0
          - nth 1 xs 0 + nth 0 xs 0)
         / inject_Z (2 * (Z.of_nat (length xs) - 2))))
  /\ (length xs = 2%nat ->
      mean_second_derivative_central (dense xs) = Raise ZeroDivisionError)
  /\ ((length xs < 2)%nat ->
      mean_second_derivative_central (dense xs) = Raise IndexError).
Proof.
  split; [| split].
  - apply mean_second_derivative_central_long.
  - destruct xs as [| a [| b [| c xs]]]; simpl; intros H; try lia.
    apply mean_second_derivative_central_two.
  - apply mean_second_derivative_central_short.
Qed.

(** The formula at [1,2,4,7], and the two failures. *)
Lemma mean_second_derivative_central_spec_witness :
  mean_second_derivative_central (dense [1; 2; 4; 7])
  = Ok ((7 - 4 - 2 + 1) / inject_Z (2 * (4 - 2)))
  /\ mean_second_derivative_central (dense [1; 2]) = Raise ZeroDivisionError
  /\ mean_second_derivative_central (dense [1]) = Raise IndexError.
Proof.
  split; [| split].
  - apply (proj1 (mean_second_derivative_central_spec [1; 2; 4; 7])).
    simpl; lia.
  - apply (proj1 (proj2 (mean_second_derivative_central_spec [1; 2]))).
    reflexivity.
  - apply (proj2 (proj2 (mean_second_derivative_central_spec [1]))).
    simpl; lia.
Defined.

(** C4, as stated, fails: two values are not guarded, the call raises. *)
Lemma mean_second_derivative_central_unguarded :
  raises (mean_second_derivative_central (dense [1; 2])) = true
  /\ raises (mean_second_derivative_central (dense [5])) = true
  /\ raises (mean_second_derivative_central (dense [])) = true.
Proof. repeat split. Qed.

(** ** autocorr *)

(** C6: at lag 0 the autocorrelation is exactly 1 for every series, and
    at every negative lag it is the missing value. *)
Theorem autocorr_lag_zero_and_negative (x : series) :
  autocorr x 0 = Ok (Some (Fin 1))
  /\ forall lag : Z, (lag < 0)%Z -> autocorr x lag = Ok None.
Proof.
  split; [reflexivity |].
  intros lag Hlag. unfold autocorr.
  destruct (lag <? 0)%Z eqn:E; [reflexivity |].
  apply Z.ltb_ge in E. lia.
Qed.

Lemma autocorr_lag_zero_and_negative_witness :
  autocorr (dense [1; 2; 3]) 0 = Ok (Some (Fin 1))
  /\ autocorr (dense [1; 2; 3]) (-2) = Ok None.
Proof.
  split.
  - apply (proj1 (autocorr_lag_zero_and_negative (dense [1; 2; 3]))).
  - apply (proj2 (autocorr_lag_zero_and_negative (dense [1; 2; 3])) (-2)%Z).
    lia.
Defined.

(** ** _get_length_sequences_where *)

Lemma filter_no_true {A : Type} (l : list A) (m : mask) :
  ~ In (Some true) m -> filter l m = [].
Proof.
  revert l. induction m as [| b m IH]; intros l Hm.
  - destruct l; reflexivity.
  - destruct l as [| c l]; [reflexivity |]. simpl.
    destruct b as [[|] |].
    + exfalso. apply Hm. now left.
    + apply IH. intros H. apply Hm. now right.
    + apply IH. intros H. apply Hm. now right.
Qed.

Lemma In_eq_1 (m : mask) : In (Some true) (eq_1 m) -> In (Some true) m.
Proof.
  unfold eq_1. rewrite in_map_iff. intros [c [Hc Hin]].
  destruct c as [[|] |]; simpl in Hc; try discriminate. exact Hin.
Qed.

Lemma get_length_sequences_where_empty (m : mask) :
  ~ In (Some true) m -> _get_length_sequences_where m = [].
Proof.
  intros Hm. unfold _get_length_sequences_where.
  rewrite filter_no_true; [reflexivity |].
  intros H. apply Hm, In_eq_1, H.
Qed.

(** C7: for a mask with no true value the code returns the empty
    sequence; the documented and claimed result is the one-element
    sequence [0]. *)
Theorem get_length_sequences_where_no_true (m : mask) :
  ~ In (Some true) m ->
  _get_length_sequences_where m = []
  /\ _get_length_sequences_where m <> [0%nat].
Proof.
  intros Hm. rewrite (get_length_sequences_where_empty m Hm).
  split; [reflexivity | discriminate].
Qed.

Lemma get_length_sequences_where_no_true_witness :
  _get_length_sequences_where [Some false; Some false; Some false] = []
  /\ _get_length_sequences_where [Some false; Some false; Some false]
     <> [0%nat].
Proof.
  apply (get_length_sequences_where_no_true
           [Some false; Some false; Some false]).
  intros [H | [H | [H | []]]]; discriminate H.
Defined.

(** ** longest_strike_below_mean, longest_strike_above_mean *)

Lemma list_max_le_sum (l : list nat) : (list_max l <= list_sum l)%nat.
Proof.
  induction l as [| a l IH]; simpl; [lia |]. lia.
Qed.

Section TallyFacts.

Context {K : Type} (eqb : K -> K -> bool).

Lemma bump_sum (k : K) (acc : list (K * nat)) :
  list_sum (map snd (bump eqb k acc)) = S (list_sum (map snd acc)).
Proof.
  induction acc as [| [j c] acc IH]; simpl; [reflexivity |].
  destruct (eqb j k); simpl; [reflexivity |]. rewrite IH. lia.
Qed.

Lemma fold_bump_sum (keys : list K) (acc : list (K * nat)) :
  list_sum (map snd (fold_left (fun a k => bump eqb k a) keys acc))
  = (list_sum (map snd acc) + length keys)%nat.
Proof.
  revert acc. induction keys as [| k keys IH]; intros acc; simpl; [lia |].
  rewrite IH, bump_sum. lia.
Qed.

Lemma tally_sum (keys : list K) :
  list_sum (map snd (tally eqb keys)) = length keys.
Proof. unfold tally. rewrite fold_bump_sum. reflexivity. Qed.

End TallyFacts.

Lemma filter_length_le {A : Type} (l : list A) (m : mask) :
  (length (filter l m) <= Spec.count_true m)%nat.
Proof.
  revert l. induction m as [| b m IH]; intros [| c l]; simpl; try lia.
  specialize (IH l). destruct b as [[|] |]; simpl; lia.
Qed.

Lemma count_true_eq_1 (m : mask) :
  Spec.count_true (eq_1 m) = Spec.count_true m.
Proof.
  induction m as [| [[|] |] m IH]; simpl; congruence.
Qed.

(** The longest run is at most the number of true cells of the mask. *)
Lemma get_length_sequences_where_max (m : mask) :
  (list_max (_get_length_sequences_where m) <= Spec.count_true m)%nat.
Proof.
  unfold _get_length_sequences_where.
  eapply Nat.le_trans; [apply list_max_le_sum |].
  rewrite tally_sum.
  eapply Nat.le_trans; [apply filter_length_le |].
  rewrite count_true_eq_1. lia.
Qed.

Lemma Qlt_bool_asym (a b : Q) :
  Qlt_bool a b = true -> Qlt_bool b a = false.
Proof.
  unfold Qlt_bool. intros H.
  apply negb_true_iff in H. apply negb_false_iff.
  destruct (Qle_bool a b) eqn:E; [reflexivity |].
  exfalso.
  assert (Hba : ~ b <= a)
    by (intros Hle; apply Qle_bool_iff in Hle; congruence).
  assert (Hab : ~ a <= b)
    by (intros Hle; apply Qle_bool_iff in Hle; congruence).
  apply Qnot_le_lt in Hba. apply Qnot_le_lt in Hab.
  apply (Qlt_irrefl a). now apply Qlt_trans with b.
Qed.

Lemma XReal_ltb_asym (a b : xreal) :
  XReal.ltb a b = true -> XReal.ltb b a = false.
Proof.
  destruct a as [p | | |], b as [q | | |]; simpl; intros H;
    try reflexivity; try discriminate H.
  now apply Qlt_bool_asym.
Qed.

(** No cell is both below and above the threshold. *)
Lemma lt_gt_disjoint (x : series) (t : scalar) (i : nat) :
  nth_error (lt_f64 x t) i = Some (Some true) ->
  nth_error (gt_f64 x t) i <> Some (Some true).
Proof.
  unfold lt_f64, gt_f64. rewrite !nth_error_map.
  destruct (@nth_error (option Q) x i) as [c |]; cbn [option_map];
    [| intros H; discriminate H].
  destruct c as [v |], t as [w |]; cbn [option_map lift2]; intros H;
    try discriminate H.
  assert (E : XReal.ltb (Fin v) w = true) by (injection H as H; exact H).
  rewrite (XReal_ltb_asym _ _ E). discriminate.
Qed.

Lemma count_true_lt_gt (x : series) (t : scalar) :
  (Spec.count_true (lt_f64 x t) + Spec.count_true (gt_f64 x t)
   <= length x)%nat.
Proof.
  induction x as [| c x IH]; [simpl; lia |].
  change (lt_f64 (c :: x) t)
    with (lift2 XReal.ltb (option_map Fin c) t :: lt_f64 x t).
  change (gt_f64 (c :: x) t)
    with (lift2 XReal.ltb t (option_map Fin c) :: gt_f64 x t).
  set (L := lt_f64 x t) in *. set (G := gt_f64 x t) in *. clearbody L G.
  destruct c as [v |], t as [w |];
    cbn [option_map lift2 Spec.count_true length]; try lia.
  destruct (XReal.ltb (Fin v) w) eqn:E.
  - rewrite (XReal_ltb_asym _ _ E). lia.
  - destruct (XReal.ltb w (Fin v)); lia.
Qed.

(** With a value in the series the mean is there and the comparison
    returns its mask. *)
Lemma mean_f64_some `{Float64Mean} (x : series) :
  drop_nulls x <> [] -> exists m : xreal, mean_f64 x = Some m.
Proof.
  unfold mean_f64. destruct (drop_nulls x) as [| v l]; [congruence |].
  intros _. now eexists.
Qed.

Lemma longest_strike_below_value `{Float64Mean} (x : series) (m : xreal) :
  mean_f64 x = Some m ->
  longest_strike_below_mean x
  = Ok (list_max (_get_length_sequences_where (lt_f64 x (Some m)))).
Proof.
  intros Hm. unfold longest_strike_below_mean. rewrite Hm. cbn [series_lt bind].
  now destruct (_get_length_sequences_where (lt_f64 x (Some m))).
Qed.

Lemma longest_strike_above_value `{Float64Mean} (x : series) (m : xreal) :
  mean_f64 x = Some m ->
  longest_strike_above_mean x
  = Ok (list_max (_get_length_sequences_where (gt_f64 x (Some m)))).
Proof.
  intros Hm. unfold longest_strike_above_mean. rewrite Hm. cbn [series_gt bind].
  now destruct (_get_length_sequences_where (gt_f64 x (Some m))).
Qed.

(** C8, as the code has it: on a series with at least one value, and
    whatever Float64 the library returns for its mean, the two longest
    strikes together never exceed the length of the series; no position
    is both below and above that mean; and a descriptor whose condition
    holds nowhere returns 0. *)
Theorem longest_strikes_bound `{Float64Mean} (x : series) :
  drop_nulls x <> [] ->
  exists a b : nat,
    longest_strike_below_mean x = Ok a
    /\ longest_strike_above_mean x = Ok b
    /\ (a + b <= len x)%nat
    /\ (forall i : nat,
           nth_error (lt_f64 x (mean_f64 x)) i = Some (Some true) ->
           nth_error (gt_f64 x (mean_f64 x)) i <> Some (Some true))
    /\ (~ In (Some true) (lt_f64 x (mean_f64 x)) -> a = 0%nat)
    /\ (~ In (Some true) (gt_f64 x (mean_f64 x)) -> b = 0%nat).
Proof.
  intros Hx. destruct (mean_f64_some x Hx) as [m Hm].
  rewrite (longest_strike_below_value x m Hm).
  rewrite (longest_strike_above_value x m Hm). rewrite Hm.
  do 2 eexists. split; [reflexivity |]. split; [reflexivity |].
  split; [| split; [| split]].
  - pose proof (get_length_sequences_where_max (lt_f64 x (Some m))).
    pose proof (get_length_sequences_where_max (gt_f64 x (Some m))).
    pose proof (count_true_lt_gt x (Some m)). unfold len. lia.
  - apply lt_gt_disjoint.
  - intros Hn. now rewrite (get_length_sequences_where_empty _ Hn).
  - intros Hn. now rewrite (get_length_sequences_where_empty _ Hn).
Qed.

(** On [1,1,5,1,9], with the mean 17/5 taken without rounding. *)
Lemma longest_strikes_bound_witness :
  exists a b : nat,
    longest_strike_below_mean (dense [1; 1; 5; 1; 9]%Q) = Ok a
    /\ longest_strike_above_mean (dense [1; 1; 5; 1; 9]%Q) = Ok b
    /\ (a + b <= 5)%nat
    /\ (forall i : nat,
           nth_error (lt_f64 (dense [1; 1; 5; 1; 9]%Q)
                             (mean_f64 (dense [1; 1; 5; 1; 9]%Q))) i
           = Some (Some true) ->
           nth_error (gt_f64 (dense [1; 1; 5; 1; 9]%Q)
                             (mean_f64 (dense [1; 1; 5; 1; 9]%Q))) i
           <> Some (Some true))
    /\ (~ In (Some true)
             (lt_f64 (dense [1; 1; 5; 1; 9]%Q)
                     (mean_f64 (dense [1; 1; 5; 1; 9]%Q))) -> a = 0%nat)
    /\ (~ In (Some true)
             (gt_f64 (dense [1; 1; 5; 1; 9]%Q)
                     (mean_f64 (dense [1; 1; 5; 1; 9]%Q))) -> b = 0%nat).
Proof.
  apply (longest_strikes_bound (dense [1; 1; 5; 1; 9])).
  discriminate.
Defined.

(** C8, as stated, fails on a series with no value: its mean is [None],
    the comparison of the Series with [None] raises TypeError, and no
    strike is returned, be the series empty or made of missing cells. *)
Lemma longest_strikes_of_no_value :
  longest_strike_below_mean [] = Raise TypeError
  /\ longest_strike_above_mean [] = Raise TypeError
  /\ longest_strike_below_mean [None; None] = Raise TypeError
  /\ longest_strike_above_mean [None; None] = Raise TypeError.
Proof. repeat split. Qed.

(** ** Constant series: var_greater_than_std and symmetry_looking *)

Lemma Qlt_bool_true_iff (a b : Q) : Qlt_bool a b = true <-> a < b.
Proof.
  unfold Qlt_bool. rewrite negb_true_iff. split.
  - intros H. apply Qnot_le_lt. intros Hle.
    apply Qle_bool_iff in Hle. congruence.
  - intros H. destruct (Qle_bool b a) eqn:E; [| reflexivity].
    apply Qle_bool_iff in E. exfalso. apply (Qlt_not_le _ _ H E).
Qed.

Lemma Qlt_bool_false_iff (a b : Q) : Qlt_bool a b = false <-> b <= a.
Proof.
  unfold Qlt_bool. rewrite negb_false_iff. apply Qle_bool_iff.
Qed.

Lemma drop_nulls_dense (xs : list Q) : drop_nulls (dense xs) = xs.
Proof. induction xs as [| a xs IH]; simpl; congruence. Qed.

Lemma Qsum_repeat (c : Q) (n : nat) : Qsum (repeat c n) == Qnat n * c.
Proof.
  induction n as [| n IH].
  - unfold Qnat. simpl. ring.
  - change (Qsum (repeat c (S n))) with (c + Qsum (repeat c n)).
    rewrite IH. unfold Qnat. rewrite Nat2Z.inj_succ, <- Z.add_1_r.
    rewrite inject_Z_plus. ring.
Qed.

Lemma Qnat_pos (n : nat) : (0 < n)%nat -> 0 < Qnat n.
Proof.
  intros H. unfold Qnat. change 0 with (inject_Z 0).
  rewrite <- Zlt_Qlt. lia.
Qed.

Lemma Qsum_all_zero (l : list Q) :
  Forall (fun v => v == 0) l -> Qsum l == 0.
Proof.
  induction 1 as [| v l Hv _ IH]; simpl; [reflexivity |].
  rewrite Hv, IH. ring.
Qed.

(** The mean of a constant series is the constant. *)
Lemma mean_constant (c : Q) (n : nat) :
  (0 < n)%nat ->
  exists m : Q, mean (dense (repeat c n)) = Some m /\ m == c.
Proof.
  intros Hn. unfold mean. rewrite drop_nulls_dense.
  destruct n as [| n]; [lia |].
  change (repeat c (S n)) with (c :: repeat c n).
  eexists. split; [reflexivity |].
  change (c :: repeat c n) with (repeat c (S n)).
  rewrite Qsum_repeat, repeat_length.
  field. intros H. pose proof (Qnat_pos (S n) Hn) as Hp.
  rewrite H in Hp. now apply Qlt_irrefl in Hp.
Qed.

(** Its population variance is zero. *)
Lemma var_constant (c : Q) (n : nat) :
  (0 < n)%nat ->
  exists y : Q, var 0 (dense (repeat c n)) = Some y /\ y == 0.
Proof.
  intros Hn. unfold var.
  destruct (mean_constant c n Hn) as [m [Hm Hmc]]. rewrite Hm.
  rewrite drop_nulls_dense, repeat_length.
  destruct (n <=? 0)%nat eqn:E; [apply Nat.leb_le in E; lia |].
  eexists. split; [reflexivity |].
  rewrite Qsum_all_zero.
  - unfold Qdiv. ring.
  - apply Forall_forall. intros v Hv. apply in_map_iff in Hv.
    destruct Hv as [a [<- Ha]]. apply repeat_spec in Ha. subst a.
    rewrite Hmc. ring.
Qed.

(** [gt_sqrt] is the comparison with the real square root. *)
Lemma gt_sqrt_real (a b : Q) :
  0 <= b -> (gt_sqrt a b = true <-> (R_sqrt.sqrt (Q2R b) < Q2R a)%R).
Proof.
  intros Hb. unfold gt_sqrt.
  assert (Hb0 : Qlt_bool b 0 = false) by now apply Qlt_bool_false_iff.
  rewrite Hb0, andb_true_iff, !Qlt_bool_true_iff.
  assert (HbR : (0 <= Q2R b)%R).
  { replace 0%R with (Q2R 0) by (unfold Q2R; simpl; Lra.lra).
    now apply Qle_Rle. }
  split.
  - intros [Ha Hlt]. apply Qlt_Rlt in Ha, Hlt.
    replace (Q2R 0) with 0%R in Ha by (unfold Q2R; simpl; Lra.lra).
    rewrite Q2R_mult in Hlt.
    rewrite <- (sqrt_square (Q2R a)) by Lra.lra.
    apply sqrt_lt_1_alt. Lra.lra.
  - intros Hlt. pose proof (sqrt_pos (Q2R b)) as Hs.
    split.
    + apply Rlt_Qlt.
      replace (Q2R 0) with 0%R by (unfold Q2R; simpl; Lra.lra). Lra.lra.
    + apply Rlt_Qlt. rewrite Q2R_mult.
      rewrite <- (sqrt_sqrt (Q2R b) HbR) at 1.
      apply Rmult_le_0_lt_compat; Lra.lra.
Qed.

Lemma gt_sqrt_zero (y : Q) : y == 0 -> gt_sqrt y y = false.
Proof.
  intros Hy. unfold gt_sqrt.
  destruct (Qlt_bool y 0); [reflexivity |].
  replace (Qlt_bool 0 y) with false; [reflexivity |].
  symmetry. apply Qlt_bool_false_iff. rewrite Hy. apply Qle_refl.
Qed.

Lemma Qinsert_nonempty (v : Q) (l : list Q) : Qinsert v l <> [].
Proof. destruct l as [| w l]; simpl; [| destruct (Qle_bool v w)]; discriminate. Qed.

Lemma Qsort_nonempty (l : list Q) : l <> [] -> Qsort l <> [].
Proof.
  destruct l as [| a l]; [congruence |]. intros _.
  unfold Qsort. simpl. apply Qinsert_nonempty.
Qed.

(** A quantile in range of a series with a value is a value. *)
Lemma quantile_some (x : series) (q : Q) :
  drop_nulls x <> [] -> 0 <= q -> q <= 1 ->
  exists a : Q, quantile x q = Ok (Some a).
Proof.
  intros Hx H0 H1. unfold quantile.
  apply Qle_bool_iff in H0. apply Qle_bool_iff in H1. rewrite H0, H1.
  cbn [andb].
  pose proof (Qsort_nonempty _ Hx) as Hs.
  destruct (Qsort (drop_nulls x)) as [| s0 s]; [congruence |].
  destruct (Qceiling _ =? Qfloor _)%Z; eexists; reflexivity.
Qed.

Lemma Qmaximum_repeat (c : Q) (n : nat) :
  Qmaximum (repeat c (S n)) = Some c.
Proof.
  induction n as [| n IH]; [reflexivity |].
  change (repeat c (S (S n))) with (c :: repeat c (S n)).
  cbn [Qmaximum]. rewrite IH. now destruct (Qle_bool c c).
Qed.

Lemma Qminimum_repeat (c : Q) (n : nat) :
  Qminimum (repeat c (S n)) = Some c.
Proof.
  induction n as [| n IH]; [reflexivity |].
  change (repeat c (S (S n))) with (c :: repeat c (S n)).
  cbn [Qminimum]. rewrite IH. now destruct (Qle_bool c c).
Qed.

(** C5, as the code has it: a non-empty constant series has
    [var_greater_than_std] false, and [symmetry_looking] false as well,
    for every [r] handed over under the key ["r"]: the comparison
    [|mean - median| < r * (max - min)] is strict and its right side is
    zero. *)
Theorem constant_series_descriptors (c : Q) (n : nat) (r : Q) :
  (0 < n)%nat ->
  var_greater_than_std (dense (repeat c n)) = Some false
  /\ symmetry_looking (dense (repeat c n)) (PyDict [("r"%string, r)])
     = Ok false.
Proof.
  intros Hn. split.
  - unfold var_greater_than_std.
    destruct (var_constant c n Hn) as [y [Hy Hy0]]. rewrite Hy.
    now rewrite gt_sqrt_zero.
  - unfold symmetry_looking.
    destruct (mean_constant c n Hn) as [m [Hm _]]. rewrite Hm.
    destruct (quantile_some (dense (repeat c n)) (1 # 2)) as [a Ha].
    + rewrite drop_nulls_dense. destruct n; [lia | discriminate].
    + discriminate.
    + discriminate.
    + unfold median. rewrite Ha. cbn [py_sub bind].
      unfold max, min. rewrite drop_nulls_dense.
      destruct n as [| n]; [lia |].
      rewrite Qmaximum_repeat, Qminimum_repeat.
      cbn [py_sub bind subscript dict_get]. rewrite String.eqb_refl.
      cbn [bind]. f_equal. apply Qlt_bool_false_iff.
      setoid_replace (r * (c - c)) with 0 by ring.
      apply Qabs_nonneg.
Qed.

Lemma constant_series_descriptors_witness :
  var_greater_than_std (dense (repeat 3 4)) = Some false
  /\ symmetry_looking (dense (repeat 3 4)) (PyDict [("r"%string, 1 # 2)])
     = Ok false.
Proof. apply (constant_series_descriptors 3 4 (1 # 2)). lia. Defined.

(** C5, as stated, fails: on the constant series [3,3,3] with [r = 1]
    the comparison is [0 < 1 * 0] and [symmetry_looking] is false. *)
Lemma symmetry_looking_constant_false :
  symmetry_looking (dense [3; 3; 3]) (PyDict [("r"%string, 1)]) = Ok false.
Proof. vm_compute. reflexivity. Qed.

(** ** count_below, count_above *)

Lemma filter_le_dense (xs : list Q) (t : Q) :
  length (filter (dense xs) (le (dense xs) (Some t)))
  = length (List.filter (fun v => Qle_bool v t) xs).
Proof.
  induction xs as [| v xs IH]; simpl; [reflexivity |].
  destruct (Qle_bool v t); simpl; now rewrite IH.
Qed.

Lemma filter_ge_dense (xs : list Q) (t : Q) :
  length (filter (dense xs) (ge (dense xs) (Some t)))
  = length (List.filter (fun v => Qle_bool t v) xs).
Proof.
  induction xs as [| v xs IH]; simpl; [reflexivity |].
  destruct (Qle_bool t v); simpl; now rewrite IH.
Qed.

(** Every value is counted once, and those equal to [t] twice. *)
Lemma le_ge_counts (xs : list Q) (t : Q) :
  (length (List.filter (fun v => Qle_bool v t) xs)
   + length (List.filter (fun v => Qle_bool t v) xs)
   = length xs + length (List.filter (fun v => Qeq_bool v t) xs))%nat.
Proof.
  induction xs as [| v xs IH]; simpl; [reflexivity |].
  destruct (Qle_bool v t) eqn:Hle, (Qle_bool t v) eqn:Hge,
           (Qeq_bool v t) eqn:Heq; simpl; try lia; exfalso.
  - apply Qle_bool_iff in Hle, Hge.
    pose proof (Qle_antisym _ _ Hle Hge) as H.
    apply Qeq_bool_iff in H. congruence.
  - apply Qeq_bool_iff in Heq.
    assert (H : t <= v) by (rewrite Heq; apply Qle_refl).
    apply Qle_bool_iff in H. congruence.
  - apply Qeq_bool_iff in Heq.
    assert (H : v <= t) by (rewrite Heq; apply Qle_refl).
    apply Qle_bool_iff in H. congruence.
  - apply Qeq_bool_iff in Heq.
    assert (H : v <= t) by (rewrite Heq; apply Qle_refl).
    apply Qle_bool_iff in H. congruence.
  - destruct (Qlt_le_dec v t) as [H | H].
    + apply Qlt_le_weak, Qle_bool_iff in H. congruence.
    + apply Qle_bool_iff in H. congruence.
Qed.

Lemma filter_eq_empty_iff (xs : list Q) (t : Q) :
  length (List.filter (fun v => Qeq_bool v t) xs) = 0%nat
  <-> forall v : Q, In v xs -> ~ v == t.
Proof.
  induction xs as [| a xs IH]; simpl.
  - split; [intros _ v [] | reflexivity].
  - destruct (Qeq_bool a t) eqn:E; simpl.
    + split; [discriminate |]. intros H. exfalso.
      apply (H a); [now left | now apply Qeq_bool_iff].
    + rewrite IH. split.
      * intros H v [<- | Hv]; [| now apply H].
        intros Hat. apply Qeq_bool_iff in Hat. congruence.
      * intros H v Hv. apply H. now right.
Qed.

Lemma dense_of_no_null (x : series) :
  ~ In None x -> x = dense (drop_nulls x).
Proof.
  induction x as [| [v |] x IH]; simpl; intros H.
  - reflexivity.
  - f_equal. apply IH. intros Hin. apply H. now right.
  - exfalso. apply H. now left.
Qed.

Lemma Qnat_plus (a b : nat) : Qnat (a + b) == Qnat a + Qnat b.
Proof. unfold Qnat. now rewrite Nat2Z.inj_add, inject_Z_plus. Qed.

Lemma Qnat_nonneg (n : nat) : 0 <= Qnat n.
Proof.
  unfold Qnat. change 0 with (inject_Z 0). rewrite <- Zle_Qle. lia.
Qed.

Lemma Qnat_zero_iff (n : nat) : Qnat n == 0 <-> n = 0%nat.
Proof.
  unfold Qnat. change 0 with (inject_Z 0). rewrite inject_Z_injective. lia.
Qed.

(** The percentage of a count, in exact arithmetic. *)
Lemma percent_exact (k n : nat) :
  (0 < n)%nat ->
  fmul (fdiv (of_int (Z.of_nat k)) (of_int (Z.of_nat n))) (of_int 100)
  = Fin (Qnat k / Qnat n * inject_Z 100).
Proof.
  intros Hn. cbn [fmul fdiv of_int exact_float XReal.div].
  fold (Qnat n). fold (Qnat k).
  destruct (Qeq_bool (Qnat n) 0) eqn:E; [| reflexivity].
  apply Qeq_bool_iff, Qnat_zero_iff in E. lia.
Qed.

(** C10, in exact arithmetic: for a non-empty series without missing
    values the two percentages are finite, their sum is at least 100, and
    it is 100 exactly when no value equals the threshold. *)
Theorem count_below_above_exact (x : series) (t : Q) :
  x <> [] -> ~ In None x ->
  exists p q : Q,
    count_below x t = Fin p /\ count_above x t = Fin q
    /\ 100 <= p + q
    /\ (p + q == 100 <-> forall v : Q, In (Some v) x -> ~ v == t).
Proof.
  intros Hne Hnull.
  pose proof (dense_of_no_null x Hnull) as Hx.
  set (xs := drop_nulls x) in Hx. clearbody xs. subst x. clear Hnull.
  assert (Hn : (0 < length xs)%nat)
    by (destruct xs; [now elim Hne | simpl; lia]).
  unfold count_below, count_above, count.
  rewrite filter_le_dense, filter_ge_dense, length_dense.
  rewrite !percent_exact by exact Hn.
  do 2 eexists. split; [reflexivity |]. split; [reflexivity |].
  pose proof (le_ge_counts xs t) as Hc.
  set (a := length (List.filter (fun v => Qle_bool v t) xs)) in *.
  set (b := length (List.filter (fun v => Qle_bool t v) xs)) in *.
  pose proof (filter_eq_empty_iff xs t) as Hk.
  set (k := length (List.filter (fun v => Qeq_bool v t) xs)) in *.
  pose proof (Qnat_pos _ Hn) as Hpos.
  assert (Hnz : ~ Qnat (length xs) == 0)
    by (intros H; rewrite H in Hpos; now apply Qlt_irrefl in Hpos).
  assert (Hsum : Qnat a / Qnat (length xs) * inject_Z 100
                 + Qnat b / Qnat (length xs) * inject_Z 100
                 == 100 + 100 * (Qnat k / Qnat (length xs))).
  { assert (Hab : Qnat a + Qnat b == Qnat (length xs) + Qnat k)
      by (rewrite <- !Qnat_plus, Hc; reflexivity).
    setoid_replace (Qnat a / Qnat (length xs) * inject_Z 100
                    + Qnat b / Qnat (length xs) * inject_Z 100)
      with ((Qnat a + Qnat b) / Qnat (length xs) * 100)
      by (change (inject_Z 100) with 100; field; exact Hnz).
    rewrite Hab. field. exact Hnz. }
  assert (Hfrac : 0 <= Qnat k / Qnat (length xs)).
  { apply Qle_shift_div_l; [exact Hpos |].
    setoid_replace (0 * Qnat (length xs)) with 0 by ring.
    apply Qnat_nonneg. }
  split.
  - rewrite Hsum.
    setoid_replace 100 with (100 + 100 * 0) at 1 by ring.
    apply Qplus_le_r. apply Qmult_le_l; [reflexivity | exact Hfrac].
  - assert (Hin : (forall v : Q, In (Some v) (dense xs) -> ~ v == t)
                  <-> (forall v : Q, In v xs -> ~ v == t)).
    { split; intros H v Hv; apply H.
      - unfold dense. apply in_map_iff. now exists v.
      - unfold dense in Hv. apply in_map_iff in Hv.
        destruct Hv as [w [Hw Hv]]. now injection Hw as ->. }
    rewrite Hsum, Hin, <- Hk. split.
    + intros H.
      assert (Hz : Qnat k / Qnat (length xs) == 0).
      { apply (Qmult_inj_l _ _ 100); [discriminate |].
        apply (Qplus_inj_l _ _ 100). rewrite H. ring. }
      apply Qnat_zero_iff.
      setoid_replace (Qnat k)
        with (Qnat k / Qnat (length xs) * Qnat (length xs))
        by (field; exact Hnz).
      rewrite Hz. ring.
    + intros H. rewrite H. unfold Qnat. simpl Z.of_nat.
      change (inject_Z 0) with 0. field. exact Hnz.
Qed.

Lemma count_below_above_exact_witness :
  exists p q : Q,
    count_below (dense [1; 2; 3]) (3 # 2) = Fin p
    /\ count_above (dense [1; 2; 3]) (3 # 2) = Fin q
    /\ 100 <= p + q
    /\ (p + q == 100
        <-> forall v : Q, In (Some v) (dense [1; 2; 3]) -> ~ v == 3 # 2).
Proof.
  apply (count_below_above_exact (dense [1; 2; 3]) (3 # 2)).
  - discriminate.
  - intros [H | [H | [H | []]]]; discriminate H.
Defined.

(** C10, as stated, fails on the Float64 results: each percentage is
    rounded.  For [1,2,3] and the threshold 3/2 the two results add up to
    less than 100; for [1,...,11] and the threshold 5/2 they add up to
    more than 100 although no value equals the threshold. *)
Lemma count_below_above_binary64 :
  fltb (fadd (count_below (F := PrimFloat.float) (dense [1; 2; 3]) (3 # 2))
             (count_above (F := PrimFloat.float) (dense [1; 2; 3]) (3 # 2)))
       (of_int 100)
  = true
  /\ fltb (of_int 100)
          (fadd (count_below (F := PrimFloat.float)
                   (dense [1; 2; 3; 4; 5; 6; 7; 8; 9; 10; 11]) (5 # 2))
                (count_above (F := PrimFloat.float)
                   (dense [1; 2; 3; 4; 5; 6; 7; 8; 9; 10; 11]) (5 # 2)))
     = true.
Proof. split; vm_compute; reflexivity. Qed.

(** ** change_quantiles *)

Lemma zip_with_firstn {A B C : Type} (f : A -> B -> C)
      (a : list A) (b : list B) :
  zip_with f a (firstn (length a) b) = zip_with f a b.
Proof.
  revert b. induction a as [| u a IH]; intros [| v b]; simpl;
    try reflexivity.
  now rewrite IH.
Qed.

Lemma zip_with_dense (f : Q -> Q -> Q) (a b : list Q) :
  zip_with (lift2 f) (dense a) (dense b) = dense (zip_with f a b).
Proof.
  revert b. induction a as [| u a IH]; intros [| v b]; simpl;
    try reflexivity.
  now rewrite IH.
Qed.

(** The differences of a series without missing values: a missing first
    cell, then the successive changes. *)
Lemma diff_dense (a : Q) (xs : list Q) :
  diff (dense (a :: xs)) = None :: dense (Spec.changes (a :: xs)).
Proof.
  unfold diff, shift, shift_and_fill.
  change (0 <=? 1)%Z with true. cbv iota.
  change (repeat None (Z.to_nat 1) ++ dense (a :: xs))
    with (@None Q :: dense (a :: xs)).
  rewrite zip_with_firstn.
  change (dense (a :: xs)) with (Some a :: dense xs) at 1.
  cbn [zip_with lift2]. f_equal.
  change (Some a :: dense xs) with (dense (a :: xs)).
  now rewrite zip_with_dense.
Qed.

Lemma abs_dense (c : list Q) : abs (dense c) = dense (map Qabs c).
Proof. unfold abs, dense. now rewrite !map_map. Qed.

Lemma and3_bool (a b : bool) : and3 (Some a) (Some b) = Some (a && b).
Proof. now destruct a, b. Qed.

Lemma is_between_dense (c : list Q) (lo hi : Q) :
  is_between (dense c) (Some lo) (Some hi)
  = map (fun v => Some (Qle_bool lo v && Qle_bool v hi)) c.
Proof.
  unfold is_between, and_, ge, le.
  induction c as [| v c IH]; [reflexivity |].
  cbn [dense map zip_with lift2]. rewrite and3_bool. f_equal. exact IH.
Qed.

Lemma is_between_missing (x : series) :
  ~ In (Some true) (is_between x None None).
Proof.
  unfold is_between, and_, ge, le.
  induction x as [| c x IH]; simpl; [tauto |].
  intros [H | H]; [| now apply IH].
  destruct c; discriminate H.
Qed.

Lemma and_no_true_l (a b : mask) :
  ~ In (Some true) a -> ~ In (Some true) (and_ a b).
Proof.
  unfold and_. revert b.
  induction a as [| u a IH]; intros [| v b] Ha; simpl; try tauto.
  intros [H | H].
  - apply Ha. left. destruct u as [[|] |], v as [[|] |]; try discriminate H.
    reflexivity.
  - apply (IH b); [| exact H]. intros Hin. apply Ha. now right.
Qed.

Section Corridor.

Variable inside : Q -> bool.

Let inside_mask (c : list Q) : mask := map (fun v => Some (inside v)) c.

(** The mask of a change and its predecessor, once the predecessor is
    known. *)
Lemma filter_pairs (c : list Q) (prev : Q) :
  filter (dense c)
         (zip_with and3 (inside_mask c) (Some (inside prev) :: inside_mask c))
  = dense (Spec.corridor_pairs inside prev c).
Proof.
  revert prev. induction c as [| d c IH]; intros prev; [reflexivity |].
  cbn [inside_mask map dense zip_with filter Spec.corridor_pairs].
  rewrite and3_bool.
  fold (inside_mask c). fold (dense c). rewrite IH.
  rewrite andb_comm. now destruct (inside prev && inside d).
Qed.

(** The first change has a missing predecessor and is never kept. *)
Lemma filter_pairs_first (d : Q) (c : list Q) :
  filter (dense (d :: c))
         (zip_with and3 (inside_mask (d :: c)) (None :: inside_mask (d :: c)))
  = dense (Spec.corridor_pairs inside d c).
Proof.
  cbn [inside_mask map dense zip_with filter].
  fold (inside_mask c). fold (dense c). rewrite filter_pairs.
  now destruct (inside d).
Qed.

End Corridor.

(** What [change_quantiles] keeps of the differences [None :: dense c],
    given the two ends of the corridor. *)
Lemma change_quantiles_filter (c : list Q) (lo hi : Q) :
  let x := None :: dense c in
  let inside := is_between x (Some lo) (Some hi) in
  filter x (and_ inside (shift_and_fill (Some false) 1 inside))
  = dense (match c with
           | [] => []
           | d :: c' =>
               Spec.corridor_pairs
                 (fun v => Qle_bool lo v && Qle_bool v hi) d c'
           end).
Proof.
  cbv zeta.
  change (is_between (None :: dense c) (Some lo) (Some hi))
    with (@None bool :: is_between (dense c) (Some lo) (Some hi)).
  rewrite is_between_dense.
  set (I := map (fun v => Some (Qle_bool lo v && Qle_bool v hi)) c).
  unfold shift_and_fill. change (0 <=? 1)%Z with true. cbv iota.
  change (repeat (Some false) (Z.to_nat 1) ++ None :: I)
    with (Some false :: None :: I).
  unfold and_. rewrite zip_with_firstn.
  cbn [zip_with and3 filter].
  destruct c as [| d c']; [reflexivity |].
  subst I. apply filter_pairs_first.
Qed.

Lemma quantile_none (x : series) (q : Q) :
  drop_nulls x = [] -> 0 <= q -> q <= 1 -> quantile x q = Ok None.
Proof.
  intros Hx H0 H1. unfold quantile.
  apply Qle_bool_iff in H0. apply Qle_bool_iff in H1.
  now rewrite H0, H1, Hx.
Qed.

(** What [change_quantiles] returns on a series without missing values:
    in order, the successive differences (their absolute values when
    [is_abs], the signed differences otherwise) which lie, together with
    the difference before them, between the quantiles [ql] and [qh] of
    that series of differences; the series is empty when no pair
    qualifies. *)
Theorem change_quantiles_corridor (xs : list Q) (ql qh : Q) (is_abs : bool) :
  0 <= ql -> ql <= 1 -> 0 <= qh -> qh <= 1 ->
  change_quantiles (dense xs) ql qh is_abs
  = Ok (dense (Spec.corridor_changes xs ql qh is_abs)).
Proof.
  intros Hl0 Hl1 Hh0 Hh1.
  unfold change_quantiles, Spec.corridor_changes.
  destruct xs as [| a xs].
  - change (diff (dense [])) with (@nil cell).
    replace (if is_abs then abs [] else []) with (@nil cell)
      by now destruct is_abs.
    rewrite !(quantile_none []) by (assumption || reflexivity).
    cbn [bind Spec.changes tl zip_with].
    replace (if is_abs then map Qabs [] else []) with (@nil Q)
      by now destruct is_abs.
    change (dense []) with (@nil cell).
    rewrite !(quantile_none []) by (assumption || reflexivity).
    reflexivity.
  - rewrite diff_dense.
    set (c := Spec.changes (a :: xs)).
    set (c' := if is_abs then map Qabs c else c).
    replace (if is_abs then abs (None :: dense c) else None :: dense c)
      with (None :: dense c').
    2:{ subst c'. destruct is_abs; [| reflexivity].
        unfold abs. cbn [map option_map]. f_equal. symmetry. apply abs_dense. }
    change (quantile (None :: dense c') ql) with (quantile (dense c') ql).
    change (quantile (None :: dense c') qh) with (quantile (dense c') qh).
    destruct c' as [| d0 cr] eqn:Ec.
    + change (dense []) with (@nil cell).
      rewrite !(quantile_none []) by (assumption || reflexivity).
      reflexivity.
    + destruct (quantile_some (dense (d0 :: cr)) ql) as [lo Hlo];
        [rewrite drop_nulls_dense; discriminate | assumption | assumption |].
      destruct (quantile_some (dense (d0 :: cr)) qh) as [hi Hhi];
        [rewrite drop_nulls_dense; discriminate | assumption | assumption |].
      rewrite Hlo, Hhi. cbn [bind]. f_equal.
      apply (change_quantiles_filter (d0 :: cr) lo hi).
Qed.

Lemma change_quantiles_corridor_witness :
  change_quantiles (dense [1; 2; 4; 7; 5; 6]) (1 # 4) (3 # 4) true
  = Ok (dense (Spec.corridor_changes [1; 2; 4; 7; 5; 6] (1 # 4) (3 # 4) true)).
Proof.
  apply (change_quantiles_corridor [1; 2; 4; 7; 5; 6] (1 # 4) (3 # 4) true);
    discriminate.
Defined.

(** C3: the docstring has [change_quantiles] calculate the average of the
    changes inside the corridor, and so does the claim; the code returns
    the changes themselves, not aggregated.  On [1,2,4,7] with the whole
    range as corridor the result is the series of the two changes [2,3],
    where the average would be 5/2; on [7,4,2,1] it is [-2,-1]. *)
Lemma change_quantiles_is_a_series :
  change_quantiles (dense [1; 2; 4; 7]) 0 1 false = Ok [Some 2; Some 3]
  /\ change_quantiles (dense [7; 4; 2; 1]) 0 1 false
     = Ok [Some (- (2)); Some (- (1))].
Proof. split; vm_compute; reflexivity. Qed.

(** ** fit, X_reduced and fit_transform *)

Section ReducerFacts.

Import Table Reducer.

Context {C FC DR PCA E K : Type}.
Variable X_features_attr : FC -> option (table C).
Variable fc_calculate_features : FC -> table C -> result (table C * FC).
Variable state_model_attr : DR -> option PCA.
Variable dr_fit_pca : DR -> table C -> Z -> K -> result DR.
Variable model_transform : PCA -> table C -> result E.

(** What the class relies on from its FeatureCalculator: the table
    [calculate_features] returns is the one [X_features] holds afterwards,
    and its first column is the entity column, the first column of the
    panel. *)
Hypothesis calculate_features_stores :
  forall (fc fc' : FC) (X F : table C),
    fc_calculate_features fc X = Ok (F, fc') ->
    X_features_attr fc' = Some F.
Hypothesis entity_column_first :
  forall (fc fc' : FC) (X F : table C),
    fc_calculate_features fc X = Ok (F, fc') ->
    getitem (columns F) 0 = getitem (columns X) 0.

Let fit_transform' := fit_transform fc_calculate_features state_model_attr
                                    dr_fit_pca model_transform.
Let fit_then_X_reduced' :=
  fit_then_X_reduced X_features_attr fc_calculate_features state_model_attr
                     dr_fit_pca model_transform.



End ReducerFacts.

(** *** With the collaborators of the specification *)

Section RoundTrip.

Import Table Reducer Collaborators.

Context {C P E K : Type}.
Variable entities : C -> C.
Variable registered_features : table C -> table C.
Variable height : C -> nat.
Variable components : table C -> Z -> K -> P.
Variable project : P -> table C -> E.

Let calculate := calculate_features entities registered_features.
Let fit_pca' := fit_pca (K := K) height components.
Let transform' := transform project.
Let fit' := fit calculate state_model fit_pca'.
Let fit_transform' := fit_transform calculate state_model fit_pca'
                                    transform'.
Let fit_then_X_reduced' :=
  fit_then_X_reduced X_features calculate state_model fit_pca' transform'.





End RoundTrip.


(** ** Sample runs of the descriptors *)

Example run_lengths_of_two_runs :
  _get_length_sequences_where
    [Some true; Some true; Some false; Some true; Some true; Some true;
     Some false]
  = [2%nat; 3%nat].
Proof. vm_compute. reflexivity. Qed.

Example longest_strikes_sample :
  longest_strike_below_mean (dense [1; 1; 5; 1; 9]) = Ok 2%nat
  /\ longest_strike_above_mean (dense [1; 1; 5; 1; 9]) = Ok 1%nat.
Proof. split; vm_compute; reflexivity. Qed.

Example autocorr_lag_one_sample :
  option_map (option_map XReal.red)
             (match autocorr (dense [1; 2; 3; 4]) 1 with
              | Ok v => Some v
              | Raise _ => None
              end)
  = Some (Some (Fin (1 # 3))).
Proof. vm_compute. reflexivity. Qed.

Example change_quantiles_sample :
  change_quantiles (dense [1; 2; 4; 7; 5; 6]) (1 # 4) (3 # 4) true
  = Ok [Some 2; Some 1].
Proof. vm_compute. reflexivity. Qed.

Example linear_trend_on_the_index :
  option_map XReal.red (slope (linear_trend (dense [1; 2; 3])))
    = Some (Fin 1)
  /\ option_map XReal.red (intercept (linear_trend (dense [1; 2; 3])))
    = Some (Fin 0)
  /\ option_map XReal.red (rss (linear_trend (dense [1; 2; 3])))
    = Some (Fin 0).
Proof. repeat split; vm_compute; reflexivity. Qed.

Example count_below_above_sample :
  count_below (dense [1; 2; 3; 4]) 2 = Fin (2 / 4 * 100)
  /\ count_above (dense [1; 2; 3; 4]) 2 = Fin (3 / 4 * 100).
Proof. split; vm_compute; reflexivity. Qed.

Example symmetry_looking_sample :
  symmetry_looking (dense [1; 2; 3; 10]) (PyDict [("r"%string, 1 # 2)])
  = Ok true
  /\ raises (symmetry_looking (dense [1; 2; 3; 10]) (PyFloat (1 # 2)))
     = true.
Proof. split; vm_compute; reflexivity. Qed.

(** * Further properties of the descriptors *)

(** ** Run lengths *)

Section RunLengths.

Let neb (a b : option bool) : option bool :=
  lift2 (fun u v => negb (Bool.eqb u v)) a b.

(** The run identifiers of the true cells, given the cell before and the
    identifier reached so far. *)
Fixpoint kept_ids (prev : option bool) (acc : Z) (bs : list bool) : list Z :=
  match bs with
  | [] => []
  | b :: r =>
      let acc' :=
        (acc + match neb (Some b) prev with Some true => 1 | _ => 0 end)%Z in
      if b then acc' :: kept_ids (Some b) acc' r
      else kept_ids (Some b) acc' r
  end.

Lemma pipeline_kept_ids (bs : list bool) (prev : option bool) (acc : Z) :
  filter (cumsum_from acc
            (fill_null_0 (zip_with neb (map Some bs) (prev :: map Some bs))))
         (eq_1 (map Some bs))
  = kept_ids prev acc bs.
Proof.
  revert prev acc. induction bs as [| b r IH]; intros prev acc;
    [reflexivity |].
  cbn [map zip_with fill_null_0 cumsum_from eq_1 option_map filter kept_ids].
  fold (eq_1 (map Some r)). fold (fill_null_0 (zip_with neb (map Some r)
                                                 (Some b :: map Some r))).
  rewrite IH. now destruct b.
Qed.

Lemma get_length_sequences_where_kept_ids (bs : list bool) :
  _get_length_sequences_where (map Some bs)
  = map snd (tally Z.eqb (kept_ids None 0 bs)).
Proof.
  unfold _get_length_sequences_where, ne, shift, shift_and_fill, cumsum.
  change (0 <=? 1)%Z with true. cbv iota.
  change (repeat None (Z.to_nat 1) ++ map Some bs)
    with (@None bool :: map Some bs).
  rewrite zip_with_firstn.
  now rewrite <- (pipeline_kept_ids bs None 0).
Qed.

Lemma bump_new (k : Z) (T : list (Z * nat)) :
  (forall kc, In kc T -> fst kc <> k) ->
  bump Z.eqb k T = T ++ [(k, 1%nat)].
Proof.
  induction T as [| [j c] T IH]; intros H; [reflexivity |].
  simpl. destruct (Z.eqb j k) eqn:E.
  - apply Z.eqb_eq in E. exfalso. apply (H (j, c)); [now left | exact E].
  - rewrite IH; [reflexivity |]. intros kc Hin. apply H. now right.
Qed.

Lemma bump_last (k : Z) (c : nat) (T : list (Z * nat)) :
  (forall kc, In kc T -> fst kc <> k) ->
  bump Z.eqb k (T ++ [(k, c)]) = T ++ [(k, S c)].
Proof.
  induction T as [| [j d] T IH]; intros H.
  - simpl. now rewrite Z.eqb_refl.
  - simpl. destruct (Z.eqb j k) eqn:E.
    + apply Z.eqb_eq in E. exfalso. apply (H (j, d)); [now left | exact E].
    + rewrite IH; [reflexivity |]. intros kc Hin. apply H. now right.
Qed.

(** The table after the identifiers of a suffix: inside a run of [cur]
    cells whose identifier is [acc], and outside of a run. *)
Lemma tally_kept_ids (bs : list bool) :
  (forall (acc : Z) (cur : nat) (T : list (Z * nat)),
      (forall kc, In kc T -> (fst kc < acc)%Z) ->
      map snd (fold_left (fun a k => bump Z.eqb k a)
                         (kept_ids (Some true) acc bs) (T ++ [(acc, S cur)]))
      = map snd T ++ Spec.run_lengths_from (S cur) bs)
  /\ (forall (prev : option bool) (acc : Z) (T : list (Z * nat)),
         prev <> Some true ->
         (forall kc, In kc T ->
                     (fst kc < acc + match prev with
                                     | Some false => 1
                                     | _ => 0
                                     end)%Z) ->
         map snd (fold_left (fun a k => bump Z.eqb k a)
                            (kept_ids prev acc bs) T)
         = map snd T ++ Spec.run_lengths_from 0 bs).
Proof.
  induction bs as [| b r [IHin IHout]]; split.
  - intros acc cur T _. simpl. now rewrite map_app.
  - intros prev acc T _ _. simpl. now rewrite app_nil_r.
  - intros acc cur T HT. destruct b; cbn [kept_ids neb lift2 Bool.eqb negb].
    + rewrite Z.add_0_r. cbn [fold_left].
      rewrite bump_last by (intros kc Hin; specialize (HT kc Hin); lia).
      apply IHin. exact HT.
    + cbn [Spec.run_lengths_from].
      rewrite (IHout (Some false) (acc + 1)%Z (T ++ [(acc, S cur)])).
      * rewrite map_app, <- app_assoc. reflexivity.
      * discriminate.
      * intros kc Hin. apply in_app_or in Hin. destruct Hin as [Hin | [<- | []]].
        -- specialize (HT kc Hin). lia.
        -- simpl. lia.
  - intros prev acc T Hprev HT. destruct b.
    + cbn [kept_ids Spec.run_lengths_from fold_left].
      set (acc' := (acc + _)%Z).
      assert (Hacc' : acc' = (acc + match prev with
                                    | Some false => 1
                                    | _ => 0
                                    end)%Z).
      { subst acc'. destruct prev as [[|] |]; [congruence | |]; reflexivity. }
      rewrite bump_new by (intros kc Hin; specialize (HT kc Hin); lia).
      apply IHin. intros kc Hin. specialize (HT kc Hin). lia.
    + cbn [kept_ids Spec.run_lengths_from].
      set (acc' := (acc + _)%Z).
      assert (Hacc' : acc' = acc).
      { subst acc'. destruct prev as [[|] |]; [congruence | |]; simpl; lia. }
      rewrite Hacc'. apply IHout; [discriminate |].
      intros kc Hin. specialize (HT kc Hin).
      destruct prev as [[|] |]; [congruence | |]; lia.
Qed.

Lemma run_lengths_of_mask (bs : list bool) :
  _get_length_sequences_where (map Some bs) = Spec.run_lengths bs.
Proof.
  rewrite get_length_sequences_where_kept_ids. unfold tally.
  apply (proj2 (tally_kept_ids bs) None 0%Z []); [discriminate |].
  intros kc [].
Qed.

End RunLengths.

(** X1: for a mask without missing cells [_get_length_sequences_where]
    returns the lengths of its maximal runs of true cells, in order. *)
Theorem get_length_sequences_where_run_lengths (bs : list bool) :
  _get_length_sequences_where (map Some bs) = Spec.run_lengths bs.
Proof. apply run_lengths_of_mask. Qed.

(** ** The longest strikes as longest windows *)




Lemma lt_dense (xs : list Q) (m : Q) :
  lt (dense xs) (Some m) = map Some (map (fun v => Qlt_bool v m) xs).
Proof. unfold lt, dense. now rewrite !map_map. Qed.

Lemma gt_dense (xs : list Q) (m : Q) :
  gt (dense xs) (Some m) = map Some (map (fun v => Qlt_bool m v) xs).
Proof. unfold gt, dense. now rewrite !map_map. Qed.



Lemma strike_of_lengths (l : list nat) :
  (if (0 <? len l)%nat then list_max l else 0%nat) = list_max l.
Proof. now destruct l. Qed.




(** ** count_below_mean, count_above_mean *)

Lemma filter_length_count_true {A : Type} (l : list A) (m : mask) :
  length l = length m -> length (filter l m) = Spec.count_true m.
Proof.
  revert l. induction m as [| b m IH]; intros [| c l] H; simpl in *;
    try discriminate; [reflexivity |].
  injection H as H. specialize (IH l H).
  destruct b as [[|] |]; simpl; lia.
Qed.

Lemma count_below_mean_count_true `{Float64Mean} (x : series) :
  count_below_mean x = Spec.count_true (lt_f64 x (mean_f64 x)).
Proof.
  unfold count_below_mean, count. apply filter_length_count_true.
  unfold lt_f64. now rewrite length_map.
Qed.

Lemma count_above_mean_count_true `{Float64Mean} (x : series) :
  count_above_mean x = Spec.count_true (gt_f64 x (mean_f64 x)).
Proof.
  unfold count_above_mean, count. apply filter_length_count_true.
  unfold gt_f64. now rewrite length_map.
Qed.

(** X3: on a series with at least one value, and whatever Float64 the
    library returns for its mean, a strike is never longer than the
    number of values on its side of the mean, and the two counts together
    never exceed the length. *)
Theorem strikes_and_counts `{Float64Mean} (x : series) :
  drop_nulls x <> [] ->
  exists a b : nat,
    longest_strike_below_mean x = Ok a
    /\ longest_strike_above_mean x = Ok b
    /\ (a <= count_below_mean x)%nat
    /\ (b <= count_above_mean x)%nat
    /\ (count_below_mean x + count_above_mean x <= len x)%nat.
Proof.
  intros Hx. destruct (mean_f64_some x Hx) as [m Hm].
  rewrite (longest_strike_below_value x m Hm).
  rewrite (longest_strike_above_value x m Hm).
  rewrite count_below_mean_count_true, count_above_mean_count_true, Hm.
  do 2 eexists. split; [reflexivity |]. split; [reflexivity |].
  split; [apply get_length_sequences_where_max |].
  split; [apply get_length_sequences_where_max |].
  apply count_true_lt_gt.
Qed.

Lemma strikes_and_counts_witness :
  exists a b : nat,
    longest_strike_below_mean (dense [1; 1; 5; 1; 9]%Q) = Ok a
    /\ longest_strike_above_mean (dense [1; 1; 5; 1; 9]%Q) = Ok b
    /\ (a <= count_below_mean (dense [1; 1; 5; 1; 9]%Q))%nat
    /\ (b <= count_above_mean (dense [1; 1; 5; 1; 9]%Q))%nat
    /\ (count_below_mean (dense [1; 1; 5; 1; 9]%Q)
        + count_above_mean (dense [1; 1; 5; 1; 9]%Q) <= 5)%nat.
Proof.
  apply (strikes_and_counts (dense [1; 1; 5; 1; 9])). discriminate.
Defined.

(** Without rounding, the mean and the two comparisons are the exact
    ones. *)
Lemma lt_f64_exact (x : series) :
  lt_f64 x (mean_f64 (H := exact_mean) x) = lt x (mean x).
Proof.
  unfold lt_f64, lt, mean_f64, mean, mean_of_values, exact_mean.
  apply map_ext. intros [v |];
    destruct (drop_nulls x) as [| u l]; reflexivity.
Qed.

Lemma gt_f64_exact (x : series) :
  gt_f64 x (mean_f64 (H := exact_mean) x) = gt x (mean x).
Proof.
  unfold gt_f64, gt, mean_f64, mean, mean_of_values, exact_mean.
  apply map_ext. intros [v |];
    destruct (drop_nulls x) as [| u l]; reflexivity.
Qed.

Lemma Qsum_nonneg (l : list Q) :
  Forall (fun v => 0 <= v) l -> 0 <= Qsum l.
Proof.
  induction 1 as [| v l Hv _ IH]; simpl; [apply Qle_refl |].
  setoid_replace 0 with (0 + 0) by ring. now apply Qplus_le_compat.
Qed.

(** A sum of non-negative terms that is zero has only zero terms. *)
Lemma Qsum_zero_terms (l : list Q) :
  Forall (fun v => 0 <= v) l -> Qsum l == 0 -> Forall (fun v => v == 0) l.
Proof.
  induction 1 as [| v l Hv Hl IH]; intros Hs; [constructor |].
  simpl in Hs. pose proof (Qsum_nonneg l Hl) as Hn.
  assert (Hv0 : v == 0).
  { apply Qle_antisym; [| exact Hv].
    setoid_replace v with (0 - Qsum l) by (rewrite <- Hs; ring).
    setoid_replace 0 with (0 - 0) at 2 by ring.
    apply Qplus_le_compat; [apply Qle_refl |]. now apply Qopp_le_compat. }
  constructor; [exact Hv0 |]. apply IH. rewrite <- Hs, Hv0. ring.
Qed.

Lemma Qsum_map_minus (l : list Q) (m : Q) :
  Qsum (map (fun v => v - m) l) == Qsum l - Qnat (length l) * m.
Proof.
  induction l as [| v l IH].
  - unfold Qnat. simpl. ring.
  - cbn [map Qsum fold_right length]. fold (Qsum (map (fun v => v - m) l)).
    fold (Qsum l). rewrite IH. unfold Qnat.
    rewrite Nat2Z.inj_succ, <- Z.add_1_r, inject_Z_plus. ring.
Qed.

Lemma Qsum_map_opp (l : list Q) : Qsum (map Qopp l) == - Qsum l.
Proof.
  induction l as [| v l IH]; simpl; [ring |].
  fold (Qsum (map Qopp l)). fold (Qsum l). rewrite IH. ring.
Qed.

Lemma mean_dense_eq (xs : list Q) (m : Q) :
  mean (dense xs) = Some m -> Qsum xs == Qnat (length xs) * m.
Proof.
  unfold mean. rewrite drop_nulls_dense.
  destruct xs as [| a xs]; [discriminate |].
  intros H. injection H as <-.
  change (a + Qsum xs
          == Qnat (S (length xs))
             * ((a + Qsum xs) / Qnat (S (length xs)))).
  field.
  intros H0. apply Qnat_zero_iff in H0. discriminate.
Qed.

Lemma count_true_pos (m : mask) :
  In (Some true) m -> (1 <= Spec.count_true m)%nat.
Proof.
  induction m as [| b m IH]; [intros [] |]. intros [H | H]; simpl.
  - subst b. lia.
  - specialize (IH H). destruct b as [[|] |]; lia.
Qed.

(** When no value is strictly below the mean, every value is the mean. *)
Lemma none_below_mean_constant (xs : list Q) (m : Q) :
  mean (dense xs) = Some m ->
  (forall v, In v xs -> m <= v) -> forall v, In v xs -> v == m.
Proof.
  intros Hm Hge.
  pose proof (mean_dense_eq xs m Hm) as Hs.
  assert (Hz : Forall (fun d => d == 0) (map (fun v => v - m) xs)).
  { apply Qsum_zero_terms.
    - apply Forall_forall. intros d Hd. apply in_map_iff in Hd.
      destruct Hd as [v [<- Hv]]. specialize (Hge v Hv).
      setoid_replace 0 with (m - m) by ring.
      apply Qplus_le_compat; [exact Hge | apply Qle_refl].
    - rewrite Qsum_map_minus, Hs. ring. }
  intros v Hv. rewrite Forall_forall in Hz.
  specialize (Hz (v - m) (in_map _ _ _ Hv)).
  setoid_replace v with (v - m + m) by ring. rewrite Hz. ring.
Qed.

Lemma none_above_mean_constant (xs : list Q) (m : Q) :
  mean (dense xs) = Some m ->
  (forall v, In v xs -> v <= m) -> forall v, In v xs -> v == m.
Proof.
  intros Hm Hle.
  pose proof (mean_dense_eq xs m Hm) as Hs.
  assert (Hz : Forall (fun d => d == 0) (map (fun v => m - v) xs)).
  { apply Qsum_zero_terms.
    - apply Forall_forall. intros d Hd. apply in_map_iff in Hd.
      destruct Hd as [v [<- Hv]]. specialize (Hle v Hv).
      setoid_replace 0 with (m - m) by ring.
      apply Qplus_le_compat; [apply Qle_refl | now apply Qopp_le_compat].
    - assert (E : Qsum (map (fun v => m - v) xs)
                  == - Qsum (map (fun v => v - m) xs)).
      { rewrite <- Qsum_map_opp, map_map.
        clear. induction xs as [| a xs IH]; simpl; [reflexivity |].
        fold (Qsum (map (fun v => m - v) xs)).
        fold (Qsum (map (fun x => - (x - m)) xs)). rewrite IH. ring. }
      rewrite E, Qsum_map_minus, Hs. ring. }
  intros v Hv. rewrite Forall_forall in Hz.
  specialize (Hz (m - v) (in_map _ _ _ Hv)).
  setoid_replace v with (m - (m - v)) by ring. rewrite Hz. ring.
Qed.

(** X4: in exact arithmetic, that is with the mean taken without
    rounding ([exact_mean]), a series without missing values that is not
    constant has at least one value strictly below its mean and one
    strictly above. *)
Theorem counts_of_nonconstant_series (xs : list Q) (u v : Q) :
  In u xs -> In v xs -> ~ u == v ->
  (1 <= count_below_mean (H := exact_mean) (dense xs))%nat
  /\ (1 <= count_above_mean (H := exact_mean) (dense xs))%nat.
Proof.
  intros Hu Hv Huv.
  destruct (mean (dense xs)) as [m |] eqn:Hm.
  2:{ unfold mean in Hm. rewrite drop_nulls_dense in Hm.
      destruct xs; [destruct Hu | discriminate]. }
  rewrite count_below_mean_count_true, count_above_mean_count_true.
  rewrite lt_f64_exact, gt_f64_exact, Hm.
  rewrite lt_dense, gt_dense.
  split; apply count_true_pos.
  - destruct (existsb (fun w => Qlt_bool w m) xs) eqn:E.
    + apply existsb_exists in E. destruct E as [w [Hw Hlt]].
      apply in_map_iff. exists true. split; [reflexivity |].
      apply in_map_iff. now exists w.
    + exfalso. apply Huv.
      assert (Hc : forall w, In w xs -> w == m).
      { apply (none_below_mean_constant xs m Hm). intros w Hw.
        apply Qlt_bool_false_iff.
        destruct (Qlt_bool w m) eqn:Ew; [| reflexivity].
        assert (existsb (fun w => Qlt_bool w m) xs = true)
          by (apply existsb_exists; now exists w).
        congruence. }
      now rewrite (Hc u Hu), (Hc v Hv).
  - destruct (existsb (fun w => Qlt_bool m w) xs) eqn:E.
    + apply existsb_exists in E. destruct E as [w [Hw Hlt]].
      apply in_map_iff. exists true. split; [reflexivity |].
      apply in_map_iff. now exists w.
    + exfalso. apply Huv.
      assert (Hc : forall w, In w xs -> w == m).
      { apply (none_above_mean_constant xs m Hm). intros w Hw.
        apply Qlt_bool_false_iff.
        destruct (Qlt_bool m w) eqn:Ew; [| reflexivity].
        assert (existsb (fun w => Qlt_bool m w) xs = true)
          by (apply existsb_exists; now exists w).
        congruence. }
      now rewrite (Hc u Hu), (Hc v Hv).
Qed.

Lemma counts_of_nonconstant_series_witness :
  (1 <= count_below_mean (H := exact_mean) (dense [1; 2; 6]%Q))%nat
  /\ (1 <= count_above_mean (H := exact_mean) (dense [1; 2; 6]%Q))%nat.
Proof.
  apply (counts_of_nonconstant_series [1; 2; 6] 1 2).
  - simpl; auto.
  - simpl; auto.
  - discriminate.
Defined.

(** ** var_greater_than_std *)

Lemma Qsquare_nonneg (a : Q) : 0 <= a * a.
Proof.
  destruct (Qlt_le_dec a 0) as [H | H].
  - setoid_replace (a * a) with ((- a) * (- a)) by ring.
    apply Qmult_le_0_compat; lra.
  - now apply Qmult_le_0_compat.
Qed.

Lemma Qsum_squares_nonneg (l : list Q) (m : Q) :
  0 <= Qsum (map (fun a => (a - m) * (a - m)) l).
Proof.
  apply Qsum_nonneg, Forall_forall. intros d Hd.
  apply in_map_iff in Hd. destruct Hd as [a [<- _]].
  apply Qsquare_nonneg.
Qed.

Lemma var_nonneg (x : series) (y : Q) : var 0 x = Some y -> 0 <= y.
Proof.
  unfold var.
  destruct (length (drop_nulls x) <=? 0)%nat eqn:E; [discriminate |].
  apply Nat.leb_gt in E.
  destruct (mean x) as [m |]; [| discriminate].
  intros H. injection H as <-.
  apply Qle_shift_div_l.
  - apply Qnat_pos. lia.
  - setoid_replace (0 * Qnat (length (drop_nulls x) - 0)) with 0 by ring.
    apply Qsum_squares_nonneg.
Qed.

Lemma gt_sqrt_self (y : Q) : 0 <= y -> gt_sqrt y y = Qlt_bool 1 y.
Proof.
  intros Hy. unfold gt_sqrt.
  replace (Qlt_bool y 0) with false
    by (symmetry; now apply Qlt_bool_false_iff).
  destruct (Qlt_bool 1 y) eqn:E.
  - apply Qlt_bool_true_iff in E. apply andb_true_iff.
    split; apply Qlt_bool_true_iff; nra.
  - apply Qlt_bool_false_iff in E. apply andb_false_iff.
    destruct (Qlt_bool y (y * y)) eqn:E2; [| now right].
    left. apply Qlt_bool_true_iff in E2. apply Qlt_bool_false_iff. nra.
Qed.

(** X5, in exact arithmetic (the variance and its square root taken
    without rounding or overflow): [var_greater_than_std] is the test
    "population variance above 1", as its docstring says, for every
    series with a value. *)
Theorem var_greater_than_std_iff (x : series) (y : Q) :
  var 0 x = Some y -> var_greater_than_std x = Some (Qlt_bool 1 y).
Proof.
  intros Hy. unfold var_greater_than_std. rewrite Hy.
  now rewrite (gt_sqrt_self y (var_nonneg x y Hy)).
Qed.

Lemma var_greater_than_std_iff_witness :
  var_greater_than_std (dense [0; 4]) = Some (Qlt_bool 1 (128 # 32)).
Proof.
  apply (var_greater_than_std_iff (dense [0; 4]) (128 # 32)). reflexivity.
Defined.

(** ** symmetry_looking *)

Lemma Qmaximum_ge (l : list Q) (b : Q) :
  Qmaximum l = Some b -> forall v, In v l -> v <= b.
Proof.
  revert b. induction l as [| a l IH]; intros b Hb v Hv; [destruct Hv |].
  simpl in Hb. destruct (Qmaximum l) as [m |] eqn:Em.
  - injection Hb as <-. destruct (Qle_bool m a) eqn:E.
    + apply Qle_bool_iff in E. destruct Hv as [<- | Hv]; [apply Qle_refl |].
      apply Qle_trans with m; [now apply IH | exact E].
    + assert (Ham : a <= m).
      { destruct (Qlt_le_dec m a) as [H | H]; [| exact H].
        apply Qlt_le_weak, Qle_bool_iff in H. congruence. }
      destruct Hv as [<- | Hv]; [exact Ham | now apply IH].
  - injection Hb as <-. destruct l; [| simpl in Em; destruct (Qmaximum l);
                                      discriminate].
    destruct Hv as [<- | []]. apply Qle_refl.
Qed.

Lemma Qminimum_le (l : list Q) (b : Q) :
  Qminimum l = Some b -> forall v, In v l -> b <= v.
Proof.
  revert b. induction l as [| a l IH]; intros b Hb v Hv; [destruct Hv |].
  simpl in Hb. destruct (Qminimum l) as [m |] eqn:Em.
  - injection Hb as <-. destruct (Qle_bool a m) eqn:E.
    + apply Qle_bool_iff in E. destruct Hv as [<- | Hv]; [apply Qle_refl |].
      apply Qle_trans with m; [exact E | now apply IH].
    + assert (Ham : m <= a).
      { destruct (Qlt_le_dec a m) as [H | H]; [| exact H].
        apply Qlt_le_weak, Qle_bool_iff in H. congruence. }
      destruct Hv as [<- | Hv]; [exact Ham | now apply IH].
  - injection Hb as <-. destruct l; [| simpl in Em; destruct (Qminimum l);
                                      discriminate].
    destruct Hv as [<- | []]. apply Qle_refl.
Qed.

Lemma Qmaximum_In (l : list Q) (b : Q) : Qmaximum l = Some b -> In b l.
Proof.
  revert b. induction l as [| a l IH]; intros b Hb; [discriminate |].
  simpl in Hb. destruct (Qmaximum l) as [m |].
  - injection Hb as <-. destruct (Qle_bool m a); [now left |].
    right. now apply IH.
  - injection Hb as <-. now left.
Qed.

Lemma Qminimum_In (l : list Q) (b : Q) : Qminimum l = Some b -> In b l.
Proof.
  revert b. induction l as [| a l IH]; intros b Hb; [discriminate |].
  simpl in Hb. destruct (Qminimum l) as [m |].
  - injection Hb as <-. destruct (Qle_bool a m); [now left |].
    right. now apply IH.
  - injection Hb as <-. now left.
Qed.

Lemma Qmaximum_some (l : list Q) : l <> [] -> exists b, Qmaximum l = Some b.
Proof.
  destruct l as [| a l]; [congruence |]. intros _. simpl.
  destruct (Qmaximum l); eexists; reflexivity.
Qed.

Lemma Qminimum_some (l : list Q) : l <> [] -> exists b, Qminimum l = Some b.
Proof.
  destruct l as [| a l]; [congruence |]. intros _. simpl.
  destruct (Qminimum l); eexists; reflexivity.
Qed.

(** X6: [symmetry_looking] is monotone in the multiplier: a series that
    looks symmetric for [r] looks symmetric for every larger [r']. *)
Theorem symmetry_looking_monotone (x : series) (r r' : Q) :
  r <= r' ->
  symmetry_looking x (PyDict [("r"%string, r)]) = Ok true ->
  symmetry_looking x (PyDict [("r"%string, r')]) = Ok true.
Proof.
  intros Hr. unfold symmetry_looking.
  destruct (py_sub (mean x) (median x)) as [d | e]; [| discriminate].
  cbn [bind]. unfold max, min.
  destruct (Qmaximum (drop_nulls x)) as [M |] eqn:EM; [| discriminate].
  destruct (Qminimum (drop_nulls x)) as [m |] eqn:Em; [| discriminate].
  cbn [py_sub bind subscript dict_get]. rewrite String.eqb_refl.
  cbn [bind]. intros H. injection H as H. f_equal.
  apply Qlt_bool_true_iff in H. apply Qlt_bool_true_iff.
  assert (HmM : m <= M)
    by (apply (Qmaximum_ge _ _ EM), (Qminimum_In _ _ Em)).
  apply Qlt_le_trans with (r * (M - m)); [exact H |].
  apply Qmult_le_compat_r; [exact Hr |].
  setoid_replace 0 with (m - m) by ring.
  apply Qplus_le_compat; [exact HmM | apply Qle_refl].
Qed.

Lemma symmetry_looking_monotone_witness :
  symmetry_looking (dense [1; 2; 3; 10]) (PyDict [("r"%string, 1)]) = Ok true.
Proof.
  apply (symmetry_looking_monotone (dense [1; 2; 3; 10]) (1 # 2) 1).
  - discriminate.
  - vm_compute. reflexivity.
Defined.

Lemma mean_some_values (x : series) (m : Q) :
  mean x = Some m -> drop_nulls x <> [].
Proof. unfold mean. destruct (drop_nulls x); [discriminate | discriminate]. Qed.

(** X7: the multiplier is read as [r["r"]]: with a plain number for [r],
    as the signature and the docstring have it, [symmetry_looking] raises
    TypeError on every series. *)
Theorem symmetry_looking_number_raises (x : series) (r : Q) :
  symmetry_looking x (PyFloat r) = Raise TypeError.
Proof.
  unfold symmetry_looking.
  destruct (mean x) as [m |] eqn:Hm; [| reflexivity].
  pose proof (mean_some_values x m Hm) as Hx.
  destruct (quantile_some x (1 # 2) Hx) as [a Ha]; try discriminate.
  unfold median. rewrite Ha. cbn [py_sub bind].
  unfold max, min.
  destruct (Qmaximum_some _ Hx) as [M ->].
  destruct (Qminimum_some _ Hx) as [mi ->].
  reflexivity.
Qed.

(** ** Changes: absolute_sum_of_changes, mean_change, mean_abs_change *)

Lemma diff_drop_dense (xs : list Q) :
  diff_drop (dense xs) = dense (Spec.changes xs).
Proof.
  destruct xs as [| a xs]; [reflexivity |].
  unfold diff_drop. now rewrite diff_dense.
Qed.

Lemma changes_cons (a b : Q) (r : list Q) :
  Spec.changes (a :: b :: r) = (b - a) :: Spec.changes (b :: r).
Proof. reflexivity. Qed.

Lemma length_changes (xs : list Q) :
  length (Spec.changes xs) = (length xs - 1)%nat.
Proof.
  destruct xs as [| a xs]; [reflexivity |].
  revert a. induction xs as [| b r IH]; intros a; [reflexivity |].
  rewrite changes_cons. cbn [length]. rewrite IH. simpl. lia.
Qed.

(** The changes add up to the last value minus the first. *)
Lemma Qsum_changes (a : Q) (xs : list Q) :
  Qsum (Spec.changes (a :: xs)) == last (a :: xs) 0 - a.
Proof.
  revert a. induction xs as [| b r IH]; intros a.
  - simpl. ring.
  - rewrite changes_cons.
    change (Qsum ((b - a) :: Spec.changes (b :: r)))
      with (b - a + Qsum (Spec.changes (b :: r))).
    rewrite IH.
    change (last (a :: b :: r) 0) with (last (b :: r) 0). ring.
Qed.

Lemma Qabs_Qsum (l : list Q) : Qabs (Qsum l) <= Qsum (map Qabs l).
Proof.
  induction l as [| v l IH]; [discriminate |].
  cbn [map Qsum fold_right]. fold (Qsum l). fold (Qsum (map Qabs l)).
  eapply Qle_trans; [apply Qabs_triangle |].
  apply Qplus_le_compat; [apply Qle_refl | exact IH].
Qed.

Lemma Qsum_map_Qabs_nonneg (l : list Q) :
  Forall (fun v => 0 <= v) l -> Qsum (map Qabs l) == Qsum l.
Proof.
  induction 1 as [| v l Hv _ IH]; [reflexivity |].
  cbn [map Qsum fold_right]. fold (Qsum l). fold (Qsum (map Qabs l)).
  now rewrite IH, (Qabs_pos v Hv).
Qed.

Lemma absolute_sum_of_changes_dense (xs : list Q) :
  absolute_sum_of_changes (dense xs) = Qsum (map Qabs (Spec.changes xs)).
Proof.
  unfold absolute_sum_of_changes, sum.
  now rewrite diff_drop_dense, abs_dense, drop_nulls_dense.
Qed.

Lemma Qnat_pred (n : nat) : (1 <= n)%nat -> Qnat (n - 1) == Qnat n - 1.
Proof.
  intros H. unfold Qnat. rewrite Nat2Z.inj_sub by exact H.
  unfold Z.sub. rewrite inject_Z_plus, inject_Z_opp. reflexivity.
Qed.

Lemma mean_dense_value (c : list Q) :
  c <> [] -> mean (dense c) = Some (Qsum c / Qnat (length c)).
Proof.
  unfold mean. rewrite drop_nulls_dense. destruct c; [congruence |].
  reflexivity.
Qed.

Lemma changes_nonempty (xs : list Q) :
  (2 <= length xs)%nat -> Spec.changes xs <> [].
Proof.
  intros H E. apply (f_equal (@length Q)) in E.
  rewrite length_changes in E. simpl in E. lia.
Qed.

(** X8, in exact arithmetic (differences and sums taken without
    rounding): the mean change of a series without missing values is the
    last value minus the first over the number of changes; a series of
    fewer than two values has no mean change and no mean absolute
    change. *)
Theorem mean_change_telescopes (xs : list Q) :
  ((2 <= length xs)%nat ->
   exists m : Q,
     mean_change (dense xs) = Some m
     /\ m == (last xs 0 - hd 0 xs) / (Qnat (length xs) - 1))
  /\ ((length xs <= 1)%nat ->
      mean_change (dense xs) = None /\ mean_abs_change (dense xs) = None).
Proof.
  split.
  - intros Hn. unfold mean_change. rewrite diff_drop_dense.
    rewrite (mean_dense_value _ (changes_nonempty xs Hn)).
    eexists. split; [reflexivity |].
    rewrite length_changes, Qnat_pred by lia.
    destruct xs as [| a xs]; [simpl in Hn; lia |].
    rewrite Qsum_changes. reflexivity.
  - intros Hn. destruct xs as [| a [| b r]]; [split; reflexivity .. |].
    simpl in Hn. lia.
Qed.

Lemma mean_change_telescopes_witness :
  exists m : Q,
    mean_change (dense [1; 5; 2; 7]) = Some m
    /\ m == (7 - 1) / (Qnat 4 - 1).
Proof.
  apply (proj1 (mean_change_telescopes [1; 5; 2; 7])). simpl; lia.
Defined.

Lemma changes_sorted (xs : list Q) :
  (forall i : nat, (S i < length xs)%nat -> nth i xs 0 <= nth (S i) xs 0) ->
  Forall (fun c => 0 <= c) (Spec.changes xs).
Proof.
  destruct xs as [| a xs]; [constructor |].
  revert a. induction xs as [| b r IH]; intros a H; [constructor |].
  rewrite changes_cons. constructor.
  - specialize (H 0%nat ltac:(simpl; lia)). simpl in H.
    setoid_replace 0 with (a - a) by ring.
    apply Qplus_le_compat; [exact H | apply Qle_refl].
  - apply IH. intros i Hi. apply (H (S i)). simpl in *. lia.
Qed.

(** X9, in exact arithmetic (differences and sums taken without
    rounding): for at least two values and none missing, the absolute sum
    of changes is at least the distance between the last and the first
    value, and it is the last value minus the first when the series never
    decreases. *)
Theorem absolute_sum_of_changes_bounds (xs : list Q) :
  (2 <= length xs)%nat ->
  Qabs (last xs 0 - hd 0 xs) <= absolute_sum_of_changes (dense xs)
  /\ ((forall i : nat,
          (S i < length xs)%nat -> nth i xs 0 <= nth (S i) xs 0) ->
      absolute_sum_of_changes (dense xs) == last xs 0 - hd 0 xs).
Proof.
  intros Hn. rewrite absolute_sum_of_changes_dense.
  destruct xs as [| a xs]; [simpl in Hn; lia |].
  cbn [hd]. split.
  - rewrite <- Qsum_changes. apply Qabs_Qsum.
  - intros Hs. rewrite Qsum_map_Qabs_nonneg by now apply changes_sorted.
    apply Qsum_changes.
Qed.

Lemma absolute_sum_of_changes_bounds_witness :
  Qabs (7 - 1) <= absolute_sum_of_changes (dense [1; 5; 2; 7])
  /\ absolute_sum_of_changes (dense [1; 2; 2; 7]) == 7 - 1.
Proof.
  split.
  - apply (proj1 (absolute_sum_of_changes_bounds [1; 5; 2; 7]
                    ltac:(simpl; lia))).
  - apply (proj2 (absolute_sum_of_changes_bounds [1; 2; 2; 7]
                    ltac:(simpl; lia))).
    intros [| [| [| i]]] Hi; simpl in *; try lia; discriminate.
Defined.



(** ** absolute_energy, absolute_maximum *)

Lemma zip_with_self (xs : list Q) :
  zip_with Qmult xs xs = map (fun v => v * v) xs.
Proof. induction xs as [| a xs IH]; simpl; congruence. Qed.

Lemma absolute_energy_dense (xs : list Q) :
  absolute_energy (dense xs) = Ok (Qsum (map (fun v => v * v) xs)).
Proof.
  unfold absolute_energy, dot, sum. rewrite Nat.eqb_refl.
  now rewrite zip_with_dense, drop_nulls_dense, zip_with_self.
Qed.

(** X11, in exact arithmetic (products and sums taken without rounding,
    underflow or integer wrap-around): the absolute energy of a non-empty
    series without missing values is never negative, and it is zero
    exactly when every value is zero. *)
Theorem absolute_energy_nonneg (xs : list Q) :
  xs <> [] ->
  exists e : Q,
    absolute_energy (dense xs) = Ok e
    /\ 0 <= e
    /\ (e == 0 <-> forall v : Q, In v xs -> v == 0).
Proof.
  intros _. rewrite absolute_energy_dense. eexists.
  split; [reflexivity |].
  assert (Hsq : Forall (fun d => 0 <= d) (map (fun v => v * v) xs)).
  { apply Forall_forall. intros d Hd. apply in_map_iff in Hd.
    destruct Hd as [v [<- _]]. apply Qsquare_nonneg. }
  split; [now apply Qsum_nonneg |]. split.
  - intros He v Hv.
    pose proof (Qsum_zero_terms _ Hsq He) as Hz.
    rewrite Forall_forall in Hz.
    specialize (Hz (v * v) (in_map _ _ _ Hv)).
    destruct (Qmult_integral _ _ Hz); assumption.
  - intros Hz. apply Qsum_all_zero, Forall_forall. intros d Hd.
    apply in_map_iff in Hd. destruct Hd as [v [<- Hv]].
    rewrite (Hz v Hv). ring.
Qed.

Lemma absolute_energy_nonneg_witness :
  exists e : Q,
    absolute_energy (dense [1; 2; 3; 4; 5]) = Ok e
    /\ 0 <= e
    /\ (e == 0 <-> forall v : Q, In v [1; 2; 3; 4; 5] -> v == 0).
Proof. apply (absolute_energy_nonneg [1; 2; 3; 4; 5]). discriminate. Defined.

Lemma drop_nulls_abs (x : series) :
  drop_nulls (abs x) = map Qabs (drop_nulls x).
Proof.
  unfold abs. induction x as [| [v |] x IH]; simpl; congruence.
Qed.

Lemma In_drop_nulls (x : series) (v : Q) :
  In v (drop_nulls x) <-> In (Some v) x.
Proof.
  induction x as [| [w |] x IH]; simpl.
  - tauto.
  - rewrite IH. split; intros [H | H]; auto; left; congruence.
  - rewrite IH. split; [auto | intros [H | H]; [discriminate | exact H]].
Qed.

(** X12: the absolute maximum of a series is missing exactly when the
    series has no value; otherwise it is the absolute value of one of the
    values, and no value exceeds it in absolute value. *)
Theorem absolute_maximum_spec (x : series) :
  (drop_nulls x = [] -> absolute_maximum x = None)
  /\ (drop_nulls x <> [] ->
      exists M : Q,
        absolute_maximum x = Some M
        /\ (forall v : Q, In (Some v) x -> Qabs v <= M)
        /\ (exists v : Q, In (Some v) x /\ M = Qabs v)).
Proof.
  unfold absolute_maximum, max. rewrite drop_nulls_abs. split.
  - intros ->. reflexivity.
  - intros Hx.
    assert (Hx' : map Qabs (drop_nulls x) <> [])
      by (destruct (drop_nulls x); [congruence | discriminate]).
    destruct (Qmaximum_some _ Hx') as [M HM].
    exists M. split; [exact HM |]. split.
    + intros v Hv. apply (Qmaximum_ge _ _ HM).
      apply in_map, In_drop_nulls, Hv.
    + apply Qmaximum_In, in_map_iff in HM.
      destruct HM as [v [Hv Hin]]. exists v.
      split; [now apply In_drop_nulls | now symmetry].
Qed.

Lemma absolute_maximum_spec_witness :
  absolute_maximum [None; None] = None
  /\ exists M : Q,
      absolute_maximum [Some 2; None; Some (- (5))] = Some M
      /\ (forall v : Q,
             In (Some v) [Some 2; None; Some (- (5))] -> Qabs v <= M)
      /\ (exists v : Q,
             In (Some v) [Some 2; None; Some (- (5))] /\ M = Qabs v).
Proof.
  split.
  - apply (proj1 (absolute_maximum_spec [None; None])). reflexivity.
  - apply (proj2 (absolute_maximum_spec [Some 2; None; Some (- (5))])).
    discriminate.
Defined.

(** ** number_crossing_m *)

Lemma cast_gt_dense (xs : list Q) (m : Q) :
  cast_int8 (gt (dense xs) (Some m))
  = dense (map (fun v => if Qlt_bool m v then 1 else 0) xs).
Proof.
  unfold cast_int8, gt, dense. rewrite !map_map. reflexivity.
Qed.

Lemma eq_scalar_dense (zs : list Q) (t : Q) :
  eq_scalar (dense zs) (Some t) = map (fun z => Some (Qeq_bool z t)) zs.
Proof. unfold eq_scalar, dense. now rewrite map_map. Qed.

Lemma number_crossing_m_dense (xs : list Q) (m : Q) :
  number_crossing_m (dense xs) m
  = sum_mask
      (map (fun z => Some (Qeq_bool (Qabs z) 1))
           (Spec.changes (map (fun v => if Qlt_bool m v then 1 else 0) xs))).
Proof.
  unfold number_crossing_m.
  rewrite cast_gt_dense, diff_drop_dense, abs_dense, eq_scalar_dense.
  now rewrite map_map.
Qed.

Lemma sum_mask_cons (c : bool) (m : mask) :
  sum_mask (Some c :: m) = ((if c then 1 else 0) + sum_mask m)%nat.
Proof. now destruct c. Qed.

Lemma crossing_step (p q : bool) :
  Qeq_bool (Qabs ((if q then 1 else 0) - (if p then 1 else 0))) 1
  = negb (Bool.eqb p q).
Proof. now destruct p, q. Qed.

Lemma crossings_cons (m a b : Q) (r : list Q) :
  Spec.crossings m (a :: b :: r)
  = ((if Bool.eqb (Qlt_bool m a) (Qlt_bool m b) then 0 else 1)
     + Spec.crossings m (b :: r))%nat.
Proof. reflexivity. Qed.

Lemma crossings_refine (xs : list Q) (m : Q) :
  number_crossing_m (dense xs) m = Spec.crossings m xs.
Proof.
  rewrite number_crossing_m_dense.
  destruct xs as [| a xs]; [reflexivity |].
  revert a. induction xs as [| b r IH]; intros a; [reflexivity |].
  rewrite crossings_cons, <- (IH b).
  set (g := fun v => if Qlt_bool m v then 1 else 0).
  change (map g (a :: b :: r)) with (g a :: g b :: map g r).
  rewrite changes_cons.
  change (g b :: map g r) with (map g (b :: r)).
  rewrite map_cons, sum_mask_cons. unfold g at 1 2.
  rewrite crossing_step.
  now destruct (Bool.eqb (Qlt_bool m a) (Qlt_bool m b)).
Qed.

Lemma crossings_le (xs : list Q) (m : Q) :
  (Spec.crossings m xs <= length xs - 1)%nat.
Proof.
  destruct xs as [| a xs]; [simpl; lia |].
  revert a. induction xs as [| b r IH]; intros a; [simpl; lia |].
  specialize (IH b). cbn [Spec.crossings length] in *.
  destruct (Bool.eqb _ _); lia.
Qed.

(** X13: on a series of at least two values, none missing,
    [number_crossing_m] counts the pairs of neighbouring values of which
    exactly one is greater than [m]; there are at most [len(x) - 1] of
    them. *)
Theorem number_crossing_m_counts_pairs (xs : list Q) (m : Q) :
  (2 <= length xs)%nat ->
  number_crossing_m (dense xs) m = Spec.crossings m xs
  /\ (number_crossing_m (dense xs) m <= length xs - 1)%nat.
Proof.
  intros _. rewrite crossings_refine.
  split; [reflexivity | apply crossings_le].
Qed.

Lemma number_crossing_m_counts_pairs_witness :
  number_crossing_m (dense [1; 3; 1; 0; 5]) 2
  = Spec.crossings 2 [1; 3; 1; 0; 5]
  /\ (number_crossing_m (dense [1; 3; 1; 0; 5]%Q) 2 <= 5 - 1)%nat.
Proof.
  apply (number_crossing_m_counts_pairs [1; 3; 1; 0; 5] 2). simpl; lia.
Defined.

Lemma crossings_snoc (m : Q) (xs : list Q) (a b : Q) :
  Spec.crossings m (xs ++ [a; b])
  = (Spec.crossings m (xs ++ [a])
     + if Bool.eqb (Qlt_bool m a) (Qlt_bool m b) then 0 else 1)%nat.
Proof.
  induction xs as [| u xs IH]; [simpl; lia |].
  destruct xs as [| v xs].
  - simpl. lia.
  - change ((u :: v :: xs) ++ [a; b]) with (u :: v :: (xs ++ [a; b])).
    change ((u :: v :: xs) ++ [a]) with (u :: v :: (xs ++ [a])).
    rewrite (crossings_cons m u v (xs ++ [a; b])),
      (crossings_cons m u v (xs ++ [a])).
    change (v :: (xs ++ [a; b])) with ((v :: xs) ++ [a; b]).
    change (v :: (xs ++ [a])) with ((v :: xs) ++ [a]).
    rewrite IH. lia.
Qed.

Lemma crossings_rev (m : Q) (xs : list Q) :
  Spec.crossings m (rev xs) = Spec.crossings m xs.
Proof.
  destruct xs as [| a xs]; [reflexivity |].
  revert a. induction xs as [| b r IH]; intros a; [reflexivity |].
  replace (rev (a :: b :: r)) with (rev r ++ [b; a])
    by (simpl; now rewrite <- app_assoc).
  rewrite crossings_snoc.
  change (rev r ++ [b]) with (rev (b :: r)). rewrite IH, crossings_cons.
  destruct (Qlt_bool m a), (Qlt_bool m b); simpl; lia.
Qed.

(** X14: reading a series of at least two values, none missing,
    backwards does not change the number of crossings. *)
Theorem number_crossing_m_reverse (xs : list Q) (m : Q) :
  (2 <= length xs)%nat ->
  number_crossing_m (dense (rev xs)) m = number_crossing_m (dense xs) m.
Proof. intros _. rewrite !crossings_refine. apply crossings_rev. Qed.

Lemma number_crossing_m_reverse_witness :
  number_crossing_m (dense (rev [1; 3; 1; 0; 5])) 2
  = number_crossing_m (dense [1; 3; 1; 0; 5]) 2.
Proof. apply (number_crossing_m_reverse [1; 3; 1; 0; 5] 2). simpl; lia. Defined.

(** ** Locations of the maximum and of the minimum *)

Section IndexWhere.

Variable p : Q -> bool.

Lemma index_where_spec (xs : list Q) (i : nat) :
  index_where p xs = Some i ->
  (i < length xs)%nat
  /\ p (nth i xs 0) = true
  /\ forall t : nat, (t < i)%nat -> p (nth t xs 0) = false.
Proof.
  revert i. induction xs as [| a xs IH]; intros i H; [discriminate |].
  simpl in H. destruct (p a) eqn:Ea.
  - injection H as <-. repeat split; [simpl; lia | exact Ea | intros t Ht; lia].
  - destruct (index_where p xs) as [k |]; [| discriminate].
    injection H as <-. destruct (IH k eq_refl) as [H1 [H2 H3]].
    repeat split; [simpl; lia | exact H2 |].
    intros [| t] Ht; [exact Ea | apply H3; lia].
Qed.

Lemma index_where_some (xs : list Q) (v : Q) :
  In v xs -> p v = true -> exists i : nat, index_where p xs = Some i.
Proof.
  induction xs as [| a xs IH]; intros Hin Hv; [destruct Hin |].
  simpl. destruct (p a) eqn:Ea; [now exists 0%nat |].
  destruct Hin as [-> | Hin]; [congruence |].
  destruct (IH Hin Hv) as [i ->]. now exists (S i).
Qed.

(** The first position where [p] holds, and the last one, found as the
    first position of the reversed list. *)
Lemma first_and_last_index (xs : list Q) (v : Q) :
  In v xs -> p v = true ->
  exists i k : nat,
    index_where p xs = Some i
    /\ index_where p (rev xs) = Some k
    /\ (k < length xs)%nat
    /\ (i <= length xs - 1 - k)%nat
    /\ p (nth i xs 0) = true
    /\ p (nth (length xs - 1 - k) xs 0) = true
    /\ (forall t : nat, (t < i)%nat -> p (nth t xs 0) = false)
    /\ (forall t : nat,
           (length xs - 1 - k < t < length xs)%nat ->
           p (nth t xs 0) = false).
Proof.
  intros Hin Hv.
  destruct (index_where_some xs v Hin Hv) as [i Hi].
  destruct (index_where_some (rev xs) v (proj1 (in_rev xs v) Hin) Hv)
    as [k Hk].
  exists i, k. split; [exact Hi |]. split; [exact Hk |].
  destruct (index_where_spec xs i Hi) as [Hi1 [Hi2 Hi3]].
  destruct (index_where_spec (rev xs) k Hk) as [Hk1 [Hk2 Hk3]].
  rewrite length_rev in Hk1.
  assert (Hnth : forall t : nat,
             (t < length xs)%nat ->
             nth t (rev xs) 0 = nth (length xs - 1 - t) xs 0).
  { intros t Ht. rewrite rev_nth by exact Ht. f_equal. lia. }
  rewrite (Hnth k Hk1) in Hk2.
  assert (Hlast : forall t : nat,
             (length xs - 1 - k < t < length xs)%nat ->
             p (nth t xs 0) = false).
  { intros t Ht.
    specialize (Hk3 (length xs - 1 - t)%nat ltac:(lia)).
    rewrite (Hnth (length xs - 1 - t)%nat) in Hk3 by lia.
    replace (length xs - 1 - (length xs - 1 - t))%nat with t in Hk3 by lia.
    exact Hk3. }
  repeat split; try assumption.
  destruct (Nat.le_gt_cases i (length xs - 1 - k)) as [H | H]; [exact H |].
  rewrite (Hlast i ltac:(lia)) in Hi2. discriminate.
Qed.

End IndexWhere.

Lemma py_div_index_nat (i n : nat) :
  (0 < n)%nat ->
  py_div_index (Some (Z.of_nat i)) (Z.of_nat n) = Ok (Qnat i / Qnat n).
Proof.
  intros Hn. unfold py_div_index, py_truediv.
  destruct (Z.of_nat n =? 0)%Z eqn:E; [apply Z.eqb_eq in E; lia |].
  reflexivity.
Qed.

Lemma length_pos (xs : list Q) : xs <> [] -> (0 < length xs)%nat.
Proof. destruct xs; [congruence | simpl; lia]. Qed.

Lemma Qnat_div_lt (i j n : nat) :
  (i < j)%nat -> (0 < n)%nat -> Qnat i / Qnat n < Qnat j / Qnat n.
Proof.
  intros Hij Hn. apply Qmult_lt_compat_r.
  - apply Qinv_lt_0_compat, Qnat_pos, Hn.
  - unfold Qnat. rewrite <- Zlt_Qlt. lia.
Qed.

(** What the two locations are, for the positions where [p] singles out
    the extreme value. *)
Lemma locations_of_extreme (p : Q -> bool) (xs : list Q) (v : Q)
      (first last : result Q) :
  In v xs -> p v = true ->
  first = py_div_index (option_map Z.of_nat (index_where p xs))
                       (Z.of_nat (len xs)) ->
  last = (d <- py_sub_index (Z.of_nat (len xs)) (index_where p (rev xs)) ;;
          py_div_index (Some d) (Z.of_nat (len xs))) ->
  exists i j : nat,
    first = Ok (Qnat i / Qnat (length xs))
    /\ last = Ok (Qnat (S j) / Qnat (length xs))
    /\ (i <= j < length xs)%nat
    /\ p (nth i xs 0) = true
    /\ p (nth j xs 0) = true
    /\ (forall t : nat, (t < i)%nat -> p (nth t xs 0) = false)
    /\ (forall t : nat, (j < t < length xs)%nat -> p (nth t xs 0) = false).
Proof.
  intros Hin Hv -> ->.
  destruct (first_and_last_index p xs v Hin Hv)
    as [i [k [Hi [Hk [Hk1 [Hik [Hpi [Hpj [Hbefore Hafter]]]]]]]]].
  assert (Hn : (0 < length xs)%nat) by lia.
  exists i, (length xs - 1 - k)%nat. unfold len.
  rewrite Hi, Hk. cbn [option_map py_sub_index bind].
  rewrite (py_div_index_nat i _ Hn).
  replace (Z.of_nat (length xs) - Z.of_nat k)%Z
    with (Z.of_nat (S (length xs - 1 - k))) by lia.
  rewrite (py_div_index_nat _ _ Hn).
  repeat split; try assumption; lia.
Qed.

Lemma Qeq_bool_max_lt (M v : Q) :
  v <= M -> Qeq_bool v M = false -> v < M.
Proof.
  intros Hle Hne. apply Qle_lteq in Hle. destruct Hle as [H | H]; [exact H |].
  apply Qeq_bool_iff in H. congruence.
Qed.

Lemma Qeq_bool_min_lt (M v : Q) :
  M <= v -> Qeq_bool v M = false -> M < v.
Proof.
  intros Hle Hne. apply Qle_lteq in Hle. destruct Hle as [H | H]; [exact H |].
  symmetry in H. apply Qeq_bool_iff in H. congruence.
Qed.

Lemma Qmaximum_rev (xs : list Q) (M M' : Q) :
  Qmaximum xs = Some M -> Qmaximum (rev xs) = Some M' -> M' == M.
Proof.
  intros H H'. apply Qle_antisym.
  - apply (Qmaximum_ge _ _ H), in_rev, (Qmaximum_In _ _ H').
  - apply (Qmaximum_ge _ _ H'). rewrite <- in_rev.
    apply (Qmaximum_In _ _ H).
Qed.

Lemma Qminimum_rev (xs : list Q) (M M' : Q) :
  Qminimum xs = Some M -> Qminimum (rev xs) = Some M' -> M' == M.
Proof.
  intros H H'. apply Qle_antisym.
  - apply (Qminimum_le _ _ H'). rewrite <- in_rev.
    apply (Qminimum_In _ _ H).
  - apply (Qminimum_le _ _ H), in_rev, (Qminimum_In _ _ H').
Qed.

Lemma index_where_ext (p q : Q -> bool) (xs : list Q) :
  (forall v, p v = q v) -> index_where p xs = index_where q xs.
Proof.
  intros H. induction xs as [| a xs IH]; [reflexivity |].
  simpl. now rewrite H, IH.
Qed.

Lemma Qeq_bool_right (M M' v : Q) :
  M' == M -> Qeq_bool v M' = Qeq_bool v M.
Proof.
  intros H. destruct (Qeq_bool v M) eqn:E.
  - apply Qeq_bool_iff in E. apply Qeq_bool_iff. now rewrite H.
  - destruct (Qeq_bool v M') eqn:E'; [| reflexivity].
    apply Qeq_bool_iff in E'. rewrite H in E'.
    apply Qeq_bool_iff in E'. congruence.
Qed.

(** X15: on a non-empty series without missing values the first location
    of the maximum is [i / n] for the first position [i] of the largest
    value, and the last location is [(j + 1) / n] for its last position
    [j]; on the empty series both raise TypeError. *)
Theorem locations_of_maximum (xs : list Q) :
  (xs = [] ->
   first_location_of_maximum xs = Raise TypeError
   /\ last_location_of_maximum xs = Raise TypeError)
  /\ (xs <> [] ->
      exists (i j : nat) (M : Q),
        first_location_of_maximum xs = Ok (Qnat i / Qnat (length xs))
        /\ last_location_of_maximum xs = Ok (Qnat (S j) / Qnat (length xs))
        /\ (i <= j < length xs)%nat
        /\ (forall v : Q, In v xs -> v <= M)
        /\ nth i xs 0 == M /\ nth j xs 0 == M
        /\ (forall t : nat, (t < i)%nat -> nth t xs 0 < M)
        /\ (forall t : nat, (j < t < length xs)%nat -> nth t xs 0 < M)).
Proof.
  split; [intros ->; split; reflexivity |].
  intros Hx.
  destruct (Qmaximum_some xs Hx) as [M HM].
  assert (Hx' : rev xs <> [])
    by (intros E; apply Hx; rewrite <- (rev_involutive xs), E; reflexivity).
  destruct (Qmaximum_some (rev xs) Hx') as [M' HM'].
  pose proof (Qmaximum_rev xs M M' HM HM') as HMM.
  pose proof (Qmaximum_ge xs M HM) as Hge.
  destruct (locations_of_extreme (fun v => Qeq_bool v M) xs M
              (first_location_of_maximum xs) (last_location_of_maximum xs))
    as [i [j [Hf [Hl [Hij [Hi [Hj [Hb Ha]]]]]]]].
  - exact (Qmaximum_In xs M HM).
  - apply Qeq_bool_iff. reflexivity.
  - unfold first_location_of_maximum, arg_max. now rewrite HM.
  - unfold last_location_of_maximum, arg_max. rewrite HM'.
    now rewrite (index_where_ext _ (fun v => Qeq_bool v M) (rev xs)
                   (fun v => Qeq_bool_right M M' v HMM)).
  - exists i, j, M. repeat split; try assumption; try lia.
    + now apply Qeq_bool_iff.
    + now apply Qeq_bool_iff.
    + intros t Ht. apply Qeq_bool_max_lt; [| now apply Hb].
      apply Hge, nth_In. lia.
    + intros t Ht. apply Qeq_bool_max_lt; [| now apply Ha].
      apply Hge, nth_In. lia.
Qed.

Lemma locations_of_maximum_witness :
  exists (i j : nat) (M : Q),
    first_location_of_maximum [1; 5; 3; 5; 2] = Ok (Qnat i / Qnat 5)
    /\ last_location_of_maximum [1; 5; 3; 5; 2] = Ok (Qnat (S j) / Qnat 5)
    /\ (i <= j < 5)%nat
    /\ (forall v : Q, In v [1; 5; 3; 5; 2] -> v <= M)
    /\ nth i [1; 5; 3; 5; 2] 0 == M /\ nth j [1; 5; 3; 5; 2] 0 == M
    /\ (forall t : nat, (t < i)%nat -> nth t [1; 5; 3; 5; 2] 0 < M)
    /\ (forall t : nat, (j < t < 5)%nat -> nth t [1; 5; 3; 5; 2] 0 < M).
Proof.
  apply (proj2 (locations_of_maximum [1; 5; 3; 5; 2])). discriminate.
Defined.

(** X16: likewise for the minimum: the first location is [i / n] for the
    first position of the smallest value, the last location [(j + 1) / n]
    for its last position, and the empty series raises TypeError. *)
Theorem locations_of_minimum (xs : list Q) :
  (xs = [] ->
   first_location_of_minimum xs = Raise TypeError
   /\ last_location_of_minimum xs = Raise TypeError)
  /\ (xs <> [] ->
      exists (i j : nat) (M : Q),
        first_location_of_minimum xs = Ok (Qnat i / Qnat (length xs))
        /\ last_location_of_minimum xs = Ok (Qnat (S j) / Qnat (length xs))
        /\ (i <= j < length xs)%nat
        /\ (forall v : Q, In v xs -> M <= v)
        /\ nth i xs 0 == M /\ nth j xs 0 == M
        /\ (forall t : nat, (t < i)%nat -> M < nth t xs 0)
        /\ (forall t : nat, (j < t < length xs)%nat -> M < nth t xs 0)).
Proof.
  split; [intros ->; split; reflexivity |].
  intros Hx.
  destruct (Qminimum_some xs Hx) as [M HM].
  assert (Hx' : rev xs <> [])
    by (intros E; apply Hx; rewrite <- (rev_involutive xs), E; reflexivity).
  destruct (Qminimum_some (rev xs) Hx') as [M' HM'].
  pose proof (Qminimum_rev xs M M' HM HM') as HMM.
  pose proof (Qminimum_le xs M HM) as Hle.
  destruct (locations_of_extreme (fun v => Qeq_bool v M) xs M
              (first_location_of_minimum xs) (last_location_of_minimum xs))
    as [i [j [Hf [Hl [Hij [Hi [Hj [Hb Ha]]]]]]]].
  - exact (Qminimum_In xs M HM).
  - apply Qeq_bool_iff. reflexivity.
  - unfold first_location_of_minimum, arg_min. now rewrite HM.
  - unfold last_location_of_minimum, arg_min. rewrite HM'.
    now rewrite (index_where_ext _ (fun v => Qeq_bool v M) (rev xs)
                   (fun v => Qeq_bool_right M M' v HMM)).
  - exists i, j, M. repeat split; try assumption; try lia.
    + now apply Qeq_bool_iff.
    + now apply Qeq_bool_iff.
    + intros t Ht. apply Qeq_bool_min_lt; [| now apply Hb].
      apply Hle, nth_In. lia.
    + intros t Ht. apply Qeq_bool_min_lt; [| now apply Ha].
      apply Hle, nth_In. lia.
Qed.

Lemma locations_of_minimum_witness :
  exists (i j : nat) (M : Q),
    first_location_of_minimum [4; 1; 3; 1; 2] = Ok (Qnat i / Qnat 5)
    /\ last_location_of_minimum [4; 1; 3; 1; 2] = Ok (Qnat (S j) / Qnat 5)
    /\ (i <= j < 5)%nat
    /\ (forall v : Q, In v [4; 1; 3; 1; 2] -> M <= v)
    /\ nth i [4; 1; 3; 1; 2] 0 == M /\ nth j [4; 1; 3; 1; 2] 0 == M
    /\ (forall t : nat, (t < i)%nat -> M < nth t [4; 1; 3; 1; 2] 0)
    /\ (forall t : nat, (j < t < 5)%nat -> M < nth t [4; 1; 3; 1; 2] 0).
Proof.
  apply (proj2 (locations_of_minimum [4; 1; 3; 1; 2])). discriminate.
Defined.

(** ** has_duplicate, has_duplicate_max, has_duplicate_min *)

Lemma occurrences_cons (v a : Q) (xs : list Q) :
  occurrences v (a :: xs)
  = ((if Qeq_bool a v then 1 else 0) + occurrences v xs)%nat.
Proof. unfold occurrences. simpl. now destruct (Qeq_bool a v). Qed.

Lemma occurrences_one (v : Q) (xs : list Q) :
  (1 <= occurrences v xs)%nat
  <-> exists j : nat, (j < length xs)%nat /\ nth j xs 0 == v.
Proof.
  induction xs as [| a xs IH].
  - split; [unfold occurrences; simpl; lia |].
    intros [j [Hj _]]. simpl in Hj. lia.
  - rewrite occurrences_cons. split.
    + intros H. destruct (Qeq_bool a v) eqn:E.
      * exists 0%nat. split; [simpl; lia | now apply Qeq_bool_iff].
      * destruct (proj1 IH ltac:(lia)) as [j [Hj Hv]].
        exists (S j). split; [simpl; lia | exact Hv].
    + intros [[| j] [Hj Hv]].
      * simpl in Hv. apply Qeq_bool_iff in Hv. rewrite Hv. lia.
      * assert (1 <= occurrences v xs)%nat
          by (apply IH; exists j; split; [simpl in Hj; lia | exact Hv]).
        lia.
Qed.

Lemma occurrences_two (v : Q) (xs : list Q) :
  (2 <= occurrences v xs)%nat
  <-> exists i j : nat,
      (i < j < length xs)%nat /\ nth i xs 0 == v /\ nth j xs 0 == v.
Proof.
  induction xs as [| a xs IH].
  - split; [unfold occurrences; simpl; lia |].
    intros [i [j [Hj _]]]. simpl in Hj. lia.
  - rewrite occurrences_cons. split.
    + intros H. destruct (Qeq_bool a v) eqn:E.
      * destruct (proj1 (occurrences_one v xs) ltac:(lia)) as [j [Hj Hv]].
        exists 0%nat, (S j). repeat split; [lia | simpl; lia | | exact Hv].
        simpl. now apply Qeq_bool_iff.
      * destruct (proj1 IH ltac:(lia)) as [i [j [Hij [Hi Hj]]]].
        exists (S i), (S j). repeat split; [lia | simpl; lia | |]; assumption.
    + intros [i [j [Hij [Hi Hj]]]].
      destruct j as [| j]; [lia |]. destruct i as [| i].
      * simpl in Hi. apply Qeq_bool_iff in Hi. rewrite Hi.
        assert (1 <= occurrences v xs)%nat
          by (apply occurrences_one; exists j; split;
              [simpl in Hij; lia | exact Hj]).
        lia.
      * assert (2 <= occurrences v xs)%nat
          by (apply IH; exists i, j; repeat split;
              [lia | simpl in Hij; lia | |]; assumption).
        lia.
Qed.

Lemma any_is_duplicated (xs : list Q) :
  any (is_duplicated xs) = true
  <-> exists v : Q, In v xs /\ (2 <= occurrences v xs)%nat.
Proof.
  unfold any, is_duplicated. rewrite existsb_exists. split.
  - intros [c [Hc Ht]]. apply in_map_iff in Hc.
    destruct Hc as [v [<- Hv]]. exists v. split; [exact Hv |].
    destruct (1 <? occurrences v xs)%nat eqn:E; [| discriminate].
    apply Nat.ltb_lt in E. lia.
  - intros [v [Hv Ho]]. exists (Some true). split; [| reflexivity].
    apply in_map_iff. exists v. split; [| exact Hv].
    f_equal. apply Nat.ltb_lt. lia.
Qed.

Lemma occurrences_compat (u v : Q) (xs : list Q) :
  u == v -> occurrences u xs = occurrences v xs.
Proof.
  intros H. unfold occurrences. f_equal. apply filter_ext.
  intros w. apply Qeq_bool_right. exact H.
Qed.

(** X17: [has_duplicate] is true exactly when two different positions of
    the series hold the same value. *)
Theorem has_duplicate_iff (xs : list Q) :
  has_duplicate xs = true
  <-> exists i j : nat,
      (i < j < length xs)%nat /\ nth i xs 0 == nth j xs 0.
Proof.
  unfold has_duplicate. rewrite any_is_duplicated. split.
  - intros [v [_ Ho]]. apply occurrences_two in Ho.
    destruct Ho as [i [j [Hij [Hi Hj]]]]. exists i, j.
    split; [exact Hij | now rewrite Hi, Hj].
  - intros [i [j [Hij He]]]. exists (nth j xs 0).
    split; [apply nth_In; lia |].
    apply occurrences_two. exists i, j.
    split; [lia | split; [exact He | reflexivity]].
Qed.

Lemma filter_eq_scalar (xs : list Q) (t : Q) :
  filter xs (eq_scalar (dense xs) (Some t))
  = List.filter (fun v => Qeq_bool v t) xs.
Proof.
  induction xs as [| a xs IH]; [reflexivity |].
  cbn [dense map eq_scalar lift2 filter List.filter].
  fold (dense xs). fold (eq_scalar (dense xs) (Some t)).
  rewrite IH. now destruct (Qeq_bool a t).
Qed.

Lemma filter_eq_scalar_missing (xs : list Q) :
  filter xs (eq_scalar (dense xs) None) = [].
Proof. induction xs as [| a xs IH]; [reflexivity | exact IH]. Qed.

Lemma has_duplicate_of_value_iff (xs : list Q) (t : Q) :
  _has_duplicate_of_value xs (Some t) = true
  <-> (2 <= occurrences t xs)%nat.
Proof.
  unfold _has_duplicate_of_value.
  rewrite filter_eq_scalar, any_is_duplicated.
  set (F := List.filter (fun v => Qeq_bool v t) xs).
  assert (HF : forall w, In w F -> occurrences w F = length F).
  { intros w Hw. unfold occurrences. f_equal.
    assert (Hwt : w == t)
      by (apply filter_In in Hw; now apply Qeq_bool_iff).
    clear Hw. subst F.
    induction xs as [| a xs IH]; [reflexivity |].
    simpl. destruct (Qeq_bool a t) eqn:E; [| exact IH].
    simpl. rewrite (Qeq_bool_right t w a Hwt), E. now rewrite IH. }
  change (occurrences t xs) with (length F). split.
  - intros [w [Hw Ho]]. now rewrite (HF w Hw) in Ho.
  - intros H. destruct F as [| w F'] eqn:EF; [simpl in H; lia |].
    exists w. split; [now left |]. rewrite HF by now left. exact H.
Qed.

(** X18: [has_duplicate_max] is true exactly when the largest value of
    the series stands at two different positions, and [has_duplicate_min]
    when the smallest does; each of them implies [has_duplicate], and both
    are false on the empty series. *)
Theorem has_duplicate_max_min (xs : list Q) :
  (has_duplicate_max xs = true
   <-> exists (i j : nat) (M : Q),
       (i < j < length xs)%nat /\ (forall v : Q, In v xs -> v <= M)
       /\ nth i xs 0 == M /\ nth j xs 0 == M)
  /\ (has_duplicate_min xs = true
      <-> exists (i j : nat) (M : Q),
          (i < j < length xs)%nat /\ (forall v : Q, In v xs -> M <= v)
          /\ nth i xs 0 == M /\ nth j xs 0 == M)
  /\ (has_duplicate_max xs = true -> has_duplicate xs = true)
  /\ (has_duplicate_min xs = true -> has_duplicate xs = true).
Proof.
  assert (Hmax : has_duplicate_max xs = true
                 <-> exists (i j : nat) (M : Q),
                     (i < j < length xs)%nat
                     /\ (forall v : Q, In v xs -> v <= M)
                     /\ nth i xs 0 == M /\ nth j xs 0 == M).
  { unfold has_duplicate_max.
    destruct (Qmaximum xs) as [M |] eqn:HM.
    - rewrite has_duplicate_of_value_iff, occurrences_two. split.
      + intros [i [j [Hij [Hi Hj]]]]. exists i, j, M.
        repeat split; try assumption; try lia.
        apply (Qmaximum_ge xs M HM).
      + intros [i [j [M' [Hij [Hge [Hi Hj]]]]]].
        assert (HMM : M' == M).
        { apply Qle_antisym.
          - rewrite <- Hi. apply (Qmaximum_ge xs M HM), nth_In. lia.
          - apply Hge, (Qmaximum_In xs M HM). }
        exists i, j. repeat split; try lia; now rewrite <- HMM.
    - destruct xs; [| simpl in HM; destruct (Qmaximum xs); discriminate].
      split; [discriminate |].
      intros [i [j [M [Hij _]]]]. simpl in Hij. lia. }
  assert (Hmin : has_duplicate_min xs = true
                 <-> exists (i j : nat) (M : Q),
                     (i < j < length xs)%nat
                     /\ (forall v : Q, In v xs -> M <= v)
                     /\ nth i xs 0 == M /\ nth j xs 0 == M).
  { unfold has_duplicate_min.
    destruct (Qminimum xs) as [M |] eqn:HM.
    - rewrite has_duplicate_of_value_iff, occurrences_two. split.
      + intros [i [j [Hij [Hi Hj]]]]. exists i, j, M.
        repeat split; try assumption; try lia.
        apply (Qminimum_le xs M HM).
      + intros [i [j [M' [Hij [Hle [Hi Hj]]]]]].
        assert (HMM : M' == M).
        { apply Qle_antisym.
          - apply Hle, (Qminimum_In xs M HM).
          - rewrite <- Hi. apply (Qminimum_le xs M HM), nth_In. lia. }
        exists i, j. repeat split; try lia; now rewrite <- HMM.
    - destruct xs; [| simpl in HM; destruct (Qminimum xs); discriminate].
      split; [discriminate |].
      intros [i [j [M [Hij _]]]]. simpl in Hij. lia. }
  split; [exact Hmax |]. split; [exact Hmin |].
  assert (Hdup : (exists i j : nat,
                     (i < j < length xs)%nat /\ nth i xs 0 == nth j xs 0)
                 -> has_duplicate xs = true).
  { unfold has_duplicate. rewrite any_is_duplicated.
    intros [i [j [Hij He]]]. exists (nth j xs 0).
    split; [apply nth_In; lia |].
    apply occurrences_two. exists i, j.
    split; [lia | split; [exact He | reflexivity]]. }
  split; intros H; apply Hdup.
  - apply Hmax in H. destruct H as [i [j [M [Hij [_ [Hi Hj]]]]]].
    exists i, j. split; [exact Hij | now rewrite Hi, Hj].
  - apply Hmin in H. destruct H as [i [j [M [Hij [_ [Hi Hj]]]]]].
    exists i, j. split; [exact Hij | now rewrite Hi, Hj].
Qed.

(** ** mean_n_absolute_max *)

Lemma Qinsert_desc_In (v w : Q) (l : list Q) :
  In w (Qinsert_desc v l) <-> w = v \/ In w l.
Proof.
  induction l as [| a l IH]; simpl.
  - intuition.
  - destruct (Qle_bool a v); simpl; [intuition |].
    rewrite IH. intuition.
Qed.

Lemma sort_desc_In (w : Q) (l : list Q) : In w (sort_desc l) <-> In w l.
Proof.
  induction l as [| a l IH]; simpl; [tauto |].
  unfold sort_desc in *. simpl. rewrite Qinsert_desc_In, IH. intuition.
Qed.

Lemma Qinsert_desc_length (v : Q) (l : list Q) :
  length (Qinsert_desc v l) = S (length l).
Proof.
  induction l as [| a l IH]; simpl; [reflexivity |].
  destruct (Qle_bool a v); simpl; [reflexivity | now rewrite IH].
Qed.

Lemma sort_desc_length (l : list Q) : length (sort_desc l) = length l.
Proof.
  induction l as [| a l IH]; [reflexivity |].
  unfold sort_desc in *. simpl. now rewrite Qinsert_desc_length, IH.
Qed.

(** The head of a list sorted downwards bounds the list. *)
Definition head_bounds (l : list Q) : Prop :=
  match l with
  | [] => True
  | h :: _ => forall w, In w l -> w <= h
  end.

Lemma Qinsert_desc_head (v : Q) (l : list Q) :
  head_bounds l -> head_bounds (Qinsert_desc v l).
Proof.
  destruct l as [| a l]; simpl.
  - intros _ w [<- | []]. apply Qle_refl.
  - intros H. destruct (Qle_bool a v) eqn:E.
    + apply Qle_bool_iff in E. intros w [<- | Hw]; [apply Qle_refl |].
      apply Qle_trans with a; [now apply H | exact E].
    + assert (Hva : v <= a).
      { destruct (Qlt_le_dec a v) as [Hlt | Hle]; [| exact Hle].
        apply Qlt_le_weak, Qle_bool_iff in Hlt. congruence. }
      intros w [<- | Hw]; [apply Qle_refl |].
      apply Qinsert_desc_In in Hw. destruct Hw as [-> | Hw]; [exact Hva |].
      apply H. now right.
Qed.

Lemma sort_desc_head (l : list Q) : head_bounds (sort_desc l).
Proof.
  induction l as [| a l IH]; [exact I |].
  unfold sort_desc in *. simpl. now apply Qinsert_desc_head.
Qed.

Lemma Qsum_between (l : list Q) (lo hi : Q) :
  (forall v, In v l -> lo <= v <= hi) ->
  Qnat (length l) * lo <= Qsum l /\ Qsum l <= Qnat (length l) * hi.
Proof.
  induction l as [| a l IH]; intros H.
  - unfold Qnat. simpl. split; ring_simplify; apply Qle_refl.
  - destruct (IH (fun v Hv => H v (or_intror Hv))) as [I1 I2].
    destruct (H a (or_introl eq_refl)) as [A1 A2].
    cbn [length Qsum fold_right]. fold (Qsum l).
    unfold Qnat in *. rewrite Nat2Z.inj_succ, <- Z.add_1_r, inject_Z_plus.
    split.
    + setoid_replace ((inject_Z (Z.of_nat (length l)) + inject_Z 1) * lo)
        with (lo + inject_Z (Z.of_nat (length l)) * lo) by ring.
      now apply Qplus_le_compat.
    + setoid_replace ((inject_Z (Z.of_nat (length l)) + inject_Z 1) * hi)
        with (hi + inject_Z (Z.of_nat (length l)) * hi) by ring.
      now apply Qplus_le_compat.
Qed.

Lemma In_firstn {A : Type} (n : nat) (l : list A) (v : A) :
  In v (firstn n l) -> In v l.
Proof.
  intros H. rewrite <- (firstn_skipn n l). apply in_or_app. now left.
Qed.

(** X19: [mean_n_absolute_max] raises ValueError for every [n_maxima <= 0]
    whatever the series, and returns None as soon as the series has no
    more than [n_maxima] values, also when it has exactly [n_maxima]. *)
Theorem mean_n_absolute_max_edges (x : list Q) (n_maxima : Z) :
  ((n_maxima <= 0)%Z -> mean_n_absolute_max x n_maxima = Raise ValueError)
  /\ ((0 < n_maxima)%Z -> (Z.of_nat (length x) <= n_maxima)%Z ->
      mean_n_absolute_max x n_maxima = Ok None).
Proof.
  unfold mean_n_absolute_max, len. split.
  - intros H. apply Z.leb_le in H. now rewrite H.
  - intros H0 H1.
    destruct (n_maxima <=? 0)%Z eqn:E; [apply Z.leb_le in E; lia |].
    destruct (n_maxima <? Z.of_nat (length x))%Z eqn:E';
      [apply Z.ltb_lt in E'; lia | reflexivity].
Qed.

Lemma mean_n_absolute_max_edges_witness :
  mean_n_absolute_max [1; 2; 3] 0 = Raise ValueError
  /\ mean_n_absolute_max [1; 2; 3] 3 = Ok None.
Proof.
  split.
  - apply (proj1 (mean_n_absolute_max_edges [1; 2; 3] 0)). lia.
  - apply (proj2 (mean_n_absolute_max_edges [1; 2; 3] 3)); simpl; lia.
Defined.

(** X20, in exact arithmetic (the mean taken without rounding): for
    [0 < n_maxima < len(x)] the result is a number between 0 and the
    largest absolute value of the series, and for [n_maxima = 1] it is
    that largest absolute value. *)
Theorem mean_n_absolute_max_bounds (x : list Q) (n_maxima : Z) :
  (0 < n_maxima < Z.of_nat (length x))%Z ->
  exists m M : Q,
    mean_n_absolute_max x n_maxima = Ok (Some m)
    /\ absolute_maximum (dense x) = Some M
    /\ 0 <= m /\ m <= M
    /\ (n_maxima = 1%Z -> m == M).
Proof.
  intros Hn. unfold mean_n_absolute_max, len, absolute_maximum, max.
  destruct (n_maxima <=? 0)%Z eqn:E; [apply Z.leb_le in E; lia |].
  destruct (n_maxima <? Z.of_nat (length x))%Z eqn:E';
    [| apply Z.ltb_ge in E'; lia].
  rewrite drop_nulls_abs, drop_nulls_dense.
  set (A := map Qabs x).
  assert (HA : A <> [])
    by (subst A; destruct x; [simpl in Hn; lia | discriminate]).
  destruct (Qmaximum_some A HA) as [M HM].
  set (F := firstn (Z.to_nat n_maxima) (sort_desc A)).
  assert (HlenF : length F = Z.to_nat n_maxima).
  { subst F. rewrite length_firstn, sort_desc_length.
    subst A. rewrite length_map. lia. }
  assert (HF : F <> [])
    by (intros EF; rewrite EF in HlenF; simpl in HlenF; lia).
  rewrite (mean_dense_value F HF).
  assert (Hin : forall v, In v F -> 0 <= v <= M).
  { intros v Hv. subst F. apply In_firstn in Hv.
    apply (proj1 (sort_desc_In v A)) in Hv.
    split; [| now apply (Qmaximum_ge A M HM)].
    subst A. apply in_map_iff in Hv. destruct Hv as [u [<- _]].
    apply Qabs_nonneg. }
  destruct (Qsum_between F 0 M Hin) as [S1 S2].
  assert (Hpos : 0 < Qnat (length F)) by (apply Qnat_pos; lia).
  exists (Qsum F / Qnat (length F)), M.
  split; [reflexivity |]. split; [exact HM |]. split; [| split].
  - apply Qle_shift_div_l; [exact Hpos |].
    setoid_replace (0 * Qnat (length F)) with (Qnat (length F) * 0) by ring.
    exact S1.
  - apply Qle_shift_div_r; [exact Hpos |].
    setoid_replace (M * Qnat (length F)) with (Qnat (length F) * M) by ring.
    exact S2.
  - intros ->. subst F. change (Z.to_nat 1) with 1%nat in *.
    pose proof (sort_desc_head A) as Hh.
    pose proof (sort_desc_length A) as Hl.
    destruct (sort_desc A) as [| h S] eqn:ES.
    { simpl in Hl. destruct A; [congruence | discriminate]. }
    cbn [firstn length Qsum fold_right].
    assert (Hh_in : In h A) by (apply sort_desc_In; rewrite ES; now left).
    assert (HhM : h == M).
    { apply Qle_antisym; [now apply (Qmaximum_ge A M HM) |].
      apply Hh. rewrite <- ES. apply sort_desc_In, (Qmaximum_In A M HM). }
    rewrite HhM. unfold Qnat. simpl. field.
Qed.

Lemma mean_n_absolute_max_bounds_witness :
  exists m M : Q,
    mean_n_absolute_max [1; - (4); 3] 2 = Ok (Some m)
    /\ absolute_maximum (dense [1; - (4); 3]) = Some M
    /\ 0 <= m /\ m <= M
    /\ (2%Z = 1%Z -> m == M).
Proof. apply (mean_n_absolute_max_bounds [1; - (4); 3] 2). simpl; lia. Defined.

(** ** value_counts: the table of distinct values and their counts *)

Section ValueCounts.

Let table : Type := list (Q * nat).

Fixpoint keys_distinct (acc : table) : Prop :=
  match acc with
  | [] => True
  | (k, _) :: r => (forall kc, In kc r -> ~ fst kc == k) /\ keys_distinct r
  end.

(** The table is right for the values seen so far: its keys are pairwise
    different, every count is the number of occurrences of its key, and
    every value seen has a key. *)
Definition counts_of (acc : table) (seen : list Q) : Prop :=
  keys_distinct acc
  /\ (forall kc, In kc acc ->
                 snd kc = occurrences (fst kc) seen /\ In (fst kc) seen)
  /\ (forall v, In v seen -> exists kc, In kc acc /\ fst kc == v).

Lemma occurrences_app (k v : Q) (seen : list Q) :
  occurrences k (seen ++ [v])
  = (occurrences k seen + if Qeq_bool v k then 1 else 0)%nat.
Proof.
  unfold occurrences. rewrite filter_app, length_app. simpl.
  now destruct (Qeq_bool v k).
Qed.

Lemma occurrences_zero (k : Q) (seen : list Q) :
  (forall w, In w seen -> ~ w == k) -> occurrences k seen = 0%nat.
Proof.
  intros H. induction seen as [| a seen IH]; [reflexivity |].
  rewrite occurrences_cons. rewrite IH by (intros w Hw; apply H; now right).
  destruct (Qeq_bool a k) eqn:E; [| reflexivity].
  apply Qeq_bool_iff in E. exfalso. apply (H a); [now left | exact E].
Qed.

Lemma bump_cases (v : Q) (acc : table) :
  (exists pre j c post,
      acc = pre ++ (j, c) :: post
      /\ j == v
      /\ (forall kc, In kc pre -> ~ fst kc == v)
      /\ bump Qeq_bool v acc = pre ++ (j, S c) :: post)
  \/ ((forall kc, In kc acc -> ~ fst kc == v)
      /\ bump Qeq_bool v acc = acc ++ [(v, 1%nat)]).
Proof.
  induction acc as [| [j c] acc IH].
  - right. split; [intros kc [] | reflexivity].
  - simpl. destruct (Qeq_bool j v) eqn:E.
    + left. exists [], j, c, acc. repeat split.
      * now apply Qeq_bool_iff.
      * intros kc [].
    + assert (Hj : ~ j == v)
        by (intros H; apply Qeq_bool_iff in H; congruence).
      destruct IH as [[pre [j' [c' [post [Hacc [Hj' [Hpre Hb]]]]]]]
                     | [Hnone Hb]].
      * left. exists ((j, c) :: pre), j', c', post. repeat split.
        -- now rewrite Hacc.
        -- exact Hj'.
        -- intros kc [<- | Hkc]; [exact Hj | now apply Hpre].
        -- now rewrite Hb.
      * right. split; [| now rewrite Hb].
        intros kc [<- | Hkc]; [exact Hj | now apply Hnone].
Qed.

Lemma keys_distinct_app (a b : table) :
  keys_distinct (a ++ b)
  <-> keys_distinct a /\ keys_distinct b
      /\ forall ka kb, In ka a -> In kb b -> ~ fst kb == fst ka.
Proof.
  induction a as [| [k c] a IH]; simpl.
  - intuition.
  - rewrite IH. split.
    + intros [H1 [H2 [H3 H4]]]. repeat split; try assumption.
      * intros kc Hkc. apply H1, in_or_app. now left.
      * intros ka kb [<- | Hka] Hkb; [| now apply H4].
        simpl. apply H1, in_or_app. now right.
    + intros [[H1 H2] [H3 H4]]. repeat split; try assumption.
      * intros kc Hkc. apply in_app_or in Hkc. destruct Hkc as [Hkc | Hkc].
        -- now apply H1.
        -- apply (H4 (k, c) kc); [now left | exact Hkc].
      * intros ka kb Hka Hkb. apply H4; [now right | exact Hkb].
Qed.

Lemma counts_of_bump (v : Q) (acc : table) (seen : list Q) :
  counts_of acc seen -> counts_of (bump Qeq_bool v acc) (seen ++ [v]).
Proof.
  intros [Hd [Hc Hs]].
  destruct (bump_cases v acc)
    as [[pre [j [c [post [Hacc [Hj [Hpre Hb]]]]]]] | [Hnone Hb]];
    rewrite Hb.
  - subst acc.
    apply keys_distinct_app in Hd. destruct Hd as [Hd1 [Hd2 Hd3]].
    simpl in Hd2. destruct Hd2 as [Hd2 Hd4].
    assert (Hother : forall kc, In kc (pre ++ post) -> ~ fst kc == v).
    { intros kc Hkc H. apply in_app_or in Hkc. destruct Hkc as [Hkc | Hkc].
      - now apply (Hpre kc).
      - apply (Hd2 kc Hkc). now rewrite H, Hj. }
    split; [| split].
    + apply keys_distinct_app. repeat split; try assumption.
      intros ka kb Hka [<- | Hkb].
      * simpl. apply (Hd3 ka (j, c) Hka). now left.
      * apply (Hd3 ka kb Hka). now right.
    + intros kc Hkc. apply in_app_or in Hkc.
      rewrite occurrences_app.
      destruct Hkc as [Hkc | [<- | Hkc]].
      * destruct (Hc kc (in_or_app _ _ _ (or_introl Hkc))) as [E Hin].
        split; [| apply in_or_app; now left].
        replace (Qeq_bool v (fst kc)) with false; [lia |].
        symmetry. destruct (Qeq_bool v (fst kc)) eqn:Ev; [| reflexivity].
        apply Qeq_bool_iff in Ev. exfalso.
        apply (Hother kc); [apply in_or_app; now left | now symmetry].
      * destruct (Hc (j, c) (in_or_app pre ((j, c) :: post) (j, c)
                              (or_intror (in_eq _ _))))
          as [E Hin].
        simpl in *. split; [| apply in_or_app; now left].
        replace (Qeq_bool v j) with true; [lia |].
        symmetry. apply Qeq_bool_iff. now symmetry.
      * destruct (Hc kc (in_or_app pre ((j, c) :: post) kc
                          (or_intror (in_cons _ _ _ Hkc))))
          as [E Hin].
        split; [| apply in_or_app; now left].
        replace (Qeq_bool v (fst kc)) with false; [lia |].
        symmetry. destruct (Qeq_bool v (fst kc)) eqn:Ev; [| reflexivity].
        apply Qeq_bool_iff in Ev. exfalso.
        apply (Hother kc); [apply in_or_app; now right | now symmetry].
    + intros w Hw. apply in_app_or in Hw. destruct Hw as [Hw | [<- | []]].
      * destruct (Hs w Hw) as [kc [Hkc Hk]].
        apply in_app_or in Hkc. destruct Hkc as [Hkc | [<- | Hkc]].
        -- exists kc. split; [apply in_or_app; now left | exact Hk].
        -- exists (j, S c). split; [| exact Hk].
           apply in_or_app. right. now left.
        -- exists kc. split; [| exact Hk].
           apply in_or_app. right. now right.
      * exists (j, S c). split; [| exact Hj].
        apply in_or_app. right. now left.
  - split; [| split].
    + apply keys_distinct_app. repeat split; try assumption.
      * intros kc [].
      * intros ka kb Hka [<- | []]. simpl. intros H.
        apply (Hnone ka Hka). now symmetry.
    + intros kc Hkc. apply in_app_or in Hkc.
      rewrite occurrences_app.
      destruct Hkc as [Hkc | [<- | []]].
      * destruct (Hc kc Hkc) as [E Hin].
        split; [| apply in_or_app; now left].
        replace (Qeq_bool v (fst kc)) with false; [lia |].
        symmetry. destruct (Qeq_bool v (fst kc)) eqn:Ev; [| reflexivity].
        apply Qeq_bool_iff in Ev. exfalso.
        apply (Hnone kc Hkc). now symmetry.
      * simpl. split; [| apply in_or_app; right; now left].
        rewrite occurrences_zero.
        -- replace (Qeq_bool v v) with true; [reflexivity |].
           symmetry. apply Qeq_bool_iff. reflexivity.
        -- intros w Hw Hwv. destruct (Hs w Hw) as [kc [Hkc Hk]].
           apply (Hnone kc Hkc). now rewrite Hk.
    + intros w Hw. apply in_app_or in Hw. destruct Hw as [Hw | [<- | []]].
      * destruct (Hs w Hw) as [kc [Hkc Hk]].
        exists kc. split; [apply in_or_app; now left | exact Hk].
      * exists (v, 1%nat). split; [| reflexivity].
        apply in_or_app. right. now left.
Qed.

Lemma counts_of_fold (l : list Q) (acc : table) (seen : list Q) :
  counts_of acc seen ->
  counts_of (fold_left (fun a k => bump Qeq_bool k a) l acc) (seen ++ l).
Proof.
  revert acc seen. induction l as [| v l IH]; intros acc seen H.
  - now rewrite app_nil_r.
  - simpl. replace (seen ++ v :: l) with ((seen ++ [v]) ++ l)
      by (rewrite <- app_assoc; reflexivity).
    apply IH, counts_of_bump, H.
Qed.

Lemma counts_of_tally (xs : list Q) : counts_of (tally Qeq_bool xs) xs.
Proof.
  unfold tally. apply (counts_of_fold xs [] []).
  split; [exact I |]. split; [intros kc [] | intros v []].
Qed.

End ValueCounts.

(** Some value is counted more than once exactly when the series has a
    duplicate. *)
Lemma tally_repeated_iff (xs : list Q) :
  (exists kc, In kc (tally Qeq_bool xs) /\ (1 < snd kc)%nat)
  <-> has_duplicate xs = true.
Proof.
  destruct (counts_of_tally xs) as [_ [Hc Hs]].
  unfold has_duplicate. rewrite any_is_duplicated. split.
  - intros [kc [Hkc H1]]. destruct (Hc kc Hkc) as [E Hin].
    exists (fst kc). split; [exact Hin | lia].
  - intros [v [Hv Ho]]. destruct (Hs v Hv) as [kc [Hkc Hk]].
    exists kc. split; [exact Hkc |].
    destruct (Hc kc Hkc) as [E _].
    rewrite E, (occurrences_compat _ _ xs Hk). lia.
Qed.

(** ** percent_recoccuring_values, percent_reocurring_points *)

Definition count_row (vc : Q * nat) : list Q := [fst vc; Qnat (snd vc)].

Definition repeated (xs : list Q) : list (Q * nat) :=
  List.filter (fun vc => (1 <? snd vc)%nat) (tally Qeq_bool xs).

Lemma filter_map_comm {A B : Type} (p : B -> bool) (f : A -> B)
      (l : list A) :
  List.filter p (map f l) = map f (List.filter (fun a => p (f a)) l).
Proof.
  induction l as [| a l IH]; [reflexivity |].
  simpl. destruct (p (f a)); simpl; now rewrite IH.
Qed.

Lemma Qlt_bool_Qnat (c : nat) : Qlt_bool 1 (Qnat c) = (1 <? c)%nat.
Proof.
  destruct (1 <? c)%nat eqn:E.
  - apply Nat.ltb_lt in E. apply Qlt_bool_true_iff.
    unfold Qnat. change 1 with (inject_Z 1). rewrite <- Zlt_Qlt. lia.
  - apply Nat.ltb_ge in E. apply Qlt_bool_false_iff.
    unfold Qnat. change 1 with (inject_Z 1). rewrite <- Zle_Qle. lia.
Qed.

Lemma filtered_value_counts (xs : list Q) :
  Frame.filter_gt (Frame.value_counts xs) "counts" 1
  = Ok {| Frame.columns := [""%string; "counts"%string];
          Frame.rows := map count_row (repeated xs) |}.
Proof.
  unfold Frame.filter_gt, Frame.value_counts, repeated.
  cbn [Frame.columns Frame.index_of String.eqb Ascii.eqb Bool.eqb
       option_map Frame.rows].
  f_equal. f_equal.
  change (fun vc : Q * nat => [fst vc; Qnat (snd vc)]) with count_row.
  rewrite filter_map_comm. f_equal. apply filter_ext.
  intros vc. cbn [count_row nth]. apply Qlt_bool_Qnat.
Qed.

Lemma tally_nonempty (xs : list Q) : xs <> [] -> tally Qeq_bool xs <> [].
Proof.
  intros Hx E. pose proof (tally_sum Qeq_bool xs) as Hs.
  rewrite E in Hs. simpl in Hs. destruct xs; [congruence | discriminate].
Qed.

Lemma repeated_empty_iff (xs : list Q) :
  repeated xs = [] <-> has_duplicate xs = false.
Proof.
  rewrite <- Bool.not_true_iff_false, <- tally_repeated_iff.
  unfold repeated. split.
  - intros E [kc [Hkc H1]].
    assert (Hin : In kc (List.filter (fun vc => (1 <? snd vc)%nat)
                                     (tally Qeq_bool xs)))
      by (apply filter_In; split; [exact Hkc | now apply Nat.ltb_lt]).
    rewrite E in Hin. destruct Hin.
  - intros H.
    destruct (List.filter _ (tally Qeq_bool xs)) as [| kc r] eqn:E;
      [reflexivity |].
    exfalso. apply H. exists kc.
    assert (Hin : In kc (List.filter (fun vc => (1 <? snd vc)%nat)
                                     (tally Qeq_bool xs)))
      by (rewrite E; now left).
    apply filter_In in Hin. destruct Hin as [Hin H1].
    split; [exact Hin | now apply Nat.ltb_lt].
Qed.

(** X21: [percent_recoccuring_values] raises ZeroDivisionError on the
    empty series; on any other series it is a number between 0 and 1,
    and it is 0 exactly when no value occurs twice. *)
Theorem percent_recoccuring_values_range (xs : list Q) :
  (xs = [] -> percent_recoccuring_values xs = Raise ZeroDivisionError)
  /\ (xs <> [] ->
      exists p : Q,
        percent_recoccuring_values xs = Ok p
        /\ 0 <= p /\ p <= 1
        /\ (p == 0 <-> has_duplicate xs = false)).
Proof.
  split; [intros ->; reflexivity |].
  intros Hx. unfold percent_recoccuring_values.
  rewrite filtered_value_counts. cbn [bind Frame.shape Frame.rows fst].
  rewrite length_map. unfold Frame.n_unique, py_truediv.
  pose proof (tally_nonempty xs Hx) as Ht.
  assert (Hn : (0 < length (tally Qeq_bool xs))%nat)
    by (destruct (tally Qeq_bool xs); [congruence | simpl; lia]).
  destruct (Z.of_nat (length (tally Qeq_bool xs)) =? 0)%Z eqn:E;
    [apply Z.eqb_eq in E; lia |].
  fold (Qnat (length (tally Qeq_bool xs))).
  assert (Hle : (length (repeated xs) <= length (tally Qeq_bool xs))%nat)
    by apply List.filter_length_le.
  pose proof (Qnat_pos _ Hn) as Hpos.
  eexists. split; [reflexivity |]. split; [| split].
  - apply Qle_shift_div_l; [exact Hpos |].
    setoid_replace (0 * Qnat (length (tally Qeq_bool xs))) with 0 by ring.
    apply Qnat_nonneg.
  - apply Qle_shift_div_r; [exact Hpos |].
    setoid_replace (1 * Qnat (length (tally Qeq_bool xs)))
      with (Qnat (length (tally Qeq_bool xs))) by ring.
    unfold Qnat. rewrite <- Zle_Qle. lia.
  - rewrite <- repeated_empty_iff. split.
    + intros H.
      assert (Hz : Qnat (length (repeated xs)) == 0).
      { setoid_replace (Qnat (length (repeated xs)))
          with (Qnat (length (repeated xs))
                / Qnat (length (tally Qeq_bool xs))
                * Qnat (length (tally Qeq_bool xs)))
          by (field; intros H0; rewrite H0 in Hpos;
              now apply Qlt_irrefl in Hpos).
        rewrite H. ring. }
      apply Qnat_zero_iff in Hz.
      now destruct (repeated xs).
    + intros ->. unfold Qnat. simpl. unfold Qdiv. ring.
Qed.

Lemma percent_recoccuring_values_range_witness :
  percent_recoccuring_values [] = Raise ZeroDivisionError
  /\ exists p : Q,
      percent_recoccuring_values [1; 2; 2; 3] = Ok p
      /\ 0 <= p /\ p <= 1
      /\ (p == 0 <-> has_duplicate [1; 2; 2; 3] = false).
Proof.
  split.
  - apply (proj1 (percent_recoccuring_values_range [])). reflexivity.
  - apply (proj2 (percent_recoccuring_values_range [1; 2; 2; 3])).
    discriminate.
Defined.

Definition key_hit (a : Q) (kc : Q * nat) : nat :=
  if Qeq_bool a (fst kc) then 1%nat else 0%nat.

Lemma no_key_matches (T : list (Q * nat)) (a : Q) :
  (forall kc, In kc T -> ~ fst kc == a) ->
  list_sum (map (key_hit a) T) = 0%nat.
Proof.
  induction T as [| kc T IH]; intros H; [reflexivity |].
  change (list_sum (map (key_hit a) (kc :: T)))
    with (key_hit a kc + list_sum (map (key_hit a) T))%nat.
  rewrite IH by (intros kc' Hk; apply H; now right).
  unfold key_hit. destruct (Qeq_bool a (fst kc)) eqn:E; [| reflexivity].
  apply Qeq_bool_iff in E. exfalso.
  apply (H kc); [now left | now symmetry].
Qed.

Lemma one_key_matches (T : list (Q * nat)) (a : Q) :
  keys_distinct T ->
  (exists kc, In kc T /\ fst kc == a) ->
  list_sum (map (key_hit a) T) = 1%nat.
Proof.
  induction T as [| [k c] T IH]; intros Hd [kc [Hin Hk]]; [destruct Hin |].
  destruct Hd as [Hd1 Hd2].
  change (list_sum (map (key_hit a) ((k, c) :: T)))
    with ((if Qeq_bool a k then 1 else 0)
          + list_sum (map (key_hit a) T))%nat.
  destruct (Qeq_bool a k) eqn:E.
  - apply Qeq_bool_iff in E. rewrite no_key_matches; [reflexivity |].
    intros kc' Hk' H. apply (Hd1 kc' Hk'). now rewrite H, E.
  - destruct Hin as [<- | Hin].
    + simpl in Hk. symmetry in Hk. apply Qeq_bool_iff in Hk. congruence.
    + rewrite IH; [reflexivity | exact Hd2 | now exists kc].
Qed.

Lemma list_sum_map_add {A : Type} (f g : A -> nat) (l : list A) :
  list_sum (map (fun a => f a + g a)%nat l)
  = (list_sum (map f l) + list_sum (map g l))%nat.
Proof. induction l as [| a l IH]; simpl; lia. Qed.

Lemma list_sum_zero {A : Type} (l : list A) :
  list_sum (map (fun _ => 0%nat) l) = 0%nat.
Proof. induction l as [| a l IH]; [reflexivity | exact IH]. Qed.

(** Counting the values that satisfy [q], key by key. *)
Lemma count_by_key (T : list (Q * nat)) (q : Q -> bool) (ys : list Q) :
  keys_distinct T ->
  (forall v, In v ys -> exists kc, In kc T /\ fst kc == v) ->
  length (List.filter q ys)
  = list_sum
      (map (fun kc =>
              length (List.filter
                        (fun x => Qeq_bool x (fst kc) && q x) ys)) T).
Proof.
  intros Hd. induction ys as [| a ys IH]; intros Hs.
  - cbn [List.filter length]. now rewrite list_sum_zero.
  - specialize (IH (fun v Hv => Hs v (or_intror Hv))).
    pose proof (one_key_matches T a Hd (Hs a (or_introl eq_refl))) as H1.
    rewrite (map_ext
               (fun kc =>
                  length (List.filter
                            (fun x => Qeq_bool x (fst kc) && q x) (a :: ys)))
               (fun kc =>
                  (if Qeq_bool a (fst kc) && q a then 1 else 0)
                  + length (List.filter
                              (fun x => Qeq_bool x (fst kc) && q x) ys))%nat)
      by (intros kc; simpl; now destruct (Qeq_bool a (fst kc) && q a)).
    rewrite list_sum_map_add, <- IH. simpl.
    destruct (q a).
    + rewrite (map_ext _ (key_hit a))
        by (intros kc; unfold key_hit; now rewrite andb_true_r).
      rewrite H1. reflexivity.
    + rewrite (map_ext _ (fun _ => 0%nat))
        by (intros kc; now rewrite andb_false_r).
      now rewrite list_sum_zero.
Qed.

Lemma sum_mask_map (f : Q -> bool) (l : list Q) :
  sum_mask (map (fun v => Some (f v)) l) = length (List.filter f l).
Proof.
  induction l as [| a l IH]; [reflexivity |].
  simpl. destruct (f a); simpl; now rewrite IH.
Qed.

Lemma list_sum_filter_counts (T : list (Q * nat)) :
  list_sum (map snd (List.filter (fun vc => (1 <? snd vc)%nat) T))
  = list_sum (map (fun kc => if (1 <? snd kc)%nat then snd kc else 0%nat) T).
Proof.
  induction T as [| kc T IH]; [reflexivity |].
  simpl. destruct (1 <? snd kc)%nat; simpl; now rewrite IH.
Qed.

(** The counts of the repeated values add up to the number of positions
    whose value occurs more than once. *)
Lemma repeated_points (xs : list Q) :
  list_sum (map snd (repeated xs)) = sum_mask (is_duplicated xs).
Proof.
  destruct (counts_of_tally xs) as [Hd [Hc Hs]].
  unfold is_duplicated, repeated.
  rewrite (sum_mask_map (fun v => (1 <? occurrences v xs)%nat) xs).
  rewrite (count_by_key (tally Qeq_bool xs) _ xs Hd Hs).
  rewrite list_sum_filter_counts. f_equal. apply map_ext_in.
  intros kc Hkc. destruct (Hc kc Hkc) as [E _].
  rewrite (filter_ext
             (fun x => Qeq_bool x (fst kc) && (1 <? occurrences x xs)%nat)
             (fun x => if (1 <? snd kc)%nat
                       then Qeq_bool x (fst kc) else false)).
  - destruct (1 <? snd kc)%nat; [exact E |].
    clear. induction xs; simpl; auto.
  - intros x. destruct (Qeq_bool x (fst kc)) eqn:Ex.
    + apply Qeq_bool_iff in Ex.
      rewrite (occurrences_compat _ _ xs Ex), <- E. cbn [andb].
      now destruct (1 <? snd kc)%nat.
    + cbn [andb]. now destruct (1 <? snd kc)%nat.
Qed.

Lemma Qsum_Qnat (l : list nat) : Qsum (map Qnat l) == Qnat (list_sum l).
Proof.
  induction l as [| a l IH]; [reflexivity |].
  cbn [map Qsum fold_right list_sum]. fold (Qsum (map Qnat l)).
  now rewrite IH, Qnat_plus.
Qed.

Lemma percent_reocurring_points_value (xs : list Q) :
  xs <> [] ->
  exists p : Q,
    percent_reocurring_points xs = Ok p
    /\ p == Qnat (list_sum (map snd (repeated xs))) / Qnat (length xs).
Proof.
  intros Hx. unfold percent_reocurring_points.
  rewrite filtered_value_counts. cbn [bind].
  unfold Frame.item_at, Frame.get_column, Frame.sum.
  cbn [Frame.columns Frame.index_of String.eqb Ascii.eqb Bool.eqb
       option_map length seq map Frame.column_at Frame.rows nth bind].
  change (getitem [Qsum (Frame.column_at 1
                           {| Frame.columns := [""%string; "counts"%string];
                              Frame.rows := map count_row (repeated xs) |})]
                  0)
    with (Ok (Qsum (map (fun r => nth 1 r 0)
                        (map count_row (repeated xs))))).
  cbn [bind]. unfold py_truediv, len.
  destruct (Z.of_nat (length xs) =? 0)%Z eqn:E.
  { apply Z.eqb_eq in E. destruct xs; [congruence | discriminate]. }
  eexists. split; [reflexivity |].
  rewrite map_map. cbn [count_row nth].
  rewrite <- (map_map snd Qnat), Qsum_Qnat. reflexivity.
Qed.

Lemma sum_mask_pos (m : mask) : In (Some true) m -> (1 <= sum_mask m)%nat.
Proof.
  induction m as [| b m IH]; [intros [] |]. intros [H | H]; simpl.
  - subst b. lia.
  - specialize (IH H). destruct b as [[|] |]; lia.
Qed.

(** X22: when some value of the series repeats, [percent_reocurring_points]
    is the number of positions whose value occurs more than once over the
    length of the series, a number above 0 and at most 1. *)
Theorem percent_reocurring_points_of_duplicates (xs : list Q) :
  has_duplicate xs = true ->
  exists p : Q,
    percent_reocurring_points xs = Ok p
    /\ p == Qnat (sum_mask (is_duplicated xs)) / Qnat (length xs)
    /\ 0 < p /\ p <= 1.
Proof.
  intros Hd.
  assert (Hx : xs <> []) by (intros ->; discriminate Hd).
  destruct (percent_reocurring_points_value xs Hx) as [p [Hp Hv]].
  rewrite repeated_points in Hv.
  exists p. split; [exact Hp |]. split; [exact Hv |].
  pose proof (length_pos xs Hx) as Hn.
  pose proof (Qnat_pos _ Hn) as Hpos.
  assert (Hle : (sum_mask (is_duplicated xs) <= length xs)%nat).
  { unfold is_duplicated. rewrite sum_mask_map.
    apply List.filter_length_le. }
  assert (Hge : (1 <= sum_mask (is_duplicated xs))%nat).
  { unfold has_duplicate, any in Hd. apply existsb_exists in Hd.
    destruct Hd as [c [Hc Ht]]. destruct c as [[|] |]; try discriminate.
    now apply sum_mask_pos. }
  rewrite Hv. split.
  - apply Qlt_shift_div_l; [exact Hpos |].
    setoid_replace (0 * Qnat (length xs)) with 0 by ring.
    apply Qnat_pos. lia.
  - apply Qle_shift_div_r; [exact Hpos |].
    setoid_replace (1 * Qnat (length xs)) with (Qnat (length xs)) by ring.
    unfold Qnat. rewrite <- Zle_Qle. lia.
Qed.

Lemma percent_reocurring_points_of_duplicates_witness :
  exists p : Q,
    percent_reocurring_points [2; 2; 2; 2; 1] = Ok p
    /\ p == Qnat (sum_mask (is_duplicated [2; 2; 2; 2; 1])) / Qnat 5
    /\ 0 < p /\ p <= 1.
Proof.
  apply (percent_reocurring_points_of_duplicates [2; 2; 2; 2; 1]).
  reflexivity.
Defined.

(** ** time_reversal_asymmetry_statistic *)

Lemma shift_left {A : Type} (l : nat) (x : list (option A)) :
  shift (- Z.of_nat l) x
  = skipn l x ++ repeat None (Nat.min l (length x)).
Proof.
  unfold shift, shift_and_fill. destruct l as [| l].
  - cbn [Z.of_nat Z.opp Z.leb Z.compare Z.to_nat repeat app skipn Nat.min].
    rewrite app_nil_r. apply firstn_all.
  - replace (0 <=? - Z.of_nat (S l))%Z with false
      by (symmetry; apply Z.leb_gt; lia).
    rewrite Z.opp_involutive, Nat2Z.id. reflexivity.
Qed.

Lemma drop_nulls_zip_l {A B C : Type} (f : A -> B -> C)
      (a : list (option A)) (b : list (option B)) :
  drop_nulls a = [] -> drop_nulls (zip_with (lift2 f) a b) = [].
Proof.
  revert b. induction a as [| [u |] a IH]; intros [| v b] H;
    try reflexivity; try discriminate.
  simpl. now apply IH.
Qed.

Lemma drop_nulls_firstn {A : Type} (k : nat) (x : list (option A)) :
  drop_nulls x = [] -> drop_nulls (firstn k x) = [].
Proof.
  revert k. induction x as [| [u |] x IH]; intros [| k] H;
    try reflexivity; try discriminate.
  simpl. now apply IH.
Qed.

Lemma drop_nulls_repeat_none {A : Type} (p : nat) :
  drop_nulls (repeat (@None A) p) = [].
Proof. induction p as [| p IH]; [reflexivity | exact IH]. Qed.

Lemma mean_no_value (x : series) : drop_nulls x = [] -> mean x = None.
Proof. unfold mean. now intros ->. Qed.

(** X23: with a lag [lag >= 0] and no more than [2 * lag] cells, the
    statistic is missing, whatever the series holds. *)
Theorem time_reversal_asymmetry_statistic_short (x : series) (lag : Z) :
  (0 <= lag)%Z -> (Z.of_nat (length x) <= 2 * lag)%Z ->
  time_reversal_asymmetry_statistic x lag = None.
Proof.
  intros H0 Hn. unfold time_reversal_asymmetry_statistic.
  apply mean_no_value. unfold head.
  assert (Htwo : drop_nulls (shift (- 2 * lag) x) = []).
  { replace (- 2 * lag)%Z with (- Z.of_nat (Z.to_nat (2 * lag)))%Z by lia.
    assert (Hlen : (length x <= Z.to_nat (2 * lag))%nat)
      by (unfold series, cell in *; lia).
    rewrite shift_left. rewrite skipn_all2 by exact Hlen.
    apply drop_nulls_repeat_none. }
  assert (Hs : drop_nulls
                 (minus (times (times (shift (- 2 * lag) x)
                                      (shift (- 2 * lag) x))
                               (shift (- lag) x))
                        (times (times (shift (- lag) x) x) x)) = []).
  { unfold minus, times. now repeat apply drop_nulls_zip_l. }
  destruct (Z.of_nat (len x) - 2 * lag <? 0)%Z; now apply drop_nulls_firstn.
Qed.

Lemma time_reversal_asymmetry_statistic_short_witness :
  time_reversal_asymmetry_statistic (dense [1; 2; 3; 4]) 2 = None.
Proof.
  apply (time_reversal_asymmetry_statistic_short (dense [1; 2; 3; 4]) 2);
    simpl; lia.
Defined.

(** Two series with values first and missing cells after: their
    elementwise combination, when the first has no more values than the
    second and no more cells. *)
Lemma zip_with_padded (f : Q -> Q -> Q) (a b : list Q) (p q : nat) :
  (length a <= length b)%nat ->
  (length a + p <= length b + q)%nat ->
  zip_with (lift2 f) (dense a ++ repeat None p) (dense b ++ repeat None q)
  = dense (zip_with f a b) ++ repeat None p.
Proof.
  revert b p q. induction a as [| u a IH]; intros b p q Hab Hpq.
  - cbn [dense map app zip_with].
    clear Hab. revert b q Hpq. induction p as [| p IH]; intros b q Hpq;
      [reflexivity |].
    destruct b as [| v b].
    + destruct q as [| q]; [simpl in Hpq; lia |].
      cbn [dense map app repeat zip_with lift2]. f_equal.
      apply (IH [] q). simpl in *. lia.
    + cbn [dense map app repeat zip_with lift2]. f_equal.
      apply (IH b q). simpl in *. lia.
  - destruct b as [| v b]; [simpl in Hab; lia |].
    change (Some (f u v)
              :: zip_with (lift2 f) (dense a ++ repeat None p)
                          (dense b ++ repeat None q)
            = Some (f u v) :: (dense (zip_with f a b) ++ repeat None p)).
    apply f_equal, IH; simpl in *; lia.
Qed.

(** The terms of the statistic: for every position [i] with [i + 2 lag]
    in range, [x[i+2lag]^2 * x[i+lag] - x[i+lag] * x[i]^2]. *)
Definition tras_terms (l : nat) (xs : list Q) : list Q :=
  zip_with Qminus
    (zip_with Qmult (zip_with Qmult (skipn (2 * l) xs) (skipn (2 * l) xs))
              (skipn l xs))
    (zip_with Qmult (zip_with Qmult (skipn l xs) xs) xs).

Lemma length_zip_with {A B C : Type} (f : A -> B -> C)
      (a : list A) (b : list B) :
  length (zip_with f a b) = Nat.min (length a) (length b).
Proof.
  revert b. induction a as [| u a IH]; intros [| v b]; simpl;
    try reflexivity.
  now rewrite IH.
Qed.

Lemma length_tras_terms (l : nat) (xs : list Q) :
  length (tras_terms l xs) = (length xs - 2 * l)%nat.
Proof.
  unfold tras_terms. rewrite !length_zip_with, !length_skipn. lia.
Qed.

Lemma shift_left_dense (l : nat) (xs : list Q) :
  (l <= length xs)%nat ->
  shift (- Z.of_nat l) (dense xs) = dense (skipn l xs) ++ repeat None l.
Proof.
  intros H. rewrite shift_left. unfold dense.
  rewrite skipn_map, length_map. now rewrite Nat.min_l.
Qed.

Lemma time_reversal_asymmetry_statistic_dense (l : nat) (xs : list Q) :
  (2 * l < length xs)%nat ->
  time_reversal_asymmetry_statistic (dense xs) (Z.of_nat l)
  = Some (Qsum (tras_terms l xs) / Qnat (length xs - 2 * l)).
Proof.
  intros Hn. unfold time_reversal_asymmetry_statistic.
  replace (- 2 * Z.of_nat l)%Z with (- Z.of_nat (2 * l))%Z by lia.
  rewrite !shift_left_dense by lia. unfold len. rewrite length_dense.
  set (X1 := skipn l xs). set (X2 := skipn (2 * l) xs).
  assert (H1 : length X1 = (length xs - l)%nat)
    by (subst X1; apply length_skipn).
  assert (H2 : length X2 = (length xs - 2 * l)%nat)
    by (subst X2; apply length_skipn).
  unfold minus, times.
  rewrite (zip_with_padded Qmult X2 X2) by lia.
  rewrite (zip_with_padded Qmult (zip_with Qmult X2 X2) X1)
    by (rewrite ?length_zip_with; lia).
  replace (dense xs) with (dense xs ++ repeat None 0)
    by (simpl; apply app_nil_r).
  rewrite (zip_with_padded Qmult X1 xs) by lia.
  rewrite (zip_with_padded Qmult (zip_with Qmult X1 xs) xs)
    by (rewrite ?length_zip_with; lia).
  rewrite (zip_with_padded Qminus
             (zip_with Qmult (zip_with Qmult X2 X2) X1)
             (zip_with Qmult (zip_with Qmult X1 xs) xs))
    by (rewrite ?length_zip_with; lia).
  clear H1 H2. subst X1 X2. fold (tras_terms l xs).
  unfold head.
  replace (Z.of_nat (length xs) - 2 * Z.of_nat l <? 0)%Z
    with false by (symmetry; apply Z.ltb_ge; lia).
  replace (Z.to_nat (Z.of_nat (length xs) - 2 * Z.of_nat l))
    with (length (dense (tras_terms l xs)) + 0)%nat
    by (rewrite length_dense, length_tras_terms; lia).
  rewrite firstn_app_2. cbn [firstn]. rewrite app_nil_r.
  rewrite mean_dense_value.
  - now rewrite length_tras_terms.
  - intros E. apply (f_equal (@length Q)) in E.
    rewrite length_tras_terms in E. simpl in E. lia.
Qed.

Lemma nth_zip_with (f : Q -> Q -> Q) (a b : list Q) (i : nat) :
  (i < length a)%nat -> (i < length b)%nat ->
  nth i (zip_with f a b) 0 = f (nth i a 0) (nth i b 0).
Proof.
  revert b i. induction a as [| u a IH]; intros [| v b] [| i] Ha Hb;
    simpl in *; try lia; try reflexivity.
  apply IH; lia.
Qed.

Lemma nth_tras_terms (l : nat) (xs : list Q) (i : nat) :
  (i + 2 * l < length xs)%nat ->
  nth i (tras_terms l xs) 0
  = nth (i + 2 * l) xs 0 * nth (i + 2 * l) xs 0 * nth (i + l) xs 0
    - nth (i + l) xs 0 * nth i xs 0 * nth i xs 0.
Proof.
  intros H. unfold tras_terms.
  rewrite !nth_zip_with
    by (rewrite ?length_zip_with, ?length_skipn; lia).
  rewrite !nth_skipn.
  replace (2 * l + i)%nat with (i + 2 * l)%nat by lia.
  replace (l + i)%nat with (i + l)%nat by lia.
  reflexivity.
Qed.

(** X24: on a series of [n] values without missing cells and a lag [l]
    with [2 l < n], the statistic is the sum over [i < n - 2 l] of
    [x[i+2l]^2 x[i+l] - x[i+l] x[i]^2], divided by [n - 2 l]: the cells
    that the two shifts fill with nulls do not enter the mean. *)
Theorem time_reversal_asymmetry_statistic_formula (l : nat) (xs : list Q) :
  (2 * l < length xs)%nat ->
  exists terms : list Q,
    length terms = (length xs - 2 * l)%nat
    /\ (forall i, (i < length xs - 2 * l)%nat ->
          nth i terms 0
          = nth (i + 2 * l) xs 0 * nth (i + 2 * l) xs 0 * nth (i + l) xs 0
            - nth (i + l) xs 0 * nth i xs 0 * nth i xs 0)
    /\ time_reversal_asymmetry_statistic (dense xs) (Z.of_nat l)
       = Some (Qsum terms / Qnat (length xs - 2 * l)).
Proof.
  intros H. exists (tras_terms l xs). split; [| split].
  - apply length_tras_terms.
  - intros i Hi. apply nth_tras_terms. lia.
  - now apply time_reversal_asymmetry_statistic_dense.
Qed.

Lemma time_reversal_asymmetry_statistic_formula_witness :
  exists terms : list Q,
    length terms = 2%nat
    /\ (forall i, (i < 2)%nat ->
          nth i terms 0
          = nth (i + 2) [1; 2; 4; 3] 0 * nth (i + 2) [1; 2; 4; 3] 0
            * nth (i + 1) [1; 2; 4; 3] 0
            - nth (i + 1) [1; 2; 4; 3] 0 * nth i [1; 2; 4; 3] 0
              * nth i [1; 2; 4; 3] 0)
    /\ time_reversal_asymmetry_statistic (dense [1; 2; 4; 3]) 1
       = Some (Qsum terms / Qnat 2).
Proof.
  apply (time_reversal_asymmetry_statistic_formula 1 [1; 2; 4; 3]).
  simpl. lia.
Defined.

Lemma Qsum_app (a b : list Q) : Qsum (a ++ b) == Qsum a + Qsum b.
Proof.
  induction a as [| u a IH]; simpl.
  - ring.
  - rewrite IH. ring.
Qed.

Lemma Qsum_rev (a : list Q) : Qsum (rev a) == Qsum a.
Proof.
  induction a as [| u a IH]; simpl; [reflexivity |].
  rewrite Qsum_app, IH. simpl. ring.
Qed.

Lemma Qsum_nth_ext (a b : list Q) :
  length a = length b ->
  (forall i, (i < length a)%nat -> nth i a 0 == nth i b 0) ->
  Qsum a == Qsum b.
Proof.
  revert b. induction a as [| u a IH]; intros [| v b] Hl H;
    try discriminate Hl; [reflexivity |].
  simpl. rewrite (H 0%nat) by (simpl; lia). simpl.
  rewrite (IH b); [reflexivity | now injection Hl |].
  intros i Hi. apply (H (S i)). simpl. lia.
Qed.

Lemma tras_terms_rev (l : nat) (xs : list Q) :
  (2 * l < length xs)%nat ->
  Qsum (tras_terms l (rev xs)) == - Qsum (tras_terms l xs).
Proof.
  intros H. rewrite <- Qsum_rev with (a := tras_terms l xs).
  rewrite <- Qsum_map_opp. apply Qsum_nth_ext.
  - rewrite length_map, length_rev, !length_tras_terms, length_rev.
    reflexivity.
  - rewrite length_tras_terms, length_rev. intros i Hi.
    change 0 with (Qopp 0) at 2. rewrite map_nth.
    rewrite rev_nth by (rewrite length_tras_terms; lia).
    rewrite length_tras_terms.
    rewrite !nth_tras_terms by (rewrite ?length_rev; lia).
    rewrite !rev_nth by lia.
    replace (length xs - 2 * l - S i + 2 * l)%nat
      with (length xs - S i)%nat by lia.
    replace (length xs - 2 * l - S i + l)%nat
      with (length xs - S (i + l))%nat by lia.
    replace (length xs - 2 * l - S i)%nat
      with (length xs - S (i + 2 * l))%nat by lia.
    ring.
Qed.

(** X25: reading a series without missing cells backwards changes the
    sign of the statistic (for a lag [l] with [2 l < n]). *)
Theorem time_reversal_asymmetry_statistic_reverse (l : nat) (xs : list Q) :
  (2 * l < length xs)%nat ->
  exists a b : Q,
    time_reversal_asymmetry_statistic (dense xs) (Z.of_nat l) = Some a
    /\ time_reversal_asymmetry_statistic (dense (rev xs)) (Z.of_nat l)
       = Some b
    /\ b == - a.
Proof.
  intros H.
  rewrite (time_reversal_asymmetry_statistic_dense l xs H).
  rewrite (time_reversal_asymmetry_statistic_dense l (rev xs))
    by (rewrite length_rev; exact H).
  eexists. eexists. split; [reflexivity | split; [reflexivity |]].
  rewrite length_rev, (tras_terms_rev l xs H).
  assert (Hq : ~ Qnat (length xs - 2 * l) == 0).
  { intros E. apply Qnat_zero_iff in E. lia. }
  field. exact Hq.
Qed.

Lemma time_reversal_asymmetry_statistic_reverse_witness :
  exists a b : Q,
    time_reversal_asymmetry_statistic (dense [1; 2; 4; 3]) 1 = Some a
    /\ time_reversal_asymmetry_statistic (dense (rev [1; 2; 4; 3])) 1
       = Some b
    /\ b == - a.
Proof.
  apply (time_reversal_asymmetry_statistic_reverse 1 [1; 2; 4; 3]).
  simpl. lia.
Defined.

(** ** fit and fit_transform with another model than PCA *)

Section ReducerModels.

Import Table Reducer.

Context {C FC DR PCA E K : Type}.
Variable X_features_attr : FC -> option (table C).
Variable fc_calculate_features : FC -> table C -> result (table C * FC).
Variable state_model_attr : DR -> option PCA.
Variable dr_fit_pca : DR -> table C -> Z -> K -> result DR.
Variable model_transform : PCA -> table C -> result E.

Let fit' := fit fc_calculate_features state_model_attr dr_fit_pca.
Let fit_transform' := fit_transform fc_calculate_features state_model_attr
                                    dr_fit_pca model_transform.
Let fit_then_X_reduced' :=
  fit_then_X_reduced X_features_attr fc_calculate_features state_model_attr
                     dr_fit_pca model_transform.

(** The object after the features of [X] were computed and nothing was
    fitted. *)
Definition features_only (self : @features_dim_reduction FC DR) (fc' : FC)
  : @features_dim_reduction FC DR :=
  {| feature_calculator := fc';
     dimension_reducer := dimension_reducer self;
     model := model self |}.

Lemma X_reduced_without_model (self : @features_dim_reduction FC DR) :
  state_model_attr (dimension_reducer self) = None ->
  (forall Xf, X_features_attr (feature_calculator self) = Some Xf ->
              columns Xf <> []) ->
  X_reduced X_features_attr state_model_attr model_transform self
  = Raise AttributeError.
Proof.
  intros Hm Hc. unfold X_reduced.
  destruct (X_features_attr (feature_calculator self)) as [Xf |] eqn:HX;
    [| reflexivity].
  cbn [attr bind]. specialize (Hc Xf eq_refl).
  destruct (columns Xf) as [| c cs] eqn:Hcols; [congruence |].
  cbn. rewrite Hm. reflexivity.
Qed.

(** X26: with the model "TSNE", [fit] and [fit_transform] compute the
    features of the panel and return [None]: nothing is fitted and the
    dimension reducer is left as it was.  [X_reduced()] afterwards
    raises AttributeError when the reducer held no fitted model. *)
Theorem fit_tsne_returns_none
        (self : features_dim_reduction) (X : table C) (dim : Z)
        (kwargs : K) (id : string) (F : table C) (fc' : FC) :
  model self = "TSNE"%string ->
  getitem (columns X) 0 = Ok id ->
  fc_calculate_features (feature_calculator self) X = Ok (F, fc') ->
  fit' self X dim kwargs = Ok (None, features_only self fc')
  /\ fit_transform' self X dim kwargs = Ok (None, features_only self fc')
  /\ (state_model_attr (dimension_reducer self) = None ->
      (forall Xf, X_features_attr fc' = Some Xf -> columns Xf <> []) ->
      fit_then_X_reduced' self X dim kwargs = Raise AttributeError).
Proof.
  intros Hm Hid Hc.
  assert (Hfit : fit' self X dim kwargs = Ok (None, features_only self fc')).
  { unfold fit', fit, calculate_features. rewrite Hid. cbn [bind].
    rewrite Hc. cbn [bind fst snd model]. unfold features_only.
    rewrite Hm. reflexivity. }
  split; [exact Hfit | split].
  - unfold fit_transform', fit_transform, calculate_features.
    rewrite Hid. cbn [bind]. rewrite Hc. cbn [bind fst snd model].
    unfold features_only. rewrite Hm. reflexivity.
  - intros Hs Hcols. unfold fit_then_X_reduced', fit_then_X_reduced.
    fold fit'. rewrite Hfit. cbn [bind snd].
    rewrite X_reduced_without_model; [reflexivity | exact Hs | exact Hcols].
Qed.

(** X27: with a model that is neither "PCA" nor "TSNE", [fit] and
    [fit_transform] end in [sys.exit(1)], after the features of the panel
    were computed; they never return. *)
Theorem fit_unknown_model_exits
        (self : features_dim_reduction) (X : table C) (dim : Z)
        (kwargs : K) :
  model self <> "PCA"%string -> model self <> "TSNE"%string ->
  (forall id F fc',
      getitem (columns X) 0 = Ok id ->
      fc_calculate_features (feature_calculator self) X = Ok (F, fc') ->
      fit' self X dim kwargs = Raise (SystemExit 1)
      /\ fit_transform' self X dim kwargs = Raise (SystemExit 1))
  /\ (exists e, fit' self X dim kwargs = Raise e)
  /\ (exists e, fit_transform' self X dim kwargs = Raise e).
Proof.
  intros Hp Ht.
  apply String.eqb_neq in Hp. apply String.eqb_neq in Ht.
  unfold fit', fit_transform', fit, fit_transform, calculate_features.
  split; [| split].
  - intros id F fc' Hid Hc. rewrite Hid. cbn [bind]. rewrite Hc.
    cbn [bind fst snd model]. rewrite Hp, Ht. split; reflexivity.
  - destruct (getitem (columns X) 0) as [id | e]; [| now exists e].
    cbn [bind].
    destruct (fc_calculate_features (feature_calculator self) X)
      as [[F fc'] | e]; [| now exists e].
    cbn [bind fst snd model]. rewrite Hp, Ht. now eexists.
  - destruct (getitem (columns X) 0) as [id | e]; [| now exists e].
    cbn [bind].
    destruct (fc_calculate_features (feature_calculator self) X)
      as [[F fc'] | e]; [| now exists e].
    cbn [bind fst snd model]. rewrite Hp, Ht. now eexists.
Qed.

End ReducerModels.

Lemma fit_tsne_returns_none_witness :
  Reducer.fit Reducer.toy_calculate (fun dr => dr) Reducer.toy_fit_pca
              (Reducer.toy_reducer "TSNE") Reducer.toy_panel 2 tt
  = Ok (None,
        features_only (Reducer.toy_reducer "TSNE")
                      (Some Reducer.toy_panel))
  /\ Reducer.fit_transform
       Reducer.toy_calculate (fun dr => dr) Reducer.toy_fit_pca
       Reducer.toy_transform
       (Reducer.toy_reducer "TSNE") Reducer.toy_panel 2 tt
     = Ok (None,
           features_only (Reducer.toy_reducer "TSNE")
                         (Some Reducer.toy_panel))
  /\ Reducer.fit_then_X_reduced
       (fun fc => fc) Reducer.toy_calculate (fun dr => dr)
       Reducer.toy_fit_pca Reducer.toy_transform
       (Reducer.toy_reducer "TSNE") Reducer.toy_panel 2 tt
     = Raise AttributeError.
Proof.
  destruct (fit_tsne_returns_none
              (fun fc => fc) Reducer.toy_calculate (fun dr => dr)
              Reducer.toy_fit_pca Reducer.toy_transform
              (Reducer.toy_reducer "TSNE") Reducer.toy_panel 2 tt
              "id"%string Reducer.toy_panel (Some Reducer.toy_panel)
              eq_refl eq_refl eq_refl) as [H1 [H2 H3]].
  split; [exact H1 | split; [exact H2 |]].
  apply H3; [reflexivity |].
  intros Xf HX. injection HX as <-. discriminate.
Defined.

Lemma fit_unknown_model_exits_witness :
  Reducer.fit Reducer.toy_calculate (fun dr => dr) Reducer.toy_fit_pca
              (Reducer.toy_reducer "UMAP") Reducer.toy_panel 2 tt
  = Raise (SystemExit 1)
  /\ Reducer.fit_transform
       Reducer.toy_calculate (fun dr => dr) Reducer.toy_fit_pca
       Reducer.toy_transform
       (Reducer.toy_reducer "UMAP") Reducer.toy_panel 2 tt
     = Raise (SystemExit 1).
Proof.
  apply (proj1 (fit_unknown_model_exits
                  Reducer.toy_calculate (fun dr => dr) Reducer.toy_fit_pca
                  Reducer.toy_transform
                  (Reducer.toy_reducer "UMAP") Reducer.toy_panel 2 tt
                  ltac:(discriminate) ltac:(discriminate))
               "id"%string Reducer.toy_panel (Some Reducer.toy_panel)
               eq_refl eq_refl).
Defined.

(** ** count_below and count_above as functions of the threshold *)

Lemma filter_le_threshold (x : series) (t t' : Q) :
  t <= t' ->
  (length (filter x (le x (Some t)))
   <= length (filter x (le x (Some t'))))%nat.
Proof.
  intros Ht. induction x as [| [v |] x IH]; simpl; try lia.
  destruct (Qle_bool v t) eqn:E.
  - assert (E' : Qle_bool v t' = true).
    { apply Qle_bool_iff. apply Qle_bool_iff in E.
      now apply Qle_trans with t. }
    rewrite E'. simpl. lia.
  - destruct (Qle_bool v t'); simpl; lia.
Qed.

Lemma filter_ge_threshold (x : series) (t t' : Q) :
  t <= t' ->
  (length (filter x (ge x (Some t')))
   <= length (filter x (ge x (Some t))))%nat.
Proof.
  intros Ht. induction x as [| [v |] x IH]; simpl; try lia.
  destruct (Qle_bool t' v) eqn:E.
  - assert (E' : Qle_bool t v = true).
    { apply Qle_bool_iff. apply Qle_bool_iff in E.
      now apply Qle_trans with t'. }
    rewrite E'. simpl. lia.
  - destruct (Qle_bool t v); simpl; lia.
Qed.

Lemma filter_map_length {A : Type} (f : A -> option bool) (x : list A) :
  (length (filter x (map f x)) <= length x)%nat.
Proof.
  induction x as [| c x IH]; simpl; [lia |].
  destruct (f c) as [[|] |]; simpl; lia.
Qed.

Lemma percent_le (k k' n : nat) :
  (k <= k')%nat ->
  Qnat k / Qnat n * inject_Z 100 <= Qnat k' / Qnat n * inject_Z 100.
Proof.
  intros H. apply Qmult_le_compat_r; [| discriminate].
  unfold Qdiv. apply Qmult_le_compat_r.
  - unfold Qnat. rewrite <- Zle_Qle. lia.
  - apply Qinv_le_0_compat, Qnat_nonneg.
Qed.

Lemma percent_range (k n : nat) :
  (k <= n)%nat -> (0 < n)%nat ->
  0 <= Qnat k / Qnat n * inject_Z 100
  /\ Qnat k / Qnat n * inject_Z 100 <= 100.
Proof.
  intros Hk Hn.
  assert (Hnz : ~ Qnat n == 0)
    by (intros E; apply Qnat_zero_iff in E; lia).
  split.
  - setoid_replace 0 with (Qnat 0 / Qnat n * inject_Z 100)
      by (unfold Qnat; simpl Z.of_nat; change (inject_Z 0) with 0;
          field; exact Hnz).
    apply percent_le. lia.
  - setoid_replace 100 with (Qnat n / Qnat n * inject_Z 100) at 2
      by (change (inject_Z 100) with 100; field; exact Hnz).
    now apply percent_le.
Qed.

(** X28: in exact arithmetic and on a non-empty series, missing cells
    allowed, both percentages lie between 0 and 100; [count_below] does
    not decrease and [count_above] does not increase when the threshold
    grows. *)
Theorem count_below_above_threshold (x : series) (t t' : Q) :
  x <> [] -> t <= t' ->
  exists p p' q q' : Q,
    count_below x t = Fin p /\ count_below x t' = Fin p'
    /\ count_above x t = Fin q /\ count_above x t' = Fin q'
    /\ (0 <= p /\ p <= p' /\ p' <= 100)
    /\ (0 <= q' /\ q' <= q /\ q <= 100).
Proof.
  intros Hne Ht.
  assert (Hn : (0 < length x)%nat)
    by (destruct x; [now elim Hne | simpl; lia]).
  unfold count_below, count_above, count.
  rewrite !percent_exact by exact Hn.
  do 4 eexists. repeat (split; [reflexivity |]).
  pose proof (filter_le_threshold x t t' Ht) as Hle.
  pose proof (filter_ge_threshold x t t' Ht) as Hge.
  pose proof (filter_map_length (fun c => lift2 Qle_bool c (Some t')) x)
    as Hb.
  pose proof (filter_map_length (fun c => lift2 Qle_bool (Some t) c) x)
    as Ha.
  fold (le x (Some t')) in Hb. fold (ge x (Some t)) in Ha.
  split; (split; [| split]).
  - apply percent_range;
      [exact (Nat.le_trans _ _ _ Hle Hb) | exact Hn].
  - now apply percent_le.
  - apply percent_range; [exact Hb | exact Hn].
  - apply percent_range;
      [exact (Nat.le_trans _ _ _ Hge Ha) | exact Hn].
  - now apply percent_le.
  - apply percent_range; [exact Ha | exact Hn].
Qed.

Lemma count_below_above_threshold_witness :
  exists p p' q q' : Q,
    count_below (dense [1; 2; 3; 4]) 2 = Fin p
    /\ count_below (dense [1; 2; 3; 4]) 3 = Fin p'
    /\ count_above (dense [1; 2; 3; 4]) 2 = Fin q
    /\ count_above (dense [1; 2; 3; 4]) 3 = Fin q'
    /\ (0 <= p /\ p <= p' /\ p' <= 100)
    /\ (0 <= q' /\ q' <= q /\ q <= 100).
Proof.
  apply (count_below_above_threshold (dense [1; 2; 3; 4]) 2 3).
  - discriminate.
  - discriminate.
Defined.

(** ** autocorr at a positive lag *)

Lemma drop_nulls_dense_pad (ys : list Q) (p : nat) :
  drop_nulls (dense ys ++ repeat None p) = ys.
Proof.
  induction ys as [| y ys IH]; simpl.
  - apply drop_nulls_repeat_none.
  - f_equal. exact IH.
Qed.

Lemma drop_nulls_pad_dense (ys : list Q) (p : nat) :
  drop_nulls (repeat None p ++ dense ys) = ys.
Proof.
  induction p as [| p IH]; simpl; [apply drop_nulls_dense | exact IH].
Qed.

Lemma shift_right_dense (l : nat) (xs : list Q) :
  (l <= length xs)%nat ->
  shift (Z.of_nat l) (dense xs)
  = repeat None l ++ dense (firstn (length xs - l) xs).
Proof.
  intros H. unfold shift, shift_and_fill.
  replace (0 <=? Z.of_nat l)%Z with true
    by (symmetry; apply Z.leb_le; lia).
  rewrite Nat2Z.id, length_dense, firstn_app, repeat_length.
  rewrite firstn_all2 by (rewrite repeat_length; exact H).
  unfold dense. now rewrite firstn_map.
Qed.

Lemma sub_dense (ys : list Q) (m : Q) :
  sub (map Some ys) (Some m) = dense (map (fun u => u - m) ys).
Proof.
  unfold sub, dense. rewrite !map_map. reflexivity.
Qed.

Lemma zip_with_map (f : Q -> Q -> Q) (g : Q -> Q) (a b : list Q) :
  zip_with f (map g a) (map g b) = zip_with (fun u w => f (g u) (g w)) a b.
Proof.
  revert b. induction a as [| u a IH]; intros [| w b]; simpl;
    try reflexivity.
  now rewrite IH.
Qed.

(** X29: on a series of [n] values without missing cells, with mean [m]
    and population variance [v], the autocorrelation at a lag [l] with
    [0 < l < n] is the sum of [(x[i+l] - m) (x[i] - m)] over [i < n - l],
    divided by [(n - l) v]. *)
Theorem autocorr_formula (l : nat) (xs : list Q) :
  (0 < l)%nat -> (l < length xs)%nat ->
  exists m v : Q,
    mean (dense xs) = Some m
    /\ var 0 (dense xs) = Some v
    /\ autocorr (dense xs) (Z.of_nat l)
       = Ok (Some (XReal.div
                     (Fin (Qsum (zip_with (fun u w => (u - m) * (w - m))
                                          (skipn l xs) xs)))
                     (Fin (Qnat (length xs - l) * v)))).
Proof.
  intros H0 Hl.
  assert (Hx : xs <> []) by (intros ->; simpl in Hl; lia).
  pose proof (mean_dense_value xs Hx) as Hm.
  set (m := Qsum xs / Qnat (length xs)) in Hm.
  assert (Hv : exists v, var 0 (dense xs) = Some v).
  { unfold var. rewrite drop_nulls_dense, Hm.
    destruct xs as [| a xs']; [congruence |]. cbn [length Nat.leb].
    now eexists. }
  destruct Hv as [v Hv]. exists m, v.
  split; [exact Hm | split; [exact Hv |]].
  unfold autocorr.
  replace (Z.of_nat l <? 0)%Z with false
    by (symmetry; apply Z.ltb_ge; lia).
  replace (Z.of_nat l =? 0)%Z with false
    by (symmetry; apply Z.eqb_neq; lia).
  rewrite shift_left_dense, shift_right_dense by lia.
  rewrite drop_nulls_dense_pad, drop_nulls_pad_dense.
  rewrite Hm, Hv, !sub_dense. unfold dot.
  rewrite !length_dense, !length_map, length_skipn, length_firstn.
  replace (length xs - l =? Nat.min (length xs - l) (length xs))%nat
    with true by (symmetry; apply Nat.eqb_eq; lia).
  cbn [bind]. rewrite zip_with_dense. unfold sum.
  rewrite drop_nulls_dense, zip_with_map.
  replace (length xs - l)%nat with (length (skipn l xs))
    by apply length_skipn.
  rewrite zip_with_firstn, length_skipn.
  unfold count. rewrite length_dense.
  cbn [to_scalar option_map lift2 XReal.mul].
  replace (Z.of_nat (length xs) - Z.of_nat l)%Z
    with (Z.of_nat (length xs - l)) by lia.
  reflexivity.
Qed.

Lemma autocorr_formula_witness :
  exists m v : Q,
    mean (dense [1; 2; 4; 3]) = Some m
    /\ var 0 (dense [1; 2; 4; 3]) = Some v
    /\ autocorr (dense [1; 2; 4; 3]) 1
       = Ok (Some (XReal.div
                     (Fin (Qsum (zip_with (fun u w => (u - m) * (w - m))
                                          (skipn 1 [1; 2; 4; 3])
                                          [1; 2; 4; 3])))
                     (Fin (Qnat (4 - 1) * v)))).
Proof.
  apply (autocorr_formula 1 [1; 2; 4; 3]); simpl; lia.
Defined.

(** ** change_quantiles with the widest corridor *)

(** In ascending order: every cell is below the cells after it. *)
Fixpoint ascending (l : list Q) : Prop :=
  match l with
  | [] => True
  | a :: l' => (forall v, In v l' -> a <= v) /\ ascending l'
  end.

Lemma Qinsert_In (u v : Q) (l : list Q) :
  In u (Qinsert v l) <-> u = v \/ In u l.
Proof.
  induction l as [| w l IH]; simpl.
  - split; intros [H | []]; left; congruence.
  - destruct (Qle_bool v w); simpl; [| rewrite IH]; intuition congruence.
Qed.

Lemma Qinsert_ascending (v : Q) (l : list Q) :
  ascending l -> ascending (Qinsert v l).
Proof.
  induction l as [| w l IH]; intros Hl.
  - simpl. split; [intros u [] | exact I].
  - destruct Hl as [Hw Hl]. simpl.
    destruct (Qle_bool v w) eqn:E.
    + apply Qle_bool_iff in E. split; [| split; assumption].
      intros u [<- | Hu]; [exact E |].
      apply Qle_trans with w; [exact E | now apply Hw].
    + assert (Hwv : w <= v).
      { destruct (Qlt_le_dec w v) as [H | H]; [now apply Qlt_le_weak |].
        apply Qle_bool_iff in H. congruence. }
      split; [| now apply IH].
      intros u Hu. apply Qinsert_In in Hu.
      destruct Hu as [-> | Hu]; [exact Hwv | now apply Hw].
Qed.

Lemma Qsort_ascending (l : list Q) : ascending (Qsort l).
Proof.
  induction l as [| a l IH]; [exact I |].
  apply Qinsert_ascending, IH.
Qed.

Lemma Qsort_In (u : Q) (l : list Q) : In u (Qsort l) <-> In u l.
Proof.
  induction l as [| a l IH]; [reflexivity |].
  change (Qsort (a :: l)) with (Qinsert a (Qsort l)).
  rewrite Qinsert_In, IH. simpl. intuition congruence.
Qed.

Lemma ascending_first (l : list Q) (v : Q) :
  ascending l -> In v l -> nth 0 l 0 <= v.
Proof.
  destruct l as [| a l]; intros Hl Hv; [destruct Hv |].
  destruct Hl as [Ha _]. destruct Hv as [<- | Hv]; [apply Qle_refl |].
  now apply Ha.
Qed.

Lemma ascending_last (l : list Q) (v : Q) :
  ascending l -> In v l -> v <= nth (length l - 1) l 0.
Proof.
  revert v. induction l as [| a l IH]; intros v Hl Hv; [destruct Hv |].
  destruct Hl as [Ha Hl]. destruct l as [| b l].
  - destruct Hv as [<- | []]. apply Qle_refl.
  - replace (length (a :: b :: l) - 1)%nat
      with (S (length (b :: l) - 1)) by (simpl; lia).
    change (nth (S (length (b :: l) - 1)) (a :: b :: l) 0)
      with (nth (length (b :: l) - 1) (b :: l) 0).
    destruct Hv as [<- | Hv]; [| now apply IH].
    apply Qle_trans with b; [apply Ha; now left |].
    apply IH; [exact Hl | now left].
Qed.

(** The quantiles 0 and 1 are the least and the greatest value. *)
Lemma quantile_ends (c : list Q) :
  c <> [] ->
  exists lo hi : Q,
    quantile (dense c) 0 = Ok (Some lo)
    /\ quantile (dense c) 1 = Ok (Some hi)
    /\ forall v, In v c -> lo <= v /\ v <= hi.
Proof.
  intros Hc. unfold quantile. rewrite drop_nulls_dense.
  pose proof (Qsort_nonempty c Hc) as Hs.
  pose proof (Qsort_ascending c) as Ha.
  assert (Hin : forall v, In v c -> In v (Qsort c))
    by (intros v Hv; now apply Qsort_In).
  set (s := Qsort c) in *. clearbody s.
  destruct s as [| s0 s']; [congruence |].
  set (s := s0 :: s') in *.
  change (Qle_bool 0 0 && Qle_bool 0 1) with true.
  change (Qle_bool 0 1 && Qle_bool 1 1) with true. cbv iota zeta.
  assert (F0 : Qfloor (Qnat (length s - 1) * 0) = 0%Z).
  { transitivity (Qfloor 0); [apply Qfloor_comp; ring | reflexivity]. }
  assert (C0 : Qceiling (Qnat (length s - 1) * 0) = 0%Z).
  { transitivity (Qceiling 0); [apply Qceiling_comp; ring | reflexivity]. }
  assert (F1 : Qfloor (Qnat (length s - 1) * 1)
               = Z.of_nat (length s - 1)).
  { transitivity (Qfloor (inject_Z (Z.of_nat (length s - 1))));
      [apply Qfloor_comp; unfold Qnat; ring | apply Qfloor_Z]. }
  assert (C1 : Qceiling (Qnat (length s - 1) * 1)
               = Z.of_nat (length s - 1)).
  { transitivity (Qceiling (inject_Z (Z.of_nat (length s - 1))));
      [apply Qceiling_comp; unfold Qnat; ring | apply Qceiling_Z]. }
  rewrite F0, C0, F1, C1, !Z.eqb_refl, Nat2Z.id.
  change (Z.to_nat 0) with 0%nat.
  exists (nth 0 s 0), (nth (length s - 1) s 0).
  split; [reflexivity | split; [reflexivity |]].
  intros v Hv. split.
  - apply ascending_first; [exact Ha | now apply Hin].
  - apply ascending_last; [exact Ha | now apply Hin].
Qed.

Lemma corridor_pairs_all (inside : Q -> bool) (prev : Q) (c : list Q) :
  inside prev = true -> (forall v, In v c -> inside v = true) ->
  Spec.corridor_pairs inside prev c = c.
Proof.
  revert prev. induction c as [| d c IH]; intros prev Hp Hc;
    [reflexivity |].
  cbn [Spec.corridor_pairs]. rewrite Hp, (Hc d) by now left.
  cbn [andb]. f_equal. apply IH; [apply Hc; now left |].
  intros v Hv. apply Hc. now right.
Qed.

(** X30: with the corridor from the quantile 0 to the quantile 1, the
    least and the greatest difference, [change_quantiles] returns every
    difference but the first one (absolute differences when [is_abs]):
    the first difference has no predecessor and is never kept. *)
Theorem change_quantiles_full_corridor (xs : list Q) (is_abs : bool) :
  change_quantiles (dense xs) 0 1 is_abs
  = Ok (dense (tl (if is_abs then map Qabs (Spec.changes xs)
                   else Spec.changes xs))).
Proof.
  unfold change_quantiles. destruct xs as [| a xs].
  - now destruct is_abs.
  - rewrite diff_dense.
    set (c := Spec.changes (a :: xs)).
    set (c' := if is_abs then map Qabs c else c).
    replace (if is_abs then abs (None :: dense c) else None :: dense c)
      with (None :: dense c').
    2:{ subst c'. destruct is_abs; [| reflexivity].
        unfold abs. cbn [map option_map]. f_equal. symmetry.
        apply abs_dense. }
    change (quantile (None :: dense c') 0) with (quantile (dense c') 0).
    change (quantile (None :: dense c') 1) with (quantile (dense c') 1).
    destruct c' as [| d0 cr] eqn:Ec.
    + change (dense []) with (@nil cell).
      rewrite !(quantile_none []) by (reflexivity || discriminate).
      reflexivity.
    + destruct (quantile_ends (d0 :: cr)) as [lo [hi [Hlo [Hhi Hb]]]];
        [discriminate |].
      rewrite Hlo, Hhi. cbn [bind]. f_equal.
      etransitivity; [apply (change_quantiles_filter (d0 :: cr) lo hi) |].
      cbn [tl]. f_equal. apply corridor_pairs_all.
      * destruct (Hb d0) as [H1 H2]; [now left |].
        apply Qle_bool_iff in H1. apply Qle_bool_iff in H2.
        now rewrite H1, H2.
      * intros v Hv. destruct (Hb v) as [H1 H2]; [now right |].
        apply Qle_bool_iff in H1. apply Qle_bool_iff in H2.
        now rewrite H1, H2.
Qed.
